(** * The IPv4 engine, flow steering and NIC transmit path of seastar

    A shallow embedding of [net/ip.cc], [net/toeplitz.hh], [net/packet.cc]
    and the transmit half of [net/dpdk.cc].

    Conventions.
    - Unsigned machine integers are [Z] with the wrap-around written out
      ([u16], [u32]); a byte is [Byte.byte], read as a number by [bval].
    - A [packet] is its ordered list of fragments, each fragment being the
      bytes found at [{base, size}].  The C++ [share] makes two packets
      point into one buffer; the only writes through such a pointer
      ([get_assembled_packet]) touch bytes 2-3 and 6-7 of the IP header,
      which no other live packet covers, so value semantics is enough.
    - Time is a [Z] (seconds on the reactor clock); [clock_type::now()] is
      an argument of the functions that read the clock.
    - The reassembly table [std::unordered_map<ipv4_frag_id, frag>] is a
      [gmap]; the age list [std::list<ipv4_frag_id>] is a [list]; the
      merger's [std::map<uint16_t, packet>] is an association list kept in
      key order, its head being [map.begin()]. *)

From Stdlib Require Import ZArith List Lia Bool Permutation.
From Stdlib.Strings Require Import Byte.
From stdpp Require Import base option list sorting gmap fin_maps.

Local Open Scope Z_scope.

(** ** Machine integers and bytes *)

Definition u8 (x : Z) : Z := x mod 256.
Definition u16 (x : Z) : Z := x mod 65536.
Definition u32 (x : Z) : Z := x mod 4294967296.

(** [int32_t(x)] for an [x] already reduced to 32 bits. *)
Definition to_int32 (x : Z) : Z :=
  if u32 x <? 2147483648 then u32 x else u32 x - 4294967296.

Definition bval (b : byte) : Z := Z.of_N (Byte.to_N b).

Definition byte_of (x : Z) : byte :=
  match Byte.of_N (Z.to_N (u8 x)) with
  | Some b => b
  | None => x00
  end.

(** Big-endian (network order) reading and writing of 16 and 32 bit fields. *)
Definition be16 (b1 b0 : byte) : Z := bval b1 * 256 + bval b0.

Definition be32 (b3 b2 b1 b0 : byte) : Z :=
  bval b3 * 16777216 + bval b2 * 65536 + bval b1 * 256 + bval b0.

Definition put_be16 (x : Z) : list byte :=
  [byte_of (Z.shiftr x 8); byte_of x].

Definition put_be32 (x : Z) : list byte :=
  [byte_of (Z.shiftr x 24); byte_of (Z.shiftr x 16);
   byte_of (Z.shiftr x 8); byte_of x].

(** ** The packet buffer *)

Record offload_info : Type := mk_offload_info {
  needs_ip_csum : bool;
  protocol : Z;
  ip_hdr_len : Z;
  hw_vlan : bool;
  vlan_tci : Z;
  reassembled : bool
}.

Definition no_offload : offload_info :=
  mk_offload_info false 0 20 false 0 false.

Definition fragment : Type := list byte.

Record packet : Type := mk_packet {
  frags : list fragment;
  oi : offload_info
}.

Definition empty_packet : packet := mk_packet [] no_offload.

Definition pbytes (p : packet) : list byte := concat (frags p).

Definition plen (p : packet) : Z := Z.of_nat (length (pbytes p)).

Definition nr_frags (p : packet) : Z := Z.of_nat (length (frags p)).

Definition fsize (f : fragment) : Z := Z.of_nat (length f).

Definition set_offload_info (o : offload_info) (p : packet) : packet :=
  mk_packet (frags p) o.

Fixpoint frags_drop (n : nat) (fs : list fragment) : list fragment :=
  match n, fs with
  | O, _ => fs
  | _, [] => []
  | _, f :: fs' =>
      if (length f <=? n)%nat then frags_drop (n - length f) fs'
      else drop n f :: fs'
  end.

Fixpoint frags_take (n : nat) (fs : list fragment) : list fragment :=
  match n, fs with
  | O, _ => []
  | _, [] => []
  | _, f :: fs' =>
      if (length f <=? n)%nat then f :: frags_take (n - length f) fs'
      else [take n f]
  end.

(** Modelled from the spec: [packet::trim_front], [packet::trim_back],
    [packet::share], [packet::append] and [packet::prepend_header] are
    declared in packet.hh, which is not among the sources; section 4.A
    of the specification lists them.  [prepend_header] hands out an
    uninitialised header region in front of the data, and every caller
    fills all of it, so the model takes the filled header. *)
Definition trim_front (n : Z) (p : packet) : packet :=
  mk_packet (frags_drop (Z.to_nat n) (frags p)) (oi p).

Definition trim_back (n : Z) (p : packet) : packet :=
  mk_packet (frags_take (length (pbytes p) - Z.to_nat n) (frags p)) (oi p).

Definition share (offset len : Z) (p : packet) : packet :=
  mk_packet (frags_take (Z.to_nat len) (frags_drop (Z.to_nat offset) (frags p)))
            (oi p).

Definition append (p q : packet) : packet :=
  mk_packet (frags p ++ frags q) (oi p).

Definition prepend_header (hdr : list byte) (p : packet) : packet :=
  mk_packet (hdr :: frags p) (oi p).

(** Modelled from the spec: [packet::get_header<T>(offset)] (packet.hh)
    yields a pointer to [size] contiguous bytes at [offset], or a null
    pointer when the packet is shorter than [offset + size]. *)
Definition get_header (offset size : Z) (p : packet) : option (list byte) :=
  if offset + size <=? plen p
  then Some (take (Z.to_nat size) (drop (Z.to_nat offset) (pbytes p)))
  else None.

(** Writing through a header pointer: byte [i] of the packet becomes
    [g i b]. *)
Fixpoint bytes_mapi (g : nat -> byte -> byte) (i : nat) (bs : list byte)
  : list byte :=
  match bs with
  | [] => []
  | b :: bs' => g i b :: bytes_mapi g (S i) bs'
  end.

Fixpoint frags_mapi (g : nat -> byte -> byte) (i : nat) (fs : list fragment)
  : list fragment :=
  match fs with
  | [] => []
  | f :: fs' => bytes_mapi g i f :: frags_mapi g (i + length f) fs'
  end.

(** [packet::linearize(at_frag, desired_size)] of packet.cc.  The
    [while] loop counts the fragments needed to reach [desired_size];
    it indexes [_frags] without a bound, so running off the end of the
    fragment array is [None]. *)
Fixpoint linearize_count (fs : list fragment) (accum_size desired_size : Z)
  : option (nat * Z) :=
  if accum_size <? desired_size then
    match fs with
    | [] => None
    | f :: fs' =>
        match linearize_count fs' (accum_size + fsize f) desired_size with
        | Some (n, a) => Some (S n, a)
        | None => None
        end
    end
  else Some (O, accum_size).

(** The [n] counted fragments are copied into one new fragment, the
    fragments behind them move up to [at_frag + 1], the new fragment is
    stored at [at_frag], and [_nr_frags] goes down by [n - 1].  With
    [desired_size = 0] the loop counts no fragment: the unsigned
    [n - 1] wraps, [_nr_frags] goes up by one, and an empty fragment
    stands at [at_frag] in front of the fragments that were there.  An
    [at_frag] behind the end of the fragment array is [None]. *)
Definition linearize_at (at_frag : nat) (desired_size : Z) (p : packet)
  : option packet :=
  if (length (frags p) <? at_frag)%nat then None
  else
    match linearize_count (drop at_frag (frags p)) 0 desired_size with
    | Some (n, _) =>
        let sel := take n (drop at_frag (frags p)) in
        Some (mk_packet (take at_frag (frags p) ++ [concat sel]
                           ++ drop (at_frag + n) (frags p))
                        (oi p))
    | None => None
    end.

(** Modelled from the spec: the argument-free [packet::linearize()] of
    packet.hh collapses the whole packet, [linearize(0, len())]. *)
Definition linearize (p : packet) : option packet :=
  linearize_at 0 (plen p) p.

(** ** Hardware features and protocol numbers *)

Record hw_features : Type := mk_hw_features {
  rx_csum_offload : bool;
  tx_csum_ip_offload : bool;
  tx_csum_l4_offload : bool;
  tx_tso : bool;
  tx_ufo : bool;
  mtu : Z
}.

(** [enum class ip_protocol_num] (declared in ip.hh): the IANA numbers. *)
Definition ip_protocol_num_icmp : Z := 1.
Definition ip_protocol_num_tcp : Z := 6.
Definition ip_protocol_num_udp : Z := 17.

(** ** The NIC transmit path: [net_device::send] of dpdk.cc *)

Module dpdk.

Definition mbuf_data_size : Z := 2048.
Definition max_frags : Z := 32.
Definition ether_hdr_size : Z := 14.

(** A driver buffer.  [m_id] names the buffer inside its pool; the
    [pkt.next] chain of a cluster is the order of the list that holds
    it, head first. *)
Record rte_mbuf : Type := mk_mbuf {
  m_id : nat;
  m_data : list byte;
  m_pkt_len : Z;
  m_nb_segs : Z;
  m_tx_ip_cksum : bool;
  m_tx_tcp_cksum : bool;
  m_tx_udp_cksum : bool;
  m_l2_len : Z;
  m_l3_len : Z
}.

(** The per-queue device: the free buffers of [_pktmbuf_pool] and the
    clusters handed to [rte_eth_tx_burst], oldest first. *)
Record net_device : Type := mk_net_device {
  _pktmbuf_pool : list nat;
  tx_ring : list (list rte_mbuf);
  dev_hw_features : hw_features
}.

Definition set_pool (pool : list nat) (d : net_device) : net_device :=
  mk_net_device pool (tx_ring d) (dev_hw_features d).

(** [rte_pktmbuf_free(head)] returns every segment of the chain. *)
Definition rte_pktmbuf_free (chain : list rte_mbuf) (pool : list nat)
  : list nat :=
  map m_id chain ++ pool.

(** [copy_one_data_buf]: the buffer (if [rte_pktmbuf_alloc] gave one),
    the number of bytes copied, the pool afterwards. *)
Definition copy_one_data_buf (pool : list nat) (data : list byte) (l : Z)
  : option rte_mbuf * Z * list nat :=
  match pool with
  | [] => (None, 0, pool)
  | id :: pool' =>
      let len := Z.min l mbuf_data_size in
      (Some (mk_mbuf id (take (Z.to_nat len) data) len 0 false false false 0 0),
       len, pool')
  end.

Inductive copy_result : Type :=
  | copy_ok (pool : list nat) (chain : list rte_mbuf) (nsegs : Z)
  | copy_failed (pool : list nat)
  | copy_rte_exit
  | copy_out_of_fuel.

(** The [while (left_to_copy)] loop of [copy_one_frag]. *)
Fixpoint copy_rest (fuel : nat) (pool : list nat) (left_to_copy : Z)
    (base : list byte) (chain : list rte_mbuf) (nsegs : Z) : copy_result :=
  if left_to_copy =? 0 then copy_ok pool chain nsegs
  else
    match fuel with
    | O => copy_out_of_fuel
    | S fuel' =>
        let '(m, len, pool1) := copy_one_data_buf pool base left_to_copy in
        if len =? 0 then copy_failed (rte_pktmbuf_free chain pool1)
        else
          match m with
          | Some seg =>
              copy_rest fuel' pool1 (left_to_copy - len)
                        (drop (Z.to_nat len) base) (chain ++ [seg]) (nsegs + 1)
          | None => copy_failed (rte_pktmbuf_free chain pool1)
          end
    end.

Definition copy_one_frag (pool : list nat) (frag : fragment) : copy_result :=
  if fsize frag =? 0 then copy_rte_exit
  else
    let '(head, len, pool1) := copy_one_data_buf pool frag (fsize frag) in
    if len =? 0 then copy_failed pool1
    else
      match head with
      | Some h =>
          copy_rest (length frag) pool1 (fsize frag - len)
                    (drop (Z.to_nat len) frag) [h] 1
      | None => copy_failed pool1
      end.

(** The [for (i = 1; i < p.nr_frags(); i++)] loop of [send]. *)
Fixpoint copy_frags (fs : list fragment) (pool : list nat)
    (chain : list rte_mbuf) (total_nsegs : Z) : copy_result :=
  match fs with
  | [] => copy_ok pool chain total_nsegs
  | f :: fs' =>
      match copy_one_frag pool f with
      | copy_ok pool1 h nsegs =>
          copy_frags fs' pool1 (chain ++ h) (total_nsegs + nsegs)
      | copy_failed pool1 => copy_failed (rte_pktmbuf_free chain pool1)
      | copy_rte_exit => copy_rte_exit
      | copy_out_of_fuel => copy_out_of_fuel
      end
  end.

(** The head buffer receives the packet length, the segment count and
    the offload flags. *)
Definition finish_head (dev : net_device) (p : packet) (total_nsegs : Z)
    (head : rte_mbuf) : rte_mbuf :=
  let o := oi p in
  let ip := needs_ip_csum o in
  let l4 := tx_csum_l4_offload (dev_hw_features dev) in
  let tcp := l4 && (protocol o =? ip_protocol_num_tcp) in
  let udp := l4 && negb (protocol o =? ip_protocol_num_tcp)
                && (protocol o =? ip_protocol_num_udp) in
  let lens := ip || tcp || udp in
  mk_mbuf (m_id head) (m_data head) (plen p) total_nsegs ip tcp udp
          (if lens then ether_hdr_size else m_l2_len head)
          (if lens then ip_hdr_len o else m_l3_len head).

(** How a call of [send] ended.  All but [tx_rte_exit] return
    [make_ready_future<>()]; [tx_bad_index] stands for indexing the
    fragment array out of range and [tx_out_of_fuel] for an exhausted
    loop budget of the model. *)
Inductive tx_outcome : Type :=
  | tx_nothing
  | tx_dropped
  | tx_sent
  | tx_rte_exit
  | tx_bad_index
  | tx_out_of_fuel.

Definition returns_ready_future (o : tx_outcome) : bool :=
  match o with
  | tx_nothing | tx_dropped | tx_sent => true
  | _ => false
  end.

(** The body of [send] after the length check and the linearisation.
    The final [while (rte_eth_tx_burst(...) < 1);] spins until the
    driver takes the cluster; the model records the accepted cluster. *)
Definition copy_and_transmit (dev : net_device) (p : packet)
  : tx_outcome * net_device :=
  match frags p with
  | [] => (tx_bad_index, dev)
  | f0 :: rest =>
      match copy_one_frag (_pktmbuf_pool dev) f0 with
      | copy_rte_exit => (tx_rte_exit, dev)
      | copy_out_of_fuel => (tx_out_of_fuel, dev)
      | copy_failed pool1 => (tx_dropped, set_pool pool1 dev)
      | copy_ok pool1 chain nsegs =>
          match copy_frags rest pool1 chain nsegs with
          | copy_rte_exit => (tx_rte_exit, dev)
          | copy_out_of_fuel => (tx_out_of_fuel, dev)
          | copy_failed pool2 => (tx_dropped, set_pool pool2 dev)
          | copy_ok pool2 [] _ => (tx_bad_index, set_pool pool2 dev)
          | copy_ok pool2 (head :: segs) total_nsegs =>
              (tx_sent,
               mk_net_device pool2
                 (tx_ring dev ++ [finish_head dev p total_nsegs head :: segs])
                 (dev_hw_features dev))
          end
      end
  end.

Definition send (dev : net_device) (p : packet) : tx_outcome * net_device :=
  if plen p =? 0 then (tx_nothing, dev)
  else if max_frags <? nr_frags p then
    match linearize p with
    | Some p' => copy_and_transmit dev p'
    | None => (tx_bad_index, dev)
    end
  else copy_and_transmit dev p.

(** The packet the copy loops work on: linearised when it has more
    than [max_frags] fragments. *)
Definition tx_packet (p : packet) : option packet :=
  if max_frags <? nr_frags p then linearize p else Some p.

(** Driver buffers one fragment needs, [ceil(size / 2048)], and a list
    of fragments needs. *)
Definition bufs_needed (f : fragment) : nat :=
  Z.to_nat ((fsize f + mbuf_data_size - 1) / mbuf_data_size).

Definition total_bufs (fs : list fragment) : nat :=
  foldr (fun f n => (bufs_needed f + n)%nat) 0%nat fs.

End dpdk.

(** ** The IPv4 header *)

Module ip_hdr.

(** Modelled from the spec: [struct ip_hdr] is declared in ip.hh, which
    is not among the sources; section 6 of the specification gives the
    wire layout (20 bytes, network order), the position of the MF bit
    ([mf_shift = 13] in the combined flags/offset word) and the unit of
    the fragment offset (8 octets). *)
Record t : Type := mk {
  ihl : Z;
  ver : Z;
  dscp : Z;
  ecn : Z;
  len : Z;
  id : Z;
  frag : Z;
  ttl : Z;
  ip_proto : Z;
  csum : Z;
  src_ip : Z;
  dst_ip : Z
}.

Definition size : Z := 20.

Definition mf_shift : Z := 13.

Definition mf (h : t) : bool := Z.testbit (frag h) mf_shift.

Definition offset (h : t) : Z := Z.land (frag h) 8191 * 8.

(** [ntoh] of the header behind [iph]: the header read from its 20 wire bytes. *)
Definition ntoh (bs : list byte) : t :=
  let b := fun i => nth i bs x00 in
  mk (Z.land (bval (b 0%nat)) 15)
     (Z.shiftr (bval (b 0%nat)) 4)
     (Z.shiftr (bval (b 1%nat)) 2)
     (Z.land (bval (b 1%nat)) 3)
     (be16 (b 2%nat) (b 3%nat))
     (be16 (b 4%nat) (b 5%nat))
     (be16 (b 6%nat) (b 7%nat))
     (bval (b 8%nat))
     (bval (b 9%nat))
     (be16 (b 10%nat) (b 11%nat))
     (be32 (b 12%nat) (b 13%nat) (b 14%nat) (b 15%nat))
     (be32 (b 16%nat) (b 17%nat) (b 18%nat) (b 19%nat)).

(** [hton] of the header, laid out in memory. *)
Definition hton (h : t) : list byte :=
  [byte_of (Z.lor (Z.shiftl (ver h) 4) (Z.land (ihl h) 15));
   byte_of (Z.lor (Z.shiftl (dscp h) 2) (Z.land (ecn h) 3))]
  ++ put_be16 (len h) ++ put_be16 (id h) ++ put_be16 (frag h)
  ++ [byte_of (ttl h); byte_of (ip_proto h)]
  ++ put_be16 (csum h) ++ put_be32 (src_ip h) ++ put_be32 (dst_ip h).

Definition set_csum (c : Z) (h : t) : t :=
  mk (ihl h) (ver h) (dscp h) (ecn h) (len h) (id h) (frag h) (ttl h)
     (ip_proto h) c (src_ip h) (dst_ip h).

End ip_hdr.

Definition ipv4_hdr_len_min : Z := 20.
Definition ip_packet_len_max : Z := 65535.
Definition eth_hdr_size : Z := 14.

(** ** The Internet checksum *)

(** Modelled from the spec: [net::checksummer] lives in ip_checksum.hh,
    which is not among the sources; the specification calls it the
    one's-complement sum.  [csum_words] adds the 16-bit big-endian
    words, [csum_reduce] folds the carries back (enough for sums below
    [2^32]), and [checksum] is [csum.get()], the complement; it is [0]
    on a header whose checksum field is right. *)
Fixpoint csum_words (bs : list byte) : Z :=
  match bs with
  | b1 :: b0 :: r => be16 b1 b0 + csum_words r
  | [b1] => bval b1 * 256
  | [] => 0
  end.

Definition csum_reduce (x : Z) : Z :=
  let y := x mod 65536 + x / 65536 in
  y mod 65536 + y / 65536.

Definition checksum (bs : list byte) : Z :=
  65535 - csum_reduce (csum_words bs).

(** ** The Toeplitz hash of toeplitz.hh *)

Definition rsskey : list byte :=
  [xd1; x81; xc6; x2c; xf7; xf4; xdb; x5b;
   x19; x83; xa2; xfc; x94; x3e; x1a; xdb;
   xd9; x38; x9e; x6b; xd1; x03; x9c; x2c;
   xa7; x44; x99; xad; x59; x3d; x56; xd9;
   xf3; x25; x3c; x06; x2a; xdc; x1f; xfc].

(** One turn of the inner loop, for bit [b] of data byte [i]. *)
Definition toeplitz_bit (key : list byte) (i : nat) (d : byte)
    (st : Z * Z) (b : Z) : Z * Z :=
  let '(hash, v) := st in
  let hash := if Z.testbit (bval d) (7 - b) then Z.lxor hash v else hash in
  let v := u32 (Z.shiftl v 1) in
  let v :=
    if (i + 4 <? length key)%nat
       && Z.testbit (bval (nth (i + 4) key x00)) (7 - b)
    then Z.lor v 1 else v in
  (hash, v).

Fixpoint toeplitz_loop (key : list byte) (i : nat) (data : list byte)
    (st : Z * Z) : Z * Z :=
  match data with
  | [] => st
  | d :: data' =>
      toeplitz_loop key (S i) data'
        (fold_left (toeplitz_bit key i d) [0; 1; 2; 3; 4; 5; 6; 7] st)
  end.

Definition toeplitz_hash (key data : list byte) : Z :=
  let v := u32 (Z.shiftl (bval (nth 0 key x00)) 24
                + Z.shiftl (bval (nth 1 key x00)) 16
                + Z.shiftl (bval (nth 2 key x00)) 8
                + bval (nth 3 key x00)) in
  fst (toeplitz_loop key 0 data (0, v)).

(** ** The IPv4 engine of ip.cc *)

Abbreviation ipv4_frag_id := (Z * Z * Z * Z)%type (only parsing).
Abbreviation ethernet_address := (list byte) (only parsing).

(** The interface [ip_protocol] of an L4 handler: [forward] is a pure
    function to a core; [received] is the delivery, which the model
    records in the outcome of the call. *)
Record ip_protocol : Type := mk_ip_protocol {
  forward : packet -> Z -> Z -> Z -> Z
}.

Module ipv4.

(** Modelled from the spec: the three constants are initialised in
    ip.hh; section 6 gives their values. *)
Definition _frag_timeout : Z := 30.
Definition _frag_low_thresh : Z := 3 * 1024 * 1024.
Definition _frag_high_thresh : Z := 4 * 1024 * 1024.

(** [struct ipv4::frag]. *)
Record frag : Type := mk_frag {
  header : packet;
  data : list (Z * packet);
  rx_time : Z;
  mem_size : Z;
  last_frag_received : bool
}.

Definition new_frag : frag := mk_frag empty_packet [] 0 0 false.

Record t : Type := mk {
  _hw_address : ethernet_address;
  _hw_features : hw_features;
  _host_address : Z;
  _gw_address : Z;
  _netmask : Z;
  _l4 : gmap Z ip_protocol;
  _packet_filter : option (packet -> ip_hdr.t -> ethernet_address -> bool);
  _arp : list (ethernet_address * Z);
  _frags : gmap ipv4_frag_id frag;
  _frags_age : list ipv4_frag_id;
  _frag_mem : Z;
  _frag_timer : option Z
}.

Definition set_reassembly (fs : gmap ipv4_frag_id frag)
    (age : list ipv4_frag_id) (mem : Z) (timer : option Z) (s : t) : t :=
  mk (_hw_address s) (_hw_features s) (_host_address s) (_gw_address s)
     (_netmask s) (_l4 s) (_packet_filter s) (_arp s) fs age mem timer.

Definition arp_learn (from : ethernet_address) (ip : Z) (s : t) : t :=
  mk (_hw_address s) (_hw_features s) (_host_address s) (_gw_address s)
     (_netmask s) (_l4 s) (_packet_filter s) ((from, ip) :: _arp s)
     (_frags s) (_frags_age s) (_frag_mem s) (_frag_timer s).

(** [ipv4::register_l4]. *)
Definition register_l4 (id : Z) (protocol : ip_protocol) (s : t) : t :=
  mk (_hw_address s) (_hw_features s) (_host_address s) (_gw_address s)
     (_netmask s) (<[id := protocol]> (_l4 s)) (_packet_filter s) (_arp s)
     (_frags s) (_frags_age s) (_frag_mem s) (_frag_timer s).

Definition in_my_netmask (s : t) (a : Z) : bool :=
  Z.land (Z.lxor a (_host_address s)) (_netmask s) =? 0.

Definition needs_frag (p : packet) (prot_num : Z) (hw : hw_features) : bool :=
  if plen p + ipv4_hdr_len_min <=? mtu hw then false
  else if ((prot_num =? ip_protocol_num_tcp) && tx_tso hw)
          || ((prot_num =? ip_protocol_num_udp) && tx_ufo hw) then false
  else true.

(** [_frags[frag_id]]: [operator[]] of the unordered map creates a
    default entry when the key is absent. *)
Definition frags_at (fs : gmap ipv4_frag_id frag) (frag_id : ipv4_frag_id)
  : gmap ipv4_frag_id frag * frag :=
  match fs !! frag_id with
  | Some fr => (fs, fr)
  | None => (<[frag_id := new_frag]> fs, new_frag)
  end.

(** [ipv4::frag_drop] on the table and the running total. *)
Definition frag_drop (frag_id : ipv4_frag_id) (dropped_size : Z)
    (fs : gmap ipv4_frag_id frag) (mem : Z) : gmap ipv4_frag_id frag * Z :=
  (delete frag_id fs, u32 (mem - dropped_size)).

(** The [while (drop)] loop of [frag_limit_mem]. *)
Fixpoint frag_limit_loop (drop : Z) (fs : gmap ipv4_frag_id frag)
    (age : list ipv4_frag_id) (mem : Z)
  : gmap ipv4_frag_id frag * list ipv4_frag_id * Z :=
  if drop =? 0 then (fs, age, mem)
  else
    match age with
    | [] => (fs, age, mem)
    | frag_id :: age' =>
        let '(fs1, fr) := frags_at fs frag_id in
        let dropped_size := mem_size fr in
        let '(fs2, mem2) := frag_drop frag_id dropped_size fs1 mem in
        frag_limit_loop (u32 (drop - Z.min drop dropped_size)) fs2 age' mem2
    end.

Definition frag_limit_mem (s : t) : t :=
  if _frag_mem s <=? _frag_high_thresh then s
  else
    let drop := u32 (_frag_mem s - _frag_low_thresh) in
    let '(fs, age, mem) :=
      frag_limit_loop drop (_frags s) (_frags_age s) (_frag_mem s) in
    set_reassembly fs age mem (_frag_timer s) s.

(** The [for] loop of [frag_timeout] over the age list. *)
Fixpoint frag_timeout_loop (now : Z) (fs : gmap ipv4_frag_id frag)
    (age : list ipv4_frag_id) (mem : Z)
  : gmap ipv4_frag_id frag * list ipv4_frag_id * Z :=
  match age with
  | [] => (fs, [], mem)
  | frag_id :: age' =>
      let '(fs1, fr) := frags_at fs frag_id in
      if rx_time fr + _frag_timeout <? now then
        let '(fs2, mem2) := frag_drop frag_id (mem_size fr) fs1 mem in
        frag_timeout_loop now fs2 age' mem2
      else (fs1, frag_id :: age', mem)
  end.

Definition frag_timeout (now : Z) (s : t) : t :=
  if decide (_frags s = ∅) then s
  else
    let '(fs, age, mem) :=
      frag_timeout_loop now (_frags s) (_frags_age s) (_frag_mem s) in
    if negb (Z.of_nat (size fs) =? 0)
    then set_reassembly fs age mem (Some (now + _frag_timeout)) s
    else set_reassembly fs age 0 (_frag_timer s) s.

(** [ipv4::frag::is_complete].  On an empty map [begin()] is [end()];
    its key is then never looked at by a true conjunction, because
    [nr_packet == 1] already fails. *)
Definition is_complete (fr : frag) : bool :=
  match data fr with
  | [] => false
  | (offset, _) :: _ =>
      last_frag_received fr
      && (Z.of_nat (length (data fr)) =? 1) && (offset =? 0)
  end.

Definition eth_hdr_hton (src_mac dst_mac : ethernet_address) (eth_proto : Z)
  : list byte :=
  take 6 (dst_mac ++ replicate 6 x00) ++ take 6 (src_mac ++ replicate 6 x00)
  ++ put_be16 eth_proto.

(** The two stores through [iph] in [get_assembled_packet]: the total
    length at bytes 2-3 and the zeroed flags/offset word at bytes 6-7
    of the IP header, which starts behind the Ethernet header. *)
Definition patch_len_frag (len : Z) (i : nat) (b : byte) : byte :=
  if (i =? 16)%nat then byte_of (Z.shiftr len 8)
  else if (i =? 17)%nat then byte_of len
  else if (i =? 20)%nat then x00
  else if (i =? 21)%nat then x00
  else b.

(** [ipv4::frag::get_assembled_packet]; [None] when [get_header] gives
    a null [iph], which the source then writes through. *)
Definition get_assembled_packet (fr : frag) (from to : ethernet_address)
  : option packet :=
  let ip_header := header fr in
  let ip_data := match data fr with
                 | (_, q) :: _ => q
                 | [] => empty_packet
                 end in
  let pkt := append (prepend_header (eth_hdr_hton from to 2048) ip_header)
                    ip_data in
  match get_header eth_hdr_size ip_hdr.size pkt with
  | None => None
  | Some _ =>
      let len := u16 (plen pkt - eth_hdr_size) in
      Some (mk_packet (frags_mapi (patch_len_frag len) 0 (frags pkt))
              (mk_offload_info false 0 20 false 0 true))
  end.

(** How a call of [handle_received_packet] ended: every outcome but
    [rx_null_deref] returns a ready future (for [rx_filtered], the
    future of the filter). *)
Inductive rx_outcome : Type :=
  | rx_drop
  | rx_filtered
  | rx_stored
  | rx_received (proto : Z) (p : packet) (src dst : Z)
  | rx_forwarded (cpu : Z) (p : packet)
  | rx_null_deref.

Section engine.

(** [packet::memory()] (packet.hh) and [packet_merger::merge], the
    [merge] of the member [data], are not among the sources: the engine
    is parametric in them.  So it is in [ipv4_frag_id::hash] (ip.hh)
    and in [smp::count]. *)
Variable memory : packet -> Z.
Variable data_merge : list (Z * packet) -> Z -> packet -> list (Z * packet).
Variable frag_id_hash : ipv4_frag_id -> Z.
Variable smp_count : Z.

(** The [mem_size] recomputed at the end of [frag::merge], a 32-bit
    accumulator. *)
Definition recompute_mem_size (hdr : packet) (d : list (Z * packet)) : Z :=
  fold_left (fun acc x => u32 (acc + memory (snd x))) d (u32 (memory hdr)).

(** [ipv4::frag::merge]: the updated entry and the returned [int32_t]. *)
Definition frag_merge (fr : frag) (h : ip_hdr.t) (offset : Z) (p : packet)
  : frag * Z :=
  let old := mem_size fr in
  let ip_hdr_len := ip_hdr.ihl h * 4 in
  let hdr := if offset =? 0 then share 0 ip_hdr_len p else header fr in
  let p := trim_front ip_hdr_len p in
  let d := data_merge (data fr) offset p in
  let ms := recompute_mem_size hdr d in
  let added_size := u32 (ms - old) in
  (mk_frag hdr d (rx_time fr) ms (last_frag_received fr), to_int32 added_size).

(** What the reassembly branch does to one entry before it merges: the
    last-fragment flag, and the arrival time of a new entry. *)
Definition frag_touch (now : Z) (h : ip_hdr.t) (fr : frag) : frag :=
  let fr := if ip_hdr.mf h then fr
            else mk_frag (header fr) (data fr) (rx_time fr) (mem_size fr) true in
  if mem_size fr =? 0
  then mk_frag (header fr) (data fr) now (mem_size fr) (last_frag_received fr)
  else fr.

(** Lines 132-143 of ip.cc: look the entry up or create it, note its
    age, merge the fragment and charge [_frag_mem]. *)
Definition frag_insert (now : Z) (h : ip_hdr.t) (offset : Z) (p : packet)
    (s : t) : t * ipv4_frag_id * frag :=
  let frag_id := (ip_hdr.src_ip h, ip_hdr.dst_ip h, ip_hdr.id h,
                  ip_hdr.ip_proto h) in
  let '(fs, fr0) := frags_at (_frags s) frag_id in
  let age := if mem_size fr0 =? 0 then _frags_age s ++ [frag_id]
             else _frags_age s in
  let '(fr, added_size) := frag_merge (frag_touch now h fr0) h offset p in
  (set_reassembly (<[frag_id := fr]> fs) age (u32 (_frag_mem s + added_size))
                  (_frag_timer s) s,
   frag_id, fr).

(** Lines 165-167: the completed entry leaves the table and the age
    list. *)
Definition frag_remove (frag_id : ipv4_frag_id) (dropped_size : Z) (s : t)
  : t :=
  let '(fs, mem) := frag_drop frag_id dropped_size (_frags s) (_frag_mem s) in
  set_reassembly fs (filter (fun k => k <> frag_id) (_frags_age s)) mem
                 (_frag_timer s) s.

(** Lines 144-164: the delivery of a completed datagram. *)
Definition deliver_assembled (cpu : Z) (s : t) (h : ip_hdr.t) (fr : frag)
    (from : ethernet_address) : rx_outcome :=
  let ip_data := match data fr with
                 | (_, q) :: _ => q
                 | [] => empty_packet
                 end in
  let l4 := _l4 s !! ip_hdr.ip_proto h in
  let cpu_id := match l4 with
                | Some l => forward l ip_data 0 (ip_hdr.src_ip h)
                                    (ip_hdr.dst_ip h)
                | None => cpu
                end in
  if cpu_id =? cpu then
    match l4 with
    | Some _ => rx_received (ip_hdr.ip_proto h) ip_data (ip_hdr.src_ip h)
                            (ip_hdr.dst_ip h)
    | None => rx_null_deref
    end
  else
    match get_assembled_packet fr from (_hw_address s) with
    | Some pkt => rx_forwarded cpu_id pkt
    | None => rx_null_deref
    end.

(** The reassembly branch, lines 131-174. *)
Definition reassemble (now cpu : Z) (s : t) (h : ip_hdr.t) (offset : Z)
    (p : packet) (from : ethernet_address) : rx_outcome * t :=
  let '(s1, frag_id, fr) := frag_insert now h offset p (frag_limit_mem s) in
  if is_complete fr then
    (deliver_assembled cpu s1 h fr from, frag_remove frag_id (mem_size fr) s1)
  else
    (rx_stored,
     match _frag_timer s1 with
     | Some _ => s1
     | None => set_reassembly (_frags s1) (_frags_age s1) (_frag_mem s1)
                              (Some (now + _frag_timeout)) s1
     end).

(** [ipv4::handle_received_packet]. *)
Definition handle_received_packet (now cpu : Z) (s : t) (p : packet)
    (from : ethernet_address) : rx_outcome * t :=
  match get_header 0 ip_hdr.size p with
  | None => (rx_drop, s)
  | Some iph =>
      if negb (rx_csum_offload (_hw_features s))
         && negb (reassembled (oi p))
         && negb (checksum iph =? 0)
      then (rx_drop, s)
      else
        let h := ip_hdr.ntoh iph in
        let ip_len := ip_hdr.len h in
        let ip_hdr_len := ip_hdr.ihl h * 4 in
        let pkt_len := plen p in
        let offset := ip_hdr.offset h in
        if pkt_len <? ip_len then (rx_drop, s)
        else
          let p := if ip_len <? pkt_len then trim_back (pkt_len - ip_len) p
                   else p in
          if ip_packet_len_max <? offset + plen p then (rx_drop, s)
          else
            let s := if in_my_netmask s (ip_hdr.src_ip h)
                        && negb (ip_hdr.src_ip h =? _host_address s)
                     then arp_learn from (ip_hdr.src_ip h) s else s in
            let handled := match _packet_filter s with
                           | Some filter => filter p h from
                           | None => false
                           end in
            if handled then (rx_filtered, s)
            else if negb (ip_hdr.dst_ip h =? _host_address s) then (rx_drop, s)
            else if ip_hdr.mf h || negb (offset =? 0)
            then reassemble now cpu s h offset p from
            else
              match _l4 s !! ip_hdr.ip_proto h with
              | Some _ =>
                  (rx_received (ip_hdr.ip_proto h) (trim_front ip_hdr_len p)
                               (ip_hdr.src_ip h) (ip_hdr.dst_ip h), s)
              | None => (rx_drop, s)
              end
  end.

(** [ipv4::handle_on_cpu]; [None] when [get_header] gives the null
    pointer that the source dereferences. *)
Definition handle_on_cpu (cpu : Z) (s : t) (p : packet) (off : Z) : option Z :=
  match get_header off ip_hdr.size p with
  | None => None
  | Some bs =>
      let iph := ip_hdr.ntoh bs in
      match _l4 s !! ip_hdr.ip_proto iph with
      | None => Some cpu
      | Some l4 =>
          if negb (ip_hdr.mf iph) && (ip_hdr.offset iph =? 0)
          then Some (forward l4 p (off + ip_hdr.size) (ip_hdr.src_ip iph)
                             (ip_hdr.dst_ip iph))
          else
            let frag_id := (ip_hdr.src_ip iph, ip_hdr.dst_ip iph,
                            ip_hdr.id iph, ip_hdr.ip_proto iph) in
            Some (frag_id_hash frag_id mod smp_count)
      end
  end.

End engine.

(** *** Transmit: [ipv4::send] *)

(** A frame handed to [_arp.lookup(dst)] and then to [send_raw]. *)
Record tx_frame : Type := mk_tx_frame {
  arp_dst : Z;
  tx_pkt : packet
}.

Definition set_needs_ip_csum (p : packet) : packet :=
  let o := oi p in
  mk_packet (frags p)
    (mk_offload_info true (protocol o) (ip_hdr_len o) (hw_vlan o) (vlan_tci o)
                     (reassembled o)).

(** The lambda [send_pkt] of [send]. *)
Definition send_pkt (s : t) (to dst proto_num : Z) (needs_frag : bool)
    (pkt : packet) (remaining offset : Z) : tx_frame :=
  let len := u16 (plen pkt + ip_hdr.size) in
  let frag :=
    if needs_frag then
      let mf := if 0 <? remaining then 1 else 0 in
      let off := offset / 8 in
      u16 (Z.lor (Z.shiftl mf ip_hdr.mf_shift) off)
    else 0 in
  let h := ip_hdr.mk (ip_hdr.size / 4) 4 0 0 len 0 frag 64 (u8 proto_num) 0
                     (_host_address s) to in
  if tx_csum_ip_offload (_hw_features s)
  then mk_tx_frame dst (set_needs_ip_csum (prepend_header (ip_hdr.hton h) pkt))
  else
    let c := checksum (ip_hdr.hton h) in
    mk_tx_frame dst (prepend_header (ip_hdr.hton (ip_hdr.set_csum c h)) pkt).

(** [do_until(stop, send_frag)]: [stop] is asked first, then
    [send_frag] runs; [None] when the loop budget of the model is used
    up before [stop] holds. *)
Fixpoint send_frags (fuel : nat) (s : t) (to dst proto_num : Z) (p : packet)
    (remaining offset : Z) : option (list tx_frame) :=
  if remaining =? 0 then Some []
  else
    match fuel with
    | O => None
    | S fuel' =>
        let mtu := mtu (_hw_features s) in
        let can_send := Z.min (u16 (mtu - ipv4_hdr_len_min)) remaining in
        let remaining := u16 (remaining - can_send) in
        let pkt := share offset can_send p in
        let ret := send_pkt s to dst proto_num true pkt remaining offset in
        let offset := u16 (offset + can_send) in
        match send_frags fuel' s to dst proto_num p remaining offset with
        | Some l => Some (ret :: l)
        | None => None
        end
    end.

Definition send (fuel : nat) (s : t) (to proto_num : Z) (p : packet)
  : option (list tx_frame) :=
  let remaining := u16 (plen p) in
  let offset := 0 in
  let needs_frag := needs_frag p proto_num (_hw_features s) in
  let dst := if in_my_netmask s to then to else _gw_address s in
  if needs_frag then send_frags fuel s to dst proto_num p remaining offset
  else Some [send_pkt s to dst proto_num needs_frag p 0 offset].

(** The flags/offset word of a frame as it stands on the wire. *)
Definition wire_hdr (f : tx_frame) : ip_hdr.t :=
  ip_hdr.ntoh (take 20 (pbytes (tx_pkt f))).

Definition wire_mf (f : tx_frame) : bool := ip_hdr.mf (wire_hdr f).

Definition wire_offset_field (f : tx_frame) : Z :=
  Z.land (ip_hdr.frag (wire_hdr f)) 8191.

End ipv4.

(** ** The packet merger and the L4 flow hash *)

(** Modelled from the spec: [packet_merger::merge], the [merge] of the
    member [data] of a reassembly entry, is not among the sources.
    Section 4.D asks for this: the payload is inserted at its offset
    into the ordered map, and a range that overlaps or continues an
    existing range is coalesced with it, so that once all gaps are
    filled a single range is left at offset 0.  [coalesce] joins two
    such ranges, keeping the bytes of the one that starts first. *)
Definition coalesce (a : Z) (pa : packet) (b : Z) (pb : packet) : Z * packet :=
  if a <=? b then
    (a, if b + plen pb <=? a + plen pa then pa
        else append pa (trim_front (a + plen pa - b) pb))
  else
    (b, if a + plen pa <=? b + plen pb then pb
        else append pb (trim_front (b + plen pb - a) pa)).

Fixpoint merger_merge (m : list (Z * packet)) (offset : Z) (p : packet)
  : list (Z * packet) :=
  match m with
  | [] => [(offset, p)]
  | (o1, q) :: rest =>
      if offset + plen p <? o1 then (offset, p) :: (o1, q) :: rest
      else if o1 + plen q <? offset then (o1, q) :: merger_merge rest offset p
      else
        let '(o', p') := coalesce offset p o1 q in
        merger_merge rest o' p'
  end.

(** Modelled from the spec: the [forward] of the TCP and UDP handlers
    (tcp.hh, udp.hh) is not among the sources.  Section 4.C has the
    handler hash source address, destination address and the two L4
    ports with [toeplitz_hash] under [rsskey]; the hash picks a core,
    here by reduction modulo the core count. *)
Definition l4_forward (smp_count : Z) : ip_protocol :=
  mk_ip_protocol (fun p off from to =>
    let ports := take 4 (drop (Z.to_nat off) (pbytes p)) in
    toeplitz_hash rsskey (put_be32 from ++ put_be32 to ++ ports)
      mod smp_count).

(** ** Auxiliary notions and test vectors of the transmit path *)

Module dpdk_vectors.

Import dpdk.

Definition hw_plain : hw_features :=
  mk_hw_features false false false false false 1500.

Definition dev_one_buf : net_device := mk_net_device [0%nat] [] hw_plain.

Definition dev_ten_bufs : net_device :=
  mk_net_device [0; 1; 2; 3; 4; 5; 6; 7; 8; 9]%nat [] hw_plain.

Definition pkt_three_frags : packet :=
  mk_packet [[x01; x02]; [x03]; [x04; x05; x06]] no_offload.

(** 33 fragments: sixteen of one byte, one of no byte, sixteen of one
    byte. *)
Definition pkt_33_frags : packet :=
  mk_packet (replicate 16 [x01] ++ [[]] ++ replicate 16 [x02]) no_offload.

End dpdk_vectors.

(** ** The reassembly table: accounting and data-model invariants *)

Module reasm.

Import ipv4.

(** The sum of [mem_size] over the entries of the table. *)
Definition table_mem (fs : gmap ipv4_frag_id frag) : Z :=
  map_fold (fun _ fr acc => mem_size fr + acc) 0 fs.

Definition entry_size (fs : gmap ipv4_frag_id frag) (k : ipv4_frag_id) : Z :=
  match fs !! k with
  | Some fr => mem_size fr
  | None => 0
  end.

Definition entry_time (fs : gmap ipv4_frag_id frag) (k : ipv4_frag_id) : Z :=
  match fs !! k with
  | Some fr => rx_time fr
  | None => 0
  end.

(** The bytes released by dropping the entries under the keys [ks]. *)
Definition released (fs : gmap ipv4_frag_id frag) (ks : list ipv4_frag_id) : Z :=
  foldr (fun k acc => entry_size fs k + acc) 0 ks.

(** The table without the entries under the keys [ks]. *)
Definition without (fs : gmap ipv4_frag_id frag) (ks : list ipv4_frag_id)
  : gmap ipv4_frag_id frag :=
  foldr delete fs ks.

Definition expired (now : Z) (fr : frag) : Prop :=
  rx_time fr + _frag_timeout < now.

(** The accounting invariant on the 32-bit counter [_frag_mem]. *)
Record accounted (s : t) : Prop := mk_accounted {
  acc_sizes : map_Forall (fun _ fr => 0 <= mem_size fr) (_frags s);
  acc_mem : _frag_mem s = u32 (table_mem (_frags s))
}.

(** The invariants of the data model (section 3 of the specification):
    every entry of the table has its node in the age list and every
    node its entry, each once; [_frag_mem] is the sum of the sizes,
    which fits the counter; the age list runs from the oldest entry to
    the youngest. *)
Definition table_wf (s : t) : Prop :=
  NoDup (_frags_age s)
  /\ dom (_frags s) = list_to_set (_frags_age s)
  /\ map_Forall (fun _ fr => 0 <= mem_size fr) (_frags s)
  /\ _frag_mem s = table_mem (_frags s)
  /\ table_mem (_frags s) < 4294967296
  /\ StronglySorted Z.le (map (entry_time (_frags s)) (_frags_age s)).

Global Instance table_wf_dec (s : t) : Decision (table_wf s).
Proof. unfold table_wf. apply _. Defined.

Section steps.

Variable memory : packet -> Z.
Variable data_merge : list (Z * packet) -> Z -> packet -> list (Z * packet).

(** The operations on the table: an eviction pass, the insertion of a
    fragment, the removal of a completed entry, a timeout pass, and a
    whole call of [handle_received_packet]. *)
Inductive table_step : t -> t -> Prop :=
  | step_limit s :
      table_step s (frag_limit_mem s)
  | step_insert now h offset p s :
      table_step s (frag_insert memory data_merge now h offset p s).1.1
  | step_complete frag_id fr s :
      _frags s !! frag_id = Some fr ->
      table_step s (frag_remove frag_id (mem_size fr) s)
  | step_timeout now s :
      table_step s (frag_timeout now s)
  | step_receive now cpu p from s :
      table_step s (handle_received_packet memory data_merge now cpu s p from).2.

(** The states of an engine that started with an empty table. *)
Inductive reachable : t -> Prop :=
  | reach_init s :
      _frags s = ∅ -> _frag_mem s = 0 -> reachable s
  | reach_step s s' :
      reachable s -> table_step s s' -> reachable s'.

End steps.

End reasm.

(** ** Test vectors of the IPv4 engine *)

Module vectors.

Import ipv4.

(** Host 10.0.0.1/24 behind gateway 10.0.0.254, four cores, TCP and
    ICMP registered as in the constructor of [ipv4]. *)
Definition host_ip : Z := 167772161.
Definition peer_ip : Z := 167772165.
Definition host_mac : list byte := [x02; x00; x00; x00; x00; x01].
Definition peer_mac : list byte := [x02; x00; x00; x00; x00; x05].
Definition cores : Z := 4.

Definition l4_table : gmap Z ip_protocol :=
  <[ip_protocol_num_tcp := l4_forward cores]>
    (<[ip_protocol_num_icmp := l4_forward cores]> ∅).

Definition hw_sw_csum : hw_features :=
  mk_hw_features false false false false false 1500.

Definition hw_rx_offload : hw_features :=
  mk_hw_features true false false false false 1500.

Definition host (hw : hw_features) : t :=
  mk host_mac hw host_ip 167772414 4294967040 l4_table None [] ∅ [] 0 None.

(** A memory footprint for the vectors: the bytes plus a fixed
    overhead per packet. *)
Definition vmemory (p : packet) : Z := plen p + 64.

Definition vhash (k : Z * Z * Z * Z) : Z :=
  let '(src, dst, id, proto) := k in
  Z.lxor (Z.lxor src dst) (Z.lxor id proto).

(** A table of [n] incomplete flows of 61440 bytes each, flow [i]
    having arrived at time [i]. *)
Definition vkey (i : nat) : Z * Z * Z * Z :=
  (peer_ip, host_ip, Z.of_nat i, ip_protocol_num_udp).

Definition ventry (i : nat) : frag :=
  mk_frag empty_packet [] (Z.of_nat i) 61440 false.

Definition vtable (n : nat) : gmap (Z * Z * Z * Z) frag :=
  foldr (fun i m => <[vkey i := ventry i]> m) ∅ (seq 0 n).

Definition vstate (n : nat) : t :=
  set_reassembly (vtable n) (map vkey (seq 0 n)) (61440 * Z.of_nat n) None
                 (host hw_rx_offload).

(** IP packets in one fragment: header, options, payload. *)
Definition with_csum (h : ip_hdr.t) : ip_hdr.t :=
  ip_hdr.set_csum (checksum (ip_hdr.hton h)) h.

Definition ip_packet (h : ip_hdr.t) (options payload : list byte) : packet :=
  mk_packet [ip_hdr.hton h ++ options ++ payload] no_offload.

(** A UDP datagram of 16 bytes from the peer, identification 0x1234,
    in two fragments: bytes 0-7 with MF set, bytes 8-15 at offset 8
    (offset field 1) with MF clear. *)
Definition udp_frag_a : packet :=
  ip_packet (with_csum (ip_hdr.mk 5 4 0 0 28 4660 8192 64 ip_protocol_num_udp 0
                                  peer_ip host_ip))
            [] [x00; x35; x00; x35; x00; x18; x00; x00].

Definition udp_frag_b : packet :=
  ip_packet (with_csum (ip_hdr.mk 5 4 0 0 28 4660 1 64 ip_protocol_num_udp 0
                                  peer_ip host_ip))
            [] [x61; x62; x63; x64; x65; x66; x67; x68].

(** A fragment with the header that the engine reads from it. *)
Definition with_header (p : packet) : ip_hdr.t * packet :=
  (ip_hdr.ntoh (take 20 (pbytes p)), p).

(** An ICMP datagram whose header carries four option bytes
    ([ihl = 6]); its checksum field is right for the first 20 bytes
    only. *)
Definition icmp_with_options : packet :=
  ip_packet (with_csum (ip_hdr.mk 6 4 0 0 28 7 0 64 ip_protocol_num_icmp 0
                                  peer_ip host_ip))
            [x01; x01; x01; x01] [x08; x00; xf7; xff].

(** The same datagram with the checksum field right for its whole
    header, the 20 fixed bytes and the four option bytes (RFC 791). *)
Definition icmp_options_valid : packet :=
  let h := ip_hdr.mk 6 4 0 0 28 7 0 64 ip_protocol_num_icmp 0 peer_ip host_ip in
  let options := [x01; x01; x01; x01] in
  ip_packet (ip_hdr.set_csum (checksum (ip_hdr.hton h ++ options)) h)
            options [x08; x00; xf7; xff].

(** Bodies for the transmit path and hosts with a tiny MTU. *)
Definition udp_3000 : packet := mk_packet [replicate 3000 x55] no_offload.
Definition udp_65536 : packet :=
  mk_packet [replicate (Z.to_nat 65536) x55] no_offload.
Definition udp_8 : packet :=
  mk_packet [[x01; x02; x03; x04; x05; x06; x07; x08]] no_offload.

(** A body whose byte [i] is [i mod 256], and a host with an MTU of
    1400, so that a frame carries 1380 bytes, no multiple of 8. *)
Definition udp_counting_3000 : packet :=
  mk_packet [map (fun i => byte_of (Z.of_nat i)) (seq 0 3000)] no_offload.

Definition host_mtu_1400 : t :=
  host (mk_hw_features false false false false false 1400).

Definition host_mtu_24 : t :=
  host (mk_hw_features false false false false false 24).

Definition host_mtu_20 : t :=
  host (mk_hw_features false false false false false 20).

(** Two TCP flows between the same hosts (source ports 1234 and 1235,
    destination port 80), each as an intact segment and as the first
    fragment (MF set, offset 0, identification 9) of a larger one. *)
Definition tcp_hdr (frag : Z) : ip_hdr.t :=
  with_csum (ip_hdr.mk 5 4 0 0 28 9 frag 64 ip_protocol_num_tcp 0
                       peer_ip host_ip).

Definition tcp_ports_1 : list byte := [x04; xd2; x00; x50].
Definition tcp_ports_2 : list byte := [x04; xd3; x00; x50].

Definition tcp_atomic_1 : packet :=
  ip_packet (tcp_hdr 0) [] (tcp_ports_1 ++ [x00; x00; x00; x01]).
Definition tcp_atomic_2 : packet :=
  ip_packet (tcp_hdr 0) [] (tcp_ports_2 ++ [x00; x00; x00; x01]).
(** The intact segment of the first flow with four option bytes in
    its IP header ([ihl = 6]). *)
Definition tcp_atomic_1_options : packet :=
  let h := ip_hdr.mk 6 4 0 0 32 9 0 64 ip_protocol_num_tcp 0 peer_ip host_ip in
  let options := [x01; x01; x01; x00] in
  ip_packet (ip_hdr.set_csum (checksum (ip_hdr.hton h ++ options)) h)
            options (tcp_ports_1 ++ [x00; x00; x00; x01]).
(** The intact segment of the first flow with the 18 bytes by which
    Ethernet pads a frame of 46 bytes behind it. *)
Definition tcp_atomic_1_padded : packet :=
  ip_packet (tcp_hdr 0) []
            (tcp_ports_1 ++ [x00; x00; x00; x01] ++ replicate 18 x00).
Definition tcp_first_frag_1 : packet :=
  ip_packet (tcp_hdr 8192) [] (tcp_ports_1 ++ [x00; x00; x00; x01]).
Definition tcp_first_frag_2 : packet :=
  ip_packet (tcp_hdr 8192) [] (tcp_ports_2 ++ [x00; x00; x00; x01]).

End vectors.

(** ** Flows *)

Module flows.

(** The header seen by [handle_on_cpu] at [off]. *)
Definition header_at (p : packet) (off : Z) : option ip_hdr.t :=
  match get_header off ip_hdr.size p with
  | Some bs => Some (ip_hdr.ntoh bs)
  | None => None
  end.

(** A datagram is atomic when MF is clear and the offset is 0. *)
Definition atomic (h : ip_hdr.t) : bool :=
  negb (ip_hdr.mf h) && (ip_hdr.offset h =? 0).

Definition frag_key (h : ip_hdr.t) : Z * Z * Z * Z :=
  (ip_hdr.src_ip h, ip_hdr.dst_ip h, ip_hdr.id h, ip_hdr.ip_proto h).

(** The two L4 ports of the datagram whose IP header starts at [off]:
    source port and destination port, the first four bytes behind the
    IP header and its options. *)
Definition l4_ports (p : packet) (off : Z) : list byte :=
  match header_at p off with
  | Some h => take 4 (drop (Z.to_nat (off + ip_hdr.ihl h * 4)) (pbytes p))
  | None => []
  end.

(** The flow of a packet that carries its L4 header: addresses,
    protocol and ports. *)
Definition flow_of (p : packet) (off : Z)
  : option (Z * Z * Z * list byte) :=
  match header_at p off with
  | Some h => Some (ip_hdr.src_ip h, ip_hdr.dst_ip h, ip_hdr.ip_proto h,
                    l4_ports p off)
  | None => None
  end.

(** A handler steers by the ports when its [forward] is a function of
    the two addresses and of the four bytes at the offset it is given
    (section 4.C: the handler hashes addresses and ports). *)
Definition steers_by_ports (l4 : ip_protocol) : Prop :=
  forall (p q : packet) (offp offq src dst : Z),
    take 4 (drop (Z.to_nat offp) (pbytes p))
    = take 4 (drop (Z.to_nat offq) (pbytes q)) ->
    forward l4 p offp src dst = forward l4 q offq src dst.

End flows.

(** ** Reassembly of one datagram *)

Module reassembly.

Import ipv4.

(** What lines 134-142 of ip.cc do to the entry of a fragment: the
    flag, the arrival time, the merge. *)
Definition receive_fragment (memory : packet -> Z)
    (data_merge : list (Z * packet) -> Z -> packet -> list (Z * packet))
    (now : Z) (fr : frag) (hp : ip_hdr.t * packet) : frag :=
  (frag_merge memory data_merge (frag_touch now hp.1 fr) hp.1
              (ip_hdr.offset hp.1) hp.2).1.

(** The IP payload of a fragment: what follows its header of [ihl]
    words, the part that [frag::merge] keeps (lines 362 and 368). *)
Definition payload (hp : ip_hdr.t * packet) : list byte :=
  drop (Z.to_nat (ip_hdr.ihl hp.1 * 4)) (pbytes hp.2).

(** [pieces] are the fragments of one datagram in offset order, from
    byte [off] on.  Each comes with the header that the engine reads
    from its first 20 bytes (line 93), a header of at least five words
    that the packet holds in full; each starts where its predecessor
    ends, and has MF set unless it is the last. *)
Fixpoint split_from (off : Z) (pieces : list (ip_hdr.t * packet)) : Prop :=
  match pieces with
  | [] => True
  | hp :: rest =>
      hp.1 = ip_hdr.ntoh (take 20 (pbytes hp.2))
      /\ 5 <= ip_hdr.ihl hp.1
      /\ ip_hdr.ihl hp.1 * 4 <= plen hp.2
      /\ ip_hdr.offset hp.1 = off
      /\ ip_hdr.mf hp.1 = (match rest with [] => false | _ => true end)
      /\ split_from (off + Z.of_nat (length (payload hp))) rest
  end.

(** A range of the merger agrees with the datagram payload [D]: it
    holds the bytes of [D] found at its offset. *)
Definition agrees (D : list byte) (r : Z * packet) : Prop :=
  0 <= r.1
  /\ r.1 + plen r.2 <= Z.of_nat (length D)
  /\ pbytes r.2 = take (length (pbytes r.2)) (drop (Z.to_nat r.1) D).

(** The ranges are in offset order with a gap between any two. *)
Fixpoint separated (m : list (Z * packet)) : Prop :=
  match m with
  | [] => True
  | r :: rest => Forall (fun r' => r.1 + plen r.2 < r'.1) rest /\ separated rest
  end.

(** Byte [z] of the datagram is held by some range. *)
Definition covered (m : list (Z * packet)) (z : Z) : Prop :=
  Exists (fun r => r.1 <= z < r.1 + plen r.2) m.

(** The range that a fragment puts into the merger, and the bytes of
    the datagram that it holds. *)
Definition range_of (hp : ip_hdr.t * packet) : Z * packet :=
  (ip_hdr.offset hp.1, trim_front (ip_hdr.ihl hp.1 * 4) hp.2).

Definition holds (hp : ip_hdr.t * packet) (z : Z) : Prop :=
  (range_of hp).1 <= z < (range_of hp).1 + plen (range_of hp).2.

(** Position [z] lies in a range or at one of its two ends. *)
Definition touched (m : list (Z * packet)) (z : Z) : Prop :=
  Exists (fun r => r.1 <= z <= r.1 + plen r.2) m.

(** The IP header of a frame, read from the 20 bytes behind its
    Ethernet header. *)
Definition frame_header (pkt : packet) : ip_hdr.t :=
  ip_hdr.ntoh (take 20 (drop (Z.to_nat eth_hdr_size) (pbytes pkt))).

(** The IP payload of a frame, cut out as its own IP header says: from
    the end of the header of [ihl] words to the total length [len] of
    the datagram. *)
Definition ip_payload (pkt : packet) : list byte :=
  let h := frame_header pkt in
  take (Z.to_nat (ip_hdr.len h - ip_hdr.ihl h * 4))
       (drop (Z.to_nat (eth_hdr_size + ip_hdr.ihl h * 4)) (pbytes pkt)).

(** The header of a reassembled datagram: the header [h] of the
    fragment at offset 0 with the total length of the whole datagram
    and with the flags/offset word cleared. *)
Definition assembled_hdr (h : ip_hdr.t) (payload_len : Z) : ip_hdr.t :=
  ip_hdr.mk (ip_hdr.ihl h) (ip_hdr.ver h) (ip_hdr.dscp h) (ip_hdr.ecn h)
            (ip_hdr.ihl h * 4 + payload_len) (ip_hdr.id h) 0 (ip_hdr.ttl h)
            (ip_hdr.ip_proto h) (ip_hdr.csum h) (ip_hdr.src_ip h)
            (ip_hdr.dst_ip h).

End reassembly.

(** ** The Toeplitz hash as a matrix product *)

(** Bit [j] of a byte string, counted from the most significant bit of
    byte 0; [false] behind the end of the string. *)
Definition bit_at (bs : list byte) (j : nat) : bool :=
  Z.testbit (bval (nth (j / 8) bs x00)) (7 - Z.of_nat (j mod 8)).

(** The number written by a list of bits, most significant first. *)
Definition bits_value (bits : list bool) : Z :=
  fold_left (fun acc (b : bool) => 2 * acc + (if b then 1 else 0)) bits 0.

(** Row [g] of the Toeplitz matrix of a key: the 32 key bits from bit
    [g] on. *)
Definition key_window (key : list byte) (g : nat) : Z :=
  bits_value (map (bit_at key) (seq g 32)).

(** The Toeplitz hash by its definition: the exclusive or of the rows
    of the matrix selected by the bits that are set in the data. *)
Definition toeplitz_mix (key data : list byte) (acc : Z) (g : nat) : Z :=
  if bit_at data g then Z.lxor acc (key_window key g) else acc.

Definition toeplitz_matrix_hash (key data : list byte) : Z :=
  fold_left (toeplitz_mix key data) (seq 0 (8 * length data)) 0.

Definition byte_xor (a b : byte) : byte := byte_of (Z.lxor (bval a) (bval b)).

(** ** The frames of [ipv4::send] as the receiver reads them *)

Module wire.

Import ipv4.

(** The header that [send_pkt] fills in, before the checksum. *)
Definition sent_hdr (s : t) (to proto_num : Z) (needs_frag : bool)
    (pkt : packet) (remaining offset : Z) : ip_hdr.t :=
  ip_hdr.mk 5 4 0 0 (u16 (plen pkt + ip_hdr.size)) 0
    (if needs_frag
     then u16 (Z.lor (Z.shiftl (if 0 <? remaining then 1 else 0)
                               ip_hdr.mf_shift) (offset / 8))
     else 0)
    64 (u8 proto_num) 0 (_host_address s) to.

(** The bytes that a frame carries behind its IP header. *)
Definition body (f : tx_frame) : list byte := drop 20 (pbytes (tx_pkt f)).

(** A frame is well addressed: it goes to the link-layer neighbour of
    the route, and its header, read from the wire, has the fixed
    fields of [send_pkt], the length of the frame, the protocol, and
    the addresses of this host and of the destination. *)
Definition addressed (s : t) (to proto_num : Z) (f : tx_frame) : Prop :=
  arp_dst f = (if in_my_netmask s to then to else _gw_address s)
  /\ ip_hdr.ihl (wire_hdr f) = 5
  /\ ip_hdr.ver (wire_hdr f) = 4
  /\ ip_hdr.len (wire_hdr f) = plen (tx_pkt f)
  /\ ip_hdr.ttl (wire_hdr f) = 64
  /\ ip_hdr.ip_proto (wire_hdr f) = u8 proto_num
  /\ ip_hdr.src_ip (wire_hdr f) = _host_address s
  /\ ip_hdr.dst_ip (wire_hdr f) = to.

(** The header checksum is in order: left to the NIC when it offers
    the offload, and otherwise such that the receiver's sum over the
    header comes out as 0. *)
Definition summed (s : t) (f : tx_frame) : Prop :=
  if tx_csum_ip_offload (_hw_features s)
  then ip_hdr.csum (wire_hdr f) = 0 /\ needs_ip_csum (oi (tx_pkt f)) = true
  else checksum (take 20 (pbytes (tx_pkt f))) = 0.

End wire.

(** ** The checks of [handle_received_packet] *)

Module checks.

Import ipv4 flows.

(** The checks of lines 79-108 and 123, on the header read from the
    packet: the header is there, its checksum is right unless the NIC
    or the reassembly has vouched for it, the packet holds the total
    length, the datagram stays within 65535 bytes, and it is for this
    host. *)
Definition accepted (s : t) (p : packet) (h : ip_hdr.t) : Prop :=
  header_at p 0 = Some h
  /\ (rx_csum_offload (_hw_features s) = false ->
      reassembled (oi p) = false ->
      checksum (take 20 (pbytes p)) = 0)
  /\ ip_hdr.len h <= plen p
  /\ ip_hdr.offset h + Z.min (ip_hdr.len h) (plen p) <= ip_packet_len_max
  /\ ip_hdr.dst_ip h = _host_address s.

End checks.

(** * Properties *)

(** ** The NIC transmit path *)

Section dpdk_send.

Import dpdk dpdk_vectors.

Local Ltac div2048 := unfold mbuf_data_size in *; Z.div_mod_to_equations; lia.

Lemma copy_one_data_buf_nil data l :
  copy_one_data_buf [] data l = (None, 0, []).
Proof. reflexivity. Qed.

Lemma copy_one_data_buf_cons id pool data l :
  0 < l ->
  exists seg, copy_one_data_buf (id :: pool) data l
              = (Some seg, Z.min l mbuf_data_size, pool)
              /\ m_id seg = id /\ 0 < Z.min l mbuf_data_size.
Proof.
  intros Hl. eexists. split; [reflexivity|]. split; [reflexivity|].
  unfold mbuf_data_size. lia.
Qed.

(** The buffers held by the chain and the pool together are the same
    before and after the loop, whichever way it ends. *)
Lemma copy_rest_conserves fuel :
  forall pool left base chain ns,
    0 <= left ->
    match copy_rest fuel pool left base chain ns with
    | copy_ok pool' chain' _ =>
        map m_id chain' ++ pool' = map m_id chain ++ pool
        /\ (length chain <= length chain')%nat
    | copy_failed pool' => pool' = map m_id chain ++ pool
    | _ => True
    end.
Proof.
  induction fuel as [|fuel IH]; intros pool left base chain ns Hleft; simpl.
  - destruct (left =? 0); done.
  - destruct (Z.eqb_spec left 0) as [->|Hne]; [done|].
    destruct pool as [|id pool].
    + rewrite copy_one_data_buf_nil. simpl. reflexivity.
    + destruct (copy_one_data_buf_cons id pool base left) as (seg & -> & Hid & Hpos);
        [lia|].
      destruct (Z.eqb_spec (Z.min left mbuf_data_size) 0) as [E|_]; [lia|].
      specialize (IH pool (left - Z.min left mbuf_data_size)
                     (drop (Z.to_nat (Z.min left mbuf_data_size)) base)
                     (chain ++ [seg]) (ns + 1)).
      assert (Hle : 0 <= left - Z.min left mbuf_data_size) by lia.
      specialize (IH Hle).
      destruct (copy_rest fuel pool _ _ _ _); try done.
      * destruct IH as [IH Hlen]. rewrite length_app in Hlen. simpl in Hlen.
        split; [|lia].
        rewrite IH, map_app. simpl. rewrite Hid, <- app_assoc. reflexivity.
      * rewrite IH, map_app. simpl. rewrite Hid, <- app_assoc. reflexivity.
Qed.

Lemma copy_rest_fuel fuel :
  forall pool left base chain ns,
    0 <= left <= Z.of_nat fuel ->
    copy_rest fuel pool left base chain ns <> copy_out_of_fuel
    /\ copy_rest fuel pool left base chain ns <> copy_rte_exit.
Proof.
  induction fuel as [|fuel IH]; intros pool left base chain ns Hleft; simpl.
  - destruct (Z.eqb_spec left 0); [done|lia].
  - destruct (Z.eqb_spec left 0) as [->|Hne]; [done|].
    destruct pool as [|id pool].
    + rewrite copy_one_data_buf_nil. simpl. done.
    + destruct (copy_one_data_buf_cons id pool base left) as (seg & -> & Hid & Hpos);
        [lia|].
      destruct (Z.eqb_spec (Z.min left mbuf_data_size) 0) as [E|_]; [lia|].
      apply IH. unfold mbuf_data_size in *. lia.
Qed.

(** With buffers enough for the rest of the fragment the loop takes
    them from the front of the pool and succeeds. *)
Lemma copy_rest_enough fuel :
  forall pool left base chain ns,
    0 <= left <= Z.of_nat fuel ->
    (Z.to_nat ((left + mbuf_data_size - 1) / mbuf_data_size) <= length pool)%nat ->
    exists chain',
      copy_rest fuel pool left base chain ns
      = copy_ok (drop (Z.to_nat ((left + mbuf_data_size - 1) / mbuf_data_size)) pool)
                chain' (ns + (left + mbuf_data_size - 1) / mbuf_data_size).
Proof.
  assert (Hz : (0 + mbuf_data_size - 1) / mbuf_data_size = 0) by reflexivity.
  induction fuel as [|fuel IH]; intros pool left base chain ns Hleft Hpool.
  - assert (left = 0) as -> by lia. rewrite Hz. simpl. exists chain.
    by rewrite Z.add_0_r.
  - simpl. destruct (Z.eqb_spec left 0) as [->|Hne].
    { rewrite Hz. exists chain. simpl. by rewrite Z.add_0_r. }
    assert (Hk : (left + mbuf_data_size - 1) / mbuf_data_size
                 = (left - Z.min left mbuf_data_size + mbuf_data_size - 1)
                     / mbuf_data_size + 1) by div2048.
    assert (Hk0 : 0 <= (left - Z.min left mbuf_data_size + mbuf_data_size - 1)
                     / mbuf_data_size) by div2048.
    rewrite Hk in Hpool |- *.
    rewrite Z2Nat.inj_add in Hpool |- * by lia.
    change (Z.to_nat 1) with 1%nat in *.
    rewrite Nat.add_1_r in Hpool |- *.
    destruct pool as [|id pool]; [simpl in Hpool; lia|].
    destruct (copy_one_data_buf_cons id pool base left) as (seg & -> & Hid & Hpos);
      [lia|].
    destruct (Z.eqb_spec (Z.min left mbuf_data_size) 0) as [E|_]; [lia|].
    simpl in Hpool.
    destruct (IH pool (left - Z.min left mbuf_data_size)
                 (drop (Z.to_nat (Z.min left mbuf_data_size)) base)
                 (chain ++ [seg]) (ns + 1)) as [chain' Hc].
    { unfold mbuf_data_size in *. lia. }
    { lia. }
    exists chain'. rewrite Hc. simpl. f_equal. lia.
Qed.

(** With fewer buffers than the rest of the fragment needs, the loop
    fails and hands back what it took. *)
Lemma copy_rest_short fuel :
  forall pool left base chain ns,
    0 <= left <= Z.of_nat fuel ->
    (length pool < Z.to_nat ((left + mbuf_data_size - 1) / mbuf_data_size))%nat ->
    copy_rest fuel pool left base chain ns
    = copy_failed (map m_id chain ++ pool).
Proof.
  intros pool left base chain ns Hleft Hpool.
  pose proof (copy_rest_conserves fuel pool left base chain ns ltac:(lia)) as Hc.
  pose proof (copy_rest_fuel fuel pool left base chain ns Hleft) as [Hf He].
  destruct (copy_rest fuel pool left base chain ns) as [pool' chain' ns'| |  |] eqn:E;
    try done; [|by subst].
  exfalso. clear Hc Hf He.
  revert pool left base chain ns Hleft Hpool E.
  assert (Hz : (0 + mbuf_data_size - 1) / mbuf_data_size = 0) by reflexivity.
  induction fuel as [|fuel IH]; intros pool left base chain ns Hleft Hpool; simpl.
  - assert (left = 0) as -> by lia. rewrite Hz in Hpool. simpl in Hpool. lia.
  - destruct (Z.eqb_spec left 0) as [->|Hne];
      [rewrite Hz in Hpool; simpl in Hpool; lia|].
    destruct pool as [|id pool]; [rewrite copy_one_data_buf_nil; simpl; done|].
    destruct (copy_one_data_buf_cons id pool base left) as (seg & -> & Hid & Hpos);
      [lia|].
    destruct (Z.eqb_spec (Z.min left mbuf_data_size) 0) as [E|_]; [lia|].
    apply IH; [unfold mbuf_data_size in *; lia|].
    assert (Hk : (left + mbuf_data_size - 1) / mbuf_data_size
                 = (left - Z.min left mbuf_data_size + mbuf_data_size - 1)
                     / mbuf_data_size + 1) by div2048.
    assert (Hk0 : 0 <= (left - Z.min left mbuf_data_size + mbuf_data_size - 1)
                     / mbuf_data_size) by div2048.
    rewrite Hk in Hpool. simpl in Hpool. lia.
Qed.

Lemma bufs_needed_pos (f : fragment) : f <> [] -> (0 < bufs_needed f)%nat.
Proof.
  intros Hf. unfold bufs_needed, fsize.
  destruct f as [|b f]; [done|]. simpl length.
  assert (1 <= (Z.of_nat (S (length f)) + mbuf_data_size - 1) / mbuf_data_size)
    by div2048.
  lia.
Qed.

Lemma bufs_needed_split (f : fragment) :
  f <> [] ->
  bufs_needed f
  = S (Z.to_nat ((fsize f - Z.min (fsize f) mbuf_data_size + mbuf_data_size - 1)
                   / mbuf_data_size)).
Proof.
  intros Hf. unfold bufs_needed.
  assert (0 < fsize f) by (unfold fsize; destruct f; [done|simpl; lia]).
  assert (Hk : (fsize f + mbuf_data_size - 1) / mbuf_data_size
               = (fsize f - Z.min (fsize f) mbuf_data_size + mbuf_data_size - 1)
                   / mbuf_data_size + 1) by div2048.
  assert (Hk0 : 0 <= (fsize f - Z.min (fsize f) mbuf_data_size + mbuf_data_size - 1)
                   / mbuf_data_size) by div2048.
  rewrite Hk. lia.
Qed.

Lemma fsize_pos (f : fragment) : f <> [] -> 0 < fsize f.
Proof. unfold fsize. destruct f; [done|simpl; lia]. Qed.

Lemma fsize_zero (f : fragment) : (fsize f =? 0) = true <-> f = [].
Proof.
  unfold fsize. destruct f; simpl; [done|]. split; intros; done.
Qed.

Lemma copy_one_frag_conserves pool f :
  match copy_one_frag pool f with
  | copy_ok pool' chain _ => map m_id chain ++ pool' = pool /\ chain <> []
  | copy_failed pool' => pool' = pool
  | copy_rte_exit => f = []
  | copy_out_of_fuel => False
  end.
Proof.
  unfold copy_one_frag.
  destruct (fsize f =? 0) eqn:E0; [by apply fsize_zero|].
  assert (Hf : f <> []) by (intros ->; done).
  pose proof (fsize_pos f Hf) as Hpos.
  destruct pool as [|id pool]; [done|].
  destruct (copy_one_data_buf_cons id pool f (fsize f) Hpos) as (seg & -> & Hid & Hlen).
  destruct (Z.eqb_spec (Z.min (fsize f) mbuf_data_size) 0) as [E|_]; [lia|].
  set (left := fsize f - Z.min (fsize f) mbuf_data_size).
  assert (Hleft : 0 <= left <= Z.of_nat (length f))
    by (unfold left, fsize, mbuf_data_size in *; lia).
  pose proof (copy_rest_conserves (length f) pool left
                (drop (Z.to_nat (Z.min (fsize f) mbuf_data_size)) f) [seg] 1
                ltac:(lia)) as Hc.
  pose proof (copy_rest_fuel (length f) pool left
                (drop (Z.to_nat (Z.min (fsize f) mbuf_data_size)) f) [seg] 1
                Hleft) as [Hfu Hex].
  destruct (copy_rest _ _ _ _ _ _) as [pool' chain' ns'| pool' | |]; try done.
  - destruct Hc as [Hc Hgrow]. simpl in Hc, Hgrow. rewrite Hid in Hc.
    split; [done|]. intros ->. simpl in Hgrow. lia.
  - simpl in Hc. by rewrite Hid in Hc.
Qed.

Lemma copy_one_frag_enough pool f :
  f <> [] -> (bufs_needed f <= length pool)%nat ->
  exists chain,
    copy_one_frag pool f
    = copy_ok (drop (bufs_needed f) pool) chain (Z.of_nat (bufs_needed f)).
Proof.
  intros Hf Hpool. unfold copy_one_frag.
  destruct (fsize f =? 0) eqn:E0; [apply fsize_zero in E0; done|].
  pose proof (fsize_pos f Hf) as Hpos.
  rewrite (bufs_needed_split f Hf) in Hpool |- *.
  destruct pool as [|id pool]; [simpl in Hpool; lia|].
  destruct (copy_one_data_buf_cons id pool f (fsize f) Hpos) as (seg & -> & Hid & Hlen).
  destruct (Z.eqb_spec (Z.min (fsize f) mbuf_data_size) 0) as [E|_]; [lia|].
  set (left := fsize f - Z.min (fsize f) mbuf_data_size) in *.
  assert (Hleft : 0 <= left <= Z.of_nat (length f))
    by (unfold left, fsize, mbuf_data_size in *; lia).
  simpl in Hpool.
  destruct (copy_rest_enough (length f) pool left
              (drop (Z.to_nat (Z.min (fsize f) mbuf_data_size)) f) [seg] 1
              Hleft ltac:(lia)) as [chain' Hc].
  exists chain'. rewrite Hc. simpl. f_equal.
  assert (0 <= (left + mbuf_data_size - 1) / mbuf_data_size) by div2048.
  lia.
Qed.

Lemma copy_one_frag_short pool f :
  f <> [] -> (length pool < bufs_needed f)%nat ->
  copy_one_frag pool f = copy_failed pool.
Proof.
  intros Hf Hpool. unfold copy_one_frag.
  destruct (fsize f =? 0) eqn:E0; [apply fsize_zero in E0; done|].
  pose proof (fsize_pos f Hf) as Hpos.
  rewrite (bufs_needed_split f Hf) in Hpool.
  destruct pool as [|id pool]; [done|].
  destruct (copy_one_data_buf_cons id pool f (fsize f) Hpos) as (seg & -> & Hid & Hlen).
  destruct (Z.eqb_spec (Z.min (fsize f) mbuf_data_size) 0) as [E|_]; [lia|].
  set (left := fsize f - Z.min (fsize f) mbuf_data_size) in *.
  assert (Hleft : 0 <= left <= Z.of_nat (length f))
    by (unfold left, fsize, mbuf_data_size in *; lia).
  simpl in Hpool.
  rewrite copy_rest_short by (done || lia).
  simpl. by rewrite Hid.
Qed.

Lemma copy_frags_conserves fs :
  forall pool chain ns,
    match copy_frags fs pool chain ns with
    | copy_ok pool' chain' _ =>
        map m_id chain' ++ pool' = map m_id chain ++ pool
        /\ (chain <> [] -> chain' <> [])
    | copy_failed pool' => pool' = map m_id chain ++ pool
    | copy_rte_exit => Exists (fun f => f = []) fs
    | copy_out_of_fuel => False
    end.
Proof.
  induction fs as [|f fs IH]; intros pool chain ns; simpl; [done|].
  pose proof (copy_one_frag_conserves pool f) as Hc.
  destruct (copy_one_frag pool f) as [pool1 h n1|pool1| |]; try done.
  - destruct Hc as [Hc Hh].
    specialize (IH pool1 (chain ++ h) (ns + n1)).
    destruct (copy_frags fs pool1 (chain ++ h) (ns + n1)); try done.
    + destruct IH as [IH1 IH2]. split.
      * rewrite IH1, map_app, <- app_assoc, Hc. reflexivity.
      * intros _. apply IH2. by destruct chain, h.
    + rewrite IH, map_app, <- app_assoc, Hc. reflexivity.
    + by apply Exists_cons_tl.
  - by rewrite Hc.
  - by apply Exists_cons_hd.
Qed.

Lemma copy_frags_short fs :
  forall pool chain ns,
    Forall (fun f => f <> []) fs ->
    (length pool < total_bufs fs)%nat ->
    copy_frags fs pool chain ns = copy_failed (map m_id chain ++ pool).
Proof.
  induction fs as [|f fs IH]; intros pool chain ns Hne Hpool; simpl in *; [lia|].
  apply Forall_cons in Hne as [Hf Hne].
  destruct (le_lt_dec (bufs_needed f) (length pool)) as [Hle|Hlt].
  - destruct (copy_one_frag_enough pool f Hf Hle) as [h Hh].
    pose proof (copy_one_frag_conserves pool f) as Hc.
    rewrite Hh in Hc |- *. destruct Hc as [Hc _].
    rewrite IH; [|done|rewrite length_drop; lia].
    rewrite map_app, <- app_assoc, Hc. reflexivity.
  - by rewrite copy_one_frag_short.
Qed.

Lemma copy_frags_exit pre post :
  forall pool chain ns,
    Forall (fun f => f <> []) pre ->
    (total_bufs pre <= length pool)%nat ->
    copy_frags (pre ++ [] :: post) pool chain ns = copy_rte_exit.
Proof.
  induction pre as [|f pre IH]; intros pool chain ns Hne Hpool; simpl in *; [done|].
  apply Forall_cons in Hne as [Hf Hne].
  destruct (copy_one_frag_enough pool f Hf ltac:(lia)) as [h ->].
  apply IH; [done|]. rewrite length_drop. lia.
Qed.

Lemma copy_and_transmit_dropped dev p dev' :
  copy_and_transmit dev p = (tx_dropped, dev') ->
  _pktmbuf_pool dev' = _pktmbuf_pool dev /\ tx_ring dev' = tx_ring dev.
Proof.
  unfold copy_and_transmit.
  destruct (frags p) as [|f0 rest]; [done|].
  pose proof (copy_one_frag_conserves (_pktmbuf_pool dev) f0) as Hc.
  destruct (copy_one_frag (_pktmbuf_pool dev) f0) as [pool1 chain n1|pool1| |];
    try done.
  - destruct Hc as [Hc Hne].
    pose proof (copy_frags_conserves rest pool1 chain n1) as Hr.
    destruct (copy_frags rest pool1 chain n1) as [pool2 [|hd segs] n2|pool2| |];
      try done.
    intros [= <-]. simpl. by rewrite Hr, Hc.
  - intros [= <-]. simpl. by rewrite Hc.
Qed.

Lemma linearize_count_some fs :
  forall accum desired,
    desired <= accum + Z.of_nat (length (concat fs)) ->
    exists n a, linearize_count fs accum desired = Some (n, a)
                /\ (n <= length fs)%nat.
Proof.
  induction fs as [|f fs IH]; intros accum desired Hd; simpl in *.
  - destruct (Z.ltb_spec accum desired); [lia|]. exists 0%nat, accum. done.
  - destruct (Z.ltb_spec accum desired).
    + destruct (IH (accum + fsize f) desired) as (n & a & -> & Hn).
      { unfold fsize. rewrite length_app in Hd. lia. }
      exists (S n), a. split; [done|lia].
    + exists 0%nat, accum. split; [done|lia].
Qed.

Lemma linearize_count_covers fs :
  forall accum desired n a,
    linearize_count fs accum desired = Some (n, a) ->
    a = accum + Z.of_nat (length (concat (take n fs))) /\ desired <= a.
Proof.
  induction fs as [|f fs IH]; intros accum desired n a; simpl.
  - destruct (Z.ltb_spec accum desired); [done|].
    intros [= <- <-]. simpl. lia.
  - destruct (Z.ltb_spec accum desired).
    + destruct (linearize_count fs (accum + fsize f) desired) as [[n' a']|] eqn:E;
        [|done].
      intros [= <- <-]. apply IH in E as [-> Hd]. simpl.
      rewrite length_app. unfold fsize in *. lia.
    + intros [= <- <-]. simpl. lia.
Qed.

(** Linearising a packet of positive length succeeds, keeps the bytes
    and leaves them all in fragment 0. *)
Lemma linearize_some p :
  plen p <> 0 ->
  exists p' rest,
    linearize p = Some p' /\ frags p' = pbytes p :: rest
    /\ pbytes p' = pbytes p /\ oi p' = oi p.
Proof.
  intros Hlen. unfold linearize, linearize_at. rewrite drop_0. simpl.
  destruct (linearize_count_some (frags p) 0 (plen p)) as (n & a & E & Hn).
  { unfold plen, pbytes. lia. }
  rewrite E. pose proof (linearize_count_covers _ _ _ _ _ E) as [Ha Hd].
  destruct n as [|n].
  { simpl in Ha. unfold plen in *. lia. }
  assert (Hsplit : concat (frags p)
                   = concat (take (S n) (frags p))
                       ++ concat (drop (S n) (frags p)))
    by (by rewrite <- concat_app, take_drop).
  assert (Hall : concat (take (S n) (frags p)) = pbytes p).
  { unfold plen, pbytes in *. subst a.
    assert (Hz : length (concat (drop (S n) (frags p))) = 0%nat).
    { apply (f_equal length) in Hsplit. rewrite length_app in Hsplit. lia. }
    apply nil_length_inv in Hz. by rewrite Hsplit, Hz, app_nil_r. }
  eexists _, _. split; [reflexivity|]. simpl. rewrite Hall.
  split; [reflexivity|]. split; [|reflexivity].
  unfold pbytes at 1. simpl. rewrite <- Hall at 1. by rewrite <- Hsplit.
Qed.

(** The packet that the copy loops of [send] work on. *)
Lemma send_unfold dev p :
  plen p <> 0 ->
  send dev p
  = match tx_packet p with
    | Some q => copy_and_transmit dev q
    | None => (tx_bad_index, dev)
    end.
Proof.
  intros Hlen. unfold send, tx_packet.
  destruct (Z.eqb_spec (plen p) 0); [done|].
  by destruct (max_frags <? nr_frags p).
Qed.

(** C9. [net_device::send]: a zero-length packet returns at once and
    leaves pool and ring alone; a packet of more than 32 fragments is
    linearised first, all its bytes then standing in fragment 0 of the
    packet that is copied; whenever the call ends as a drop, the pool
    holds again exactly the buffers it held before and nothing was
    queued for transmission, and the call returns a ready future; and
    the call does end as such a drop, with the device unchanged, as
    soon as the pool has fewer buffers than the fragments need, that
    is, when some [rte_pktmbuf_alloc] fails. *)
Theorem send_drop_is_silent (dev : net_device) (p : packet) :
  (plen p = 0 -> send dev p = (tx_nothing, dev))
  /\ (plen p <> 0 -> max_frags < nr_frags p ->
      exists p' rest,
        linearize p = Some p' /\ frags p' = pbytes p :: rest
        /\ send dev p = copy_and_transmit dev p')
  /\ (forall dev',
        send dev p = (tx_dropped, dev') ->
        Permutation (_pktmbuf_pool dev') (_pktmbuf_pool dev)
        /\ tx_ring dev' = tx_ring dev
        /\ returns_ready_future tx_dropped = true)
  /\ (forall q,
        plen p <> 0 -> tx_packet p = Some q ->
        Forall (fun f => f <> []) (frags q) ->
        (length (_pktmbuf_pool dev) < total_bufs (frags q))%nat ->
        send dev p = (tx_dropped, dev)).
Proof.
  repeat split.
  - intros Hz. unfold send. by rewrite Hz.
  - intros Hlen Hmany.
    destruct (linearize_some p Hlen) as (p' & rest & Hl & Hf & _ & _).
    exists p', rest. repeat split; [done..|].
    rewrite send_unfold by done. unfold tx_packet.
    destruct (Z.ltb_spec max_frags (nr_frags p)); [|lia]. by rewrite Hl.
  - unfold send in H. destruct (plen p =? 0); [done|].
    destruct (max_frags <? nr_frags p); [destruct (linearize p); [|done]|];
      apply copy_and_transmit_dropped in H as [-> _]; done.
  - unfold send in H. destruct (plen p =? 0); [done|].
    destruct (max_frags <? nr_frags p); [destruct (linearize p); [|done]|];
      by apply copy_and_transmit_dropped in H as [_ ->].
  - intros q Hlen Hq Hne Hpool. rewrite send_unfold, Hq by done.
    unfold copy_and_transmit.
    destruct (frags q) as [|f0 rest]; [simpl in Hpool; lia|].
    apply Forall_cons in Hne as [Hf0 Hne]. simpl in Hpool.
    destruct dev as [pool ring hw]. simpl in *.
    destruct (le_lt_dec (bufs_needed f0) (length pool)) as [Hle|Hlt].
    + destruct (copy_one_frag_enough pool f0 Hf0 Hle) as [h Hh].
      pose proof (copy_one_frag_conserves pool f0) as Hc.
      rewrite Hh in Hc |- *. destruct Hc as [Hc _].
      rewrite copy_frags_short; [|done|rewrite length_drop; lia].
      unfold set_pool. simpl. by rewrite Hc.
    + by rewrite copy_one_frag_short.
Qed.

(** A three-fragment packet against a pool of one buffer: the second
    allocation fails and the call is a drop that changes nothing. *)
Lemma send_drop_is_silent_witness :
  send dev_one_buf pkt_three_frags = (tx_dropped, dev_one_buf).
Proof.
  apply (proj2 (proj2 (proj2 (send_drop_is_silent dev_one_buf pkt_three_frags)))
           pkt_three_frags).
  - vm_compute. discriminate.
  - reflexivity.
  - vm_compute. repeat constructor; discriminate.
  - vm_compute. lia.
Defined.

(** C10, as stated, fails: 33 fragments, the 17th of size zero, are
    linearised into one fragment of 32 bytes and transmitted. *)
Lemma send_zero_size_fragment_not_fatal :
  plen pkt_33_frags <> 0
  /\ In [] (frags pkt_33_frags)
  /\ send dev_ten_bufs pkt_33_frags
     = (tx_sent,
        mk_net_device [1; 2; 3; 4; 5; 6; 7; 8; 9]%nat
          [[mk_mbuf 0 (pbytes pkt_33_frags) 32 1 false false false 0 0]]
          (dev_hw_features dev_ten_bufs)).
Proof.
  split; [vm_compute; discriminate|].
  split; [vm_compute; tauto|].
  vm_compute. reflexivity.
Qed.

(** A zero-size fragment behind a fragment that gets no buffer is
    never looked at: the call is a silent drop. *)
Lemma send_zero_size_fragment_not_reached :
  send (mk_net_device [] [] (dev_hw_features dev_ten_bufs))
       (mk_packet [[x01]; []] no_offload)
  = (tx_dropped, mk_net_device [] [] (dev_hw_features dev_ten_bufs)).
Proof. vm_compute. reflexivity. Qed.

(** C10, amended.  A packet of non-zero length and at most 32
    fragments whose first zero-size fragment is reached by the copy
    loop, every fragment before it finding its driver buffers, makes
    [send] call [rte_exit]. *)
Theorem send_zero_size_fragment_exit (dev : net_device) (p : packet)
    (pre post : list fragment) :
  plen p <> 0 ->
  nr_frags p <= max_frags ->
  frags p = pre ++ [] :: post ->
  Forall (fun f => f <> []) pre ->
  (total_bufs pre <= length (_pktmbuf_pool dev))%nat ->
  fst (send dev p) = tx_rte_exit.
Proof.
  intros Hlen Hfew Hfr Hne Hpool.
  rewrite send_unfold by done. unfold tx_packet.
  destruct (Z.ltb_spec max_frags (nr_frags p)); [lia|].
  unfold copy_and_transmit. rewrite Hfr.
  destruct pre as [|f0 pre]; [done|]. simpl in *.
  apply Forall_cons in Hne as [Hf0 Hne].
  destruct (copy_one_frag_enough (_pktmbuf_pool dev) f0 Hf0 ltac:(lia)) as [h ->].
  rewrite copy_frags_exit; [done|done|]. rewrite length_drop. lia.
Qed.

Lemma send_zero_size_fragment_exit_witness :
  fst (send dev_ten_bufs (mk_packet [[x01]; []; [x02]] no_offload))
  = tx_rte_exit.
Proof.
  apply (send_zero_size_fragment_exit dev_ten_bufs
           (mk_packet [[x01]; []; [x02]] no_offload) [[x01]] [[x02]]).
  - vm_compute. discriminate.
  - vm_compute. discriminate.
  - reflexivity.
  - repeat constructor. discriminate.
  - vm_compute. lia.
Defined.

End dpdk_send.

(** ** The reassembly table *)

Section table_accounting.

Import ipv4 reasm.

Implicit Types (fs : gmap (Z * Z * Z * Z) frag) (k : Z * Z * Z * Z).

Lemma table_mem_empty : table_mem ∅ = 0.
Proof. unfold table_mem. by rewrite map_fold_empty. Qed.

Lemma table_mem_insert_new fs k fr :
  fs !! k = None -> table_mem (<[k := fr]> fs) = mem_size fr + table_mem fs.
Proof.
  intros Hk. unfold table_mem.
  rewrite map_fold_insert_L; [done| |done]. intros. lia.
Qed.

Lemma entry_size_delete fs k : entry_size (delete k fs) k = 0.
Proof. unfold entry_size. by rewrite lookup_delete_eq. Qed.

Lemma entry_size_delete_ne fs k k' :
  k <> k' -> entry_size (delete k fs) k' = entry_size fs k'.
Proof. intros Hne. unfold entry_size. by rewrite lookup_delete_ne. Qed.

Lemma entry_time_delete_ne fs k k' :
  k <> k' -> entry_time (delete k fs) k' = entry_time fs k'.
Proof. intros Hne. unfold entry_time. by rewrite lookup_delete_ne. Qed.

Lemma table_mem_delete fs k :
  table_mem (delete k fs) = table_mem fs - entry_size fs k.
Proof.
  unfold entry_size. destruct (fs !! k) as [fr|] eqn:Hk.
  - rewrite <- (insert_id fs k fr Hk) at 2.
    rewrite <- insert_delete_eq.
    rewrite table_mem_insert_new by apply lookup_delete_eq. lia.
  - rewrite delete_id by done. lia.
Qed.

Lemma table_mem_insert fs k fr :
  table_mem (<[k := fr]> fs) = table_mem fs - entry_size fs k + mem_size fr.
Proof.
  rewrite <- insert_delete_eq.
  rewrite table_mem_insert_new by apply lookup_delete_eq.
  rewrite table_mem_delete. lia.
Qed.

Lemma table_mem_nonneg fs :
  map_Forall (fun _ fr => 0 <= mem_size fr) fs -> 0 <= table_mem fs.
Proof.
  induction fs as [|k fr fs Hk IH] using map_ind; intros Hall.
  - by rewrite table_mem_empty.
  - rewrite table_mem_insert_new by done.
    apply map_Forall_insert in Hall as [Hfr Hall]; [|done].
    specialize (IH Hall). lia.
Qed.

Lemma entry_size_nonneg fs k :
  map_Forall (fun _ fr => 0 <= mem_size fr) fs -> 0 <= entry_size fs k.
Proof.
  intros Hall. unfold entry_size. destruct (fs !! k) eqn:Hk; [|lia].
  by apply (Hall k).
Qed.

Lemma entry_size_le_table fs k :
  map_Forall (fun _ fr => 0 <= mem_size fr) fs -> entry_size fs k <= table_mem fs.
Proof.
  intros Hall.
  pose proof (table_mem_delete fs k).
  pose proof (table_mem_nonneg (delete k fs) (map_Forall_delete _ _ _ Hall)).
  lia.
Qed.

(** What [operator[]] followed by [frag_drop] does to the table. *)
Lemma frags_at_entry fs k :
  mem_size (frags_at fs k).2 = entry_size fs k
  /\ rx_time (frags_at fs k).2 = entry_time fs k
  /\ delete k (frags_at fs k).1 = delete k fs
  /\ table_mem (frags_at fs k).1 = table_mem fs
  /\ (map_Forall (fun _ fr => 0 <= mem_size fr) fs ->
      map_Forall (fun _ fr => 0 <= mem_size fr) (frags_at fs k).1)
  /\ (is_Some (fs !! k) -> (frags_at fs k).1 = fs)
  /\ (frags_at fs k).1 !! k = Some (frags_at fs k).2.
Proof.
  unfold frags_at, entry_size, entry_time.
  destruct (fs !! k) as [fr|] eqn:Hk; simpl.
  - repeat split; done.
  - repeat split; try done.
    + by rewrite delete_insert_eq, delete_id.
    + rewrite table_mem_insert_new by done. simpl. lia.
    + intros Hall. apply map_Forall_insert; [done|]. split; [simpl; lia|done].
    + by rewrite lookup_insert_eq.
Qed.

Lemma u32_idem x : u32 (u32 x) = u32 x.
Proof. unfold u32. by rewrite Z.mod_mod. Qed.

Lemma u32_small x : 0 <= x < 4294967296 -> u32 x = x.
Proof. intros. unfold u32. by apply Z.mod_small. Qed.

Lemma u32_range x : 0 <= u32 x < 4294967296.
Proof. unfold u32. by apply Z.mod_pos_bound. Qed.

Lemma u32_sub_l x y : u32 (u32 x - y) = u32 (x - y).
Proof. unfold u32. by rewrite Zminus_mod_idemp_l. Qed.

Lemma u32_add_l x y : u32 (u32 x + y) = u32 (x + y).
Proof. unfold u32. by rewrite Zplus_mod_idemp_l. Qed.

Lemma u32_add_r x y : u32 (x + u32 y) = u32 (x + y).
Proof. unfold u32. by rewrite Zplus_mod_idemp_r. Qed.

Lemma u32_to_int32 x y : u32 (x + to_int32 y) = u32 (x + y).
Proof.
  unfold to_int32. destruct (u32 y <? 2147483648).
  - apply u32_add_r.
  - replace (x + (u32 y - 4294967296)) with (x + u32 y + (-1) * 4294967296) by lia.
    unfold u32 at 1. rewrite Z.mod_add by done. apply u32_add_r.
Qed.

Lemma accounted_exact s :
  accounted s -> table_mem (_frags s) < 4294967296 ->
  _frag_mem s = table_mem (_frags s).
Proof.
  intros [Hs Hm] Hfit. rewrite Hm. apply u32_small.
  split; [by apply table_mem_nonneg|done].
Qed.

Lemma accounted_limit_loop age :
  forall drop fs mem,
    map_Forall (fun _ fr => 0 <= mem_size fr) fs ->
    mem = u32 (table_mem fs) ->
    let '(fs', _, mem') := frag_limit_loop drop fs age mem in
    map_Forall (fun _ fr => 0 <= mem_size fr) fs' /\ mem' = u32 (table_mem fs').
Proof.
  induction age as [|k age IH]; intros drop fs mem Hs Hm; simpl.
  - by destruct (drop =? 0).
  - destruct (drop =? 0); [done|].
    destruct (frags_at_entry fs k) as (Hsz & _ & Hdel & _ & _ & _ & _).
    destruct (frags_at fs k) as [fs1 fr]. simpl in *.
    apply IH.
    + rewrite Hdel. by apply map_Forall_delete.
    + rewrite Hdel, table_mem_delete, Hsz, Hm. apply u32_sub_l.
Qed.

Lemma accounted_limit s : accounted s -> accounted (frag_limit_mem s).
Proof.
  intros [Hs Hm]. unfold frag_limit_mem.
  destruct (_frag_mem s <=? _frag_high_thresh); [done|].
  pose proof (accounted_limit_loop (_frags_age s)
                (u32 (_frag_mem s - _frag_low_thresh)) (_frags s) (_frag_mem s)
                Hs Hm) as H.
  destruct (frag_limit_loop _ _ _ _) as [[fs' age'] mem'].
  destruct H. by constructor.
Qed.

Lemma accounted_timeout_loop now age :
  forall fs mem,
    map_Forall (fun _ fr => 0 <= mem_size fr) fs ->
    mem = u32 (table_mem fs) ->
    let '(fs', _, mem') := frag_timeout_loop now fs age mem in
    map_Forall (fun _ fr => 0 <= mem_size fr) fs' /\ mem' = u32 (table_mem fs').
Proof.
  induction age as [|k age IH]; intros fs mem Hs Hm; simpl; [done|].
  destruct (frags_at_entry fs k) as (Hsz & _ & Hdel & Htm & Hall & _ & _).
  destruct (frags_at fs k) as [fs1 fr]. simpl in *.
  destruct (rx_time fr + _frag_timeout <? now).
  - apply IH.
    + rewrite Hdel. by apply map_Forall_delete.
    + rewrite Hdel, table_mem_delete, Hsz, Hm. apply u32_sub_l.
  - split; [by apply Hall|]. by rewrite Htm.
Qed.

Lemma accounted_timeout now s : accounted s -> accounted (frag_timeout now s).
Proof.
  intros [Hs Hm]. unfold frag_timeout.
  destruct (decide (_frags s = ∅)); [done|].
  pose proof (accounted_timeout_loop now (_frags_age s) (_frags s) (_frag_mem s)
                Hs Hm) as H.
  destruct (frag_timeout_loop _ _ _ _) as [[fs' age'] mem'].
  destruct H as [Hs' Hm'].
  destruct (Z.eqb_spec (Z.of_nat (size fs')) 0) as [Hz|Hnz]; simpl.
  - constructor; simpl; [done|].
    assert (fs' = ∅) as -> by (apply map_size_empty_inv; lia).
    by rewrite table_mem_empty.
  - by constructor.
Qed.

Lemma accounted_remove s frag_id fr :
  accounted s -> _frags s !! frag_id = Some fr ->
  accounted (frag_remove frag_id (mem_size fr) s).
Proof.
  intros [Hs Hm] Hk. unfold frag_remove, frag_drop. constructor; simpl.
  - by apply map_Forall_delete.
  - rewrite table_mem_delete. unfold entry_size. rewrite Hk, Hm.
    apply u32_sub_l.
Qed.

End table_accounting.

Section engine_accounting.

Import ipv4 reasm.

Variable memory : packet -> Z.
Variable data_merge : list (Z * packet) -> Z -> packet -> list (Z * packet).

Lemma recompute_mem_size_range hdr d :
  0 <= recompute_mem_size memory hdr d < 4294967296.
Proof.
  unfold recompute_mem_size.
  generalize (u32_range (memory hdr)). generalize (u32 (memory hdr)).
  induction d as [|x d IH]; intros acc Hacc; simpl; [done|].
  apply IH, u32_range.
Qed.

Lemma frag_touch_mem_size now h fr :
  mem_size (frag_touch now h fr) = mem_size fr.
Proof.
  unfold frag_touch. destruct (ip_hdr.mf h); simpl;
    by destruct (mem_size fr =? 0).
Qed.

(** The insertion of a fragment keeps the counter in step with the
    table; the entry it returns is the one now stored under the key. *)
Lemma accounted_insert now h offset p s :
  accounted s ->
  accounted (frag_insert memory data_merge now h offset p s).1.1
  /\ _frags (frag_insert memory data_merge now h offset p s).1.1
       !! (frag_insert memory data_merge now h offset p s).1.2
     = Some (frag_insert memory data_merge now h offset p s).2.
Proof.
  intros [Hs Hm]. unfold frag_insert.
  set (k := (ip_hdr.src_ip h, ip_hdr.dst_ip h, ip_hdr.id h, ip_hdr.ip_proto h)).
  destruct (frags_at_entry (_frags s) k) as (Hsz & _ & _ & Htm & Hall & _ & Hget).
  destruct (frags_at (_frags s) k) as [fs fr0]. simpl in *.
  unfold frag_merge. rewrite frag_touch_mem_size. simpl.
  set (ms := recompute_mem_size memory _ _).
  pose proof (recompute_mem_size_range
                (if offset =? 0 then share 0 (ip_hdr.ihl h * 4) p
                 else header (frag_touch now h fr0))
                (data_merge (data (frag_touch now h fr0)) offset
                   (trim_front (ip_hdr.ihl h * 4) p))) as Hms.
  fold ms in Hms.
  split; [|by rewrite lookup_insert_eq].
  constructor; simpl.
  - apply map_Forall_insert_2; [simpl; lia|by apply Hall].
  - rewrite table_mem_insert. simpl.
    rewrite u32_to_int32, u32_add_r, Hm, u32_add_l.
    unfold entry_size. rewrite Hget, Htm. f_equal. lia.
Qed.

Lemma accounted_set_timer s timer :
  accounted s ->
  accounted (set_reassembly (_frags s) (_frags_age s) (_frag_mem s) timer s).
Proof. intros [Hs Hm]. by constructor. Qed.

Lemma accounted_reassemble now cpu s h offset p from :
  accounted s ->
  accounted (reassemble memory data_merge now cpu s h offset p from).2.
Proof.
  intros Hacc. unfold reassemble.
  pose proof (accounted_insert now h offset p (frag_limit_mem s)
                (accounted_limit s Hacc)) as [Hacc1 Hget].
  destruct (frag_insert memory data_merge now h offset p (frag_limit_mem s))
    as [[s1 frag_id] fr]. simpl in *.
  destruct (is_complete fr); simpl.
  - by apply accounted_remove.
  - destruct (_frag_timer s1); [done|]. by apply accounted_set_timer.
Qed.

Lemma accounted_arp_learn from ip s : accounted s -> accounted (arp_learn from ip s).
Proof. intros [Hs Hm]. by constructor. Qed.

Lemma accounted_receive now cpu s p from :
  accounted s ->
  accounted (handle_received_packet memory data_merge now cpu s p from).2.
Proof.
  intros Hacc. unfold handle_received_packet.
  destruct (get_header 0 ip_hdr.size p) as [iph|]; [|done].
  destruct (_ && _ && _); [done|].
  destruct (_ <? _); [done|].
  destruct (ip_packet_len_max <? _); [done|].
  set (s' := if _ && _ then arp_learn _ _ s else s).
  assert (Hacc' : accounted s').
  { unfold s'. destruct (_ && _); [by apply accounted_arp_learn|done]. }
  clearbody s'.
  destruct (match _packet_filter s' with Some _ => _ | None => _ end); [done|].
  destruct (negb (_ =? _host_address s')); [done|].
  destruct (_ || _); [by apply accounted_reassemble|].
  by destruct (_l4 s' !! _).
Qed.

Lemma accounted_step s s' :
  accounted s -> table_step memory data_merge s s' -> accounted s'.
Proof.
  intros Hacc Hstep. destruct Hstep.
  - by apply accounted_limit.
  - by apply accounted_insert.
  - by eapply accounted_remove.
  - by apply accounted_timeout.
  - by apply accounted_receive.
Qed.

(** C4.  In every state reached from an empty table by eviction
    passes, fragment insertions, removals of completed entries, timeout
    passes and whole calls of [handle_received_packet], the 32-bit
    counter [_frag_mem] is the sum of [mem_size] over the entries of
    the table, reduced to 32 bits; it is that sum itself whenever the
    sum fits the counter. *)
Theorem frag_mem_is_table_sum (s : t) :
  reachable memory data_merge s ->
  _frag_mem s = u32 (table_mem (_frags s))
  /\ (table_mem (_frags s) < 4294967296 -> _frag_mem s = table_mem (_frags s)).
Proof.
  intros Hr.
  assert (Hacc : accounted s).
  { induction Hr as [s He Hm|s s' _ IH Hstep].
    - constructor.
      + rewrite He. apply map_Forall_empty.
      + by rewrite He, Hm, table_mem_empty.
    - by eapply accounted_step. }
  split; [by destruct Hacc|]. by apply accounted_exact.
Qed.

End engine_accounting.

Section table_sweeps.

Import ipv4 reasm.

Implicit Types (fs : gmap (Z * Z * Z * Z) frag) (k : Z * Z * Z * Z)
  (age ks : list (Z * Z * Z * Z)).

Lemma lookup_without fs ks k :
  without fs ks !! k = if decide (k ∈ ks) then None else fs !! k.
Proof.
  induction ks as [|k' ks IH].
  - case_decide; [set_solver|done].
  - change (without fs (k' :: ks)) with (delete k' (without fs ks)).
    destruct (decide (k' = k)) as [->|Hne].
    + rewrite lookup_delete_eq. rewrite decide_True; [done|by left].
    + rewrite lookup_delete_ne, IH by done.
      destruct (decide (k ∈ ks)) as [Hin|Hout].
      * rewrite decide_True; [done|by right].
      * rewrite decide_False; [done|].
        by intros [->|?]%elem_of_cons.
Qed.

Lemma without_delete fs k ks :
  without (delete k fs) ks = delete k (without fs ks).
Proof.
  induction ks as [|k' ks IH]; simpl; [done|].
  by rewrite IH, delete_delete.
Qed.

Lemma without_all fs ks : dom fs ⊆ list_to_set ks -> without fs ks = ∅.
Proof.
  intros Hsub. apply map_empty. intros k. rewrite lookup_without.
  destruct (decide (k ∈ ks)) as [|Hnot]; [done|].
  apply not_elem_of_dom. intros Hk. apply Hnot.
  apply Hsub in Hk. set_solver.
Qed.

Lemma released_delete fs k ks :
  k ∉ ks -> released (delete k fs) ks = released fs ks.
Proof.
  induction ks as [|k' ks IH]; intros Hk; simpl; [done|].
  rewrite IH by set_solver.
  rewrite entry_size_delete_ne by set_solver. done.
Qed.

Lemma released_nonneg fs ks :
  map_Forall (fun _ fr => 0 <= mem_size fr) fs -> 0 <= released fs ks.
Proof.
  intros Hall. induction ks as [|k ks IH]; simpl; [done|].
  pose proof (entry_size_nonneg fs k Hall). lia.
Qed.

Lemma table_mem_without fs ks :
  NoDup ks -> table_mem (without fs ks) = table_mem fs - released fs ks.
Proof.
  induction 1 as [|k ks Hk Hnd IH]; simpl; [lia|].
  rewrite table_mem_delete, IH.
  unfold entry_size at 1. rewrite lookup_without, decide_False by done.
  fold (entry_size fs k). lia.
Qed.

(** The eviction loop drops a prefix of the age list: the shortest one
    whose sizes add up to the target [d], or the whole list. *)
Lemma frag_limit_loop_spec age :
  forall d fs mem,
    NoDup age ->
    (forall k, k ∈ age -> is_Some (fs !! k)) ->
    map_Forall (fun _ fr => 0 <= mem_size fr) fs ->
    mem = table_mem fs -> mem < 4294967296 ->
    0 <= d < 4294967296 ->
    exists n,
      (n <= length age)%nat
      /\ frag_limit_loop d fs age mem
         = (without fs (take n age), drop n age,
            mem - released fs (take n age))
      /\ (n = length age \/ d <= released fs (take n age))
      /\ (forall m, (m < n)%nat -> released fs (take m age) < d).
Proof.
  induction age as [|k age IH]; intros d fs mem Hnd Hin Hall Hm Hfit Hd.
  - exists 0%nat.
    assert (frag_limit_loop d fs [] mem = (fs, [], mem)) as ->
      by (simpl; by destruct (d =? 0)).
    simpl. split; [lia|]. split; [f_equal; lia|]. split; [by left|lia].
  - simpl. destruct (Z.eqb_spec d 0) as [->|Hd0].
    { exists 0%nat. simpl. split; [lia|]. split; [f_equal; lia|].
      split; [by right|lia]. }
    apply NoDup_cons in Hnd as [Hk Hnd].
    destruct (Hin k ltac:(by left)) as [fr Hfr].
    assert (Hat : frags_at fs k = (fs, fr))
      by (unfold frags_at; by rewrite Hfr).
    assert (Hsz : mem_size fr = entry_size fs k)
      by (unfold entry_size; by rewrite Hfr).
    rewrite Hat. simpl.
    pose proof (entry_size_nonneg fs k Hall) as Hnn.
    pose proof (entry_size_le_table fs k Hall) as Hle.
    rewrite Hsz.
    rewrite (u32_small (mem - entry_size fs k)) by lia.
    rewrite (u32_small (d - Z.min d (entry_size fs k))) by lia.
    destruct (IH (d - Z.min d (entry_size fs k)) (delete k fs)
                 (mem - entry_size fs k)) as (n & Hn & Hloop & Hstop & Hmin).
    + done.
    + intros k' Hk'. rewrite lookup_delete_ne by (by intros ->).
      apply Hin. by right.
    + by apply map_Forall_delete.
    + rewrite table_mem_delete. lia.
    + lia.
    + lia.
    + assert (Hrel : forall m, released (delete k fs) (take m age)
                               = released fs (take m age)).
      { intros m. apply released_delete. intros Hm'.
        apply Hk. by eapply subseteq_take. }
      exists (S n). simpl. split; [lia|]. rewrite Hloop, Hrel, without_delete.
      split; [f_equal; lia|]. split.
      * destruct Hstop as [->|Hstop]; [by left|right].
        rewrite Hrel in Hstop. lia.
      * intros [|m] Hm'; simpl; [lia|].
        specialize (Hmin m ltac:(lia)). rewrite Hrel in Hmin.
        pose proof (released_nonneg fs (take m age) Hall). lia.
Qed.

(** The timeout loop drops the longest prefix of expired entries. *)
Lemma frag_timeout_loop_spec now age :
  forall fs mem,
    NoDup age ->
    (forall k, k ∈ age -> is_Some (fs !! k)) ->
    map_Forall (fun _ fr => 0 <= mem_size fr) fs ->
    mem = table_mem fs -> mem < 4294967296 ->
    exists n,
      (n <= length age)%nat
      /\ frag_timeout_loop now fs age mem
         = (without fs (take n age), drop n age,
            mem - released fs (take n age))
      /\ (forall k, k ∈ take n age -> entry_time fs k + _frag_timeout < now)
      /\ (forall k, head (drop n age) = Some k ->
                    ~ entry_time fs k + _frag_timeout < now).
Proof.
  induction age as [|k age IH]; intros fs mem Hnd Hin Hall Hm Hfit.
  - exists 0%nat. simpl. split; [lia|]. split; [f_equal; lia|].
    split; [|done]. intros k Hk. by apply elem_of_nil in Hk.
  - simpl. apply NoDup_cons in Hnd as [Hk Hnd].
    destruct (Hin k ltac:(by left)) as [fr Hfr].
    assert (Hat : frags_at fs k = (fs, fr))
      by (unfold frags_at; by rewrite Hfr).
    assert (Hsz : mem_size fr = entry_size fs k)
      by (unfold entry_size; by rewrite Hfr).
    assert (Htime : rx_time fr = entry_time fs k)
      by (unfold entry_time; by rewrite Hfr).
    rewrite Hat. simpl.
    pose proof (entry_size_nonneg fs k Hall) as Hnn.
    pose proof (entry_size_le_table fs k Hall) as Hle.
    rewrite Hsz, Htime.
    destruct (Z.ltb_spec (entry_time fs k + _frag_timeout) now) as [Hexp|Hlive].
    + rewrite (u32_small (mem - entry_size fs k)) by lia.
      destruct (IH (delete k fs) (mem - entry_size fs k))
        as (n & Hn & Hloop & Hpre & Hhd).
      * done.
      * intros k' Hk'. rewrite lookup_delete_ne by (by intros ->).
        apply Hin. by right.
      * by apply map_Forall_delete.
      * rewrite table_mem_delete. lia.
      * lia.
      * assert (Hrel : released (delete k fs) (take n age)
                       = released fs (take n age)).
        { apply released_delete. intros Hm'. apply Hk. by eapply subseteq_take. }
        exists (S n). simpl. split; [lia|]. rewrite Hloop, Hrel, without_delete.
        split; [f_equal; lia|]. split.
        -- intros k' [->|Hk']%elem_of_cons; [done|].
           rewrite <- (entry_time_delete_ne fs k k'); [by apply Hpre|].
           intros ->. apply Hk. by eapply subseteq_take.
        -- intros k' Hk'. rewrite <- (entry_time_delete_ne fs k k'); [by apply Hhd|].
           intros ->. apply Hk. eapply subseteq_drop. by apply head_Some_elem_of.
    + exists 0%nat. simpl. split; [lia|]. split; [f_equal; lia|]. split.
      * intros k' Hk'. by apply elem_of_nil in Hk'.
      * intros k' [= <-]. lia.
Qed.

End table_sweeps.

Section table_sweep_theorems.

Import ipv4 reasm.

Implicit Types (fs : gmap (Z * Z * Z * Z) frag) (k : Z * Z * Z * Z)
  (age ks : list (Z * Z * Z * Z)).

Lemma sorted_head_min (f : Z * Z * Z * Z -> Z) ks k0 k :
  StronglySorted Z.le (map f ks) -> head ks = Some k0 -> k ∈ ks -> f k0 <= f k.
Proof.
  destruct ks as [|k1 ks]; [done|]. simpl. intros Hs [= ->] Hk.
  apply StronglySorted_inv in Hs as [_ Hall].
  apply elem_of_cons in Hk as [->|Hk]; [lia|].
  rewrite Forall_forall in Hall. apply Hall.
  by apply (list_elem_of_fmap_2 f).
Qed.

Lemma wf_age_lookup s k :
  table_wf s -> k ∈ _frags_age s <-> is_Some (_frags s !! k).
Proof.
  intros (_ & Hdom & _). rewrite <- elem_of_dom, Hdom.
  by rewrite elem_of_list_to_set.
Qed.

(** Cutting a prefix off the age list and its entries off the table
    keeps the data-model invariants. *)
Lemma table_wf_cut s n timer :
  table_wf s ->
  table_wf (set_reassembly (without (_frags s) (take n (_frags_age s)))
              (drop n (_frags_age s))
              (_frag_mem s - released (_frags s) (take n (_frags_age s)))
              timer s).
Proof.
  intros (Hnd & Hdom & Hsz & Hm & Hfit & Hsort).
  set (fs := _frags s) in *. set (age := _frags_age s) in *.
  assert (Hsplit : NoDup (take n age ++ drop n age)) by by rewrite take_drop.
  apply NoDup_app in Hsplit as (Hnd1 & Hdisj & Hnd2).
  assert (Hsz' : map_Forall (fun _ fr => 0 <= mem_size fr)
                   (without fs (take n age))).
  { clear -Hsz. induction (take n age) as [|k ks IH]; simpl; [done|].
    by apply map_Forall_delete. }
  unfold table_wf. simpl. repeat split.
  - done.
  - apply set_eq. intros k.
    rewrite elem_of_dom, lookup_without, elem_of_list_to_set.
    destruct (decide (k ∈ take n age)) as [Hin|Hout].
    + split; [by intros [? ?]|]. intros Hk. by apply Hdisj in Hin.
    + rewrite <- elem_of_dom, Hdom, elem_of_list_to_set.
      rewrite <- (take_drop n age) at 1. rewrite elem_of_app. tauto.
  - done.
  - rewrite table_mem_without by done. lia.
  - rewrite table_mem_without by done.
    pose proof (released_nonneg fs (take n age) Hsz). lia.
  - rewrite <- (take_drop n age), map_app in Hsort.
    apply StronglySorted_app_1_r in Hsort.
    erewrite map_ext_in; [exact Hsort|].
    intros k Hk. unfold entry_time. rewrite lookup_without.
    rewrite decide_False; [done|].
    intros Hin. apply (Hdisj k Hin). by apply list_elem_of_In.
Qed.

Lemma set_reassembly_id s :
  set_reassembly (_frags s) (_frags_age s) (_frag_mem s) (_frag_timer s) s = s.
Proof. by destruct s. Qed.

(** C3, amended.  In a state that satisfies the data-model invariants,
    [frag_limit_mem] changes nothing when [_frag_mem] is at most the
    high threshold (4 MiB); above it, it drops a prefix of the age
    list, oldest first, with the entries of the table, takes each
    dropped [mem_size] off [_frag_mem], and stops at the shortest
    prefix that releases [_frag_mem - _frag_low_thresh] bytes, or at
    the end of the list; then [_frag_mem] is at most the low threshold
    (3 MiB) or the table is empty.  After every call, [_frag_mem] is at
    most the high threshold or the table is empty, and the invariants
    hold again. *)
Theorem frag_limit_mem_hysteresis (s : t) :
  table_wf s ->
  (_frag_mem s <= _frag_high_thresh -> frag_limit_mem s = s)
  /\ (_frag_high_thresh < _frag_mem s ->
      exists n,
        (n <= length (_frags_age s))%nat
        /\ _frags_age (frag_limit_mem s) = drop n (_frags_age s)
        /\ _frags (frag_limit_mem s)
           = without (_frags s) (take n (_frags_age s))
        /\ _frag_mem (frag_limit_mem s)
           = _frag_mem s - released (_frags s) (take n (_frags_age s))
        /\ (n = length (_frags_age s)
            \/ _frag_mem s - _frag_low_thresh
               <= released (_frags s) (take n (_frags_age s)))
        /\ (forall m, (m < n)%nat ->
              released (_frags s) (take m (_frags_age s))
              < _frag_mem s - _frag_low_thresh)
        /\ (_frag_mem (frag_limit_mem s) <= _frag_low_thresh
            \/ _frags (frag_limit_mem s) = ∅))
  /\ (_frag_mem (frag_limit_mem s) <= _frag_high_thresh
      \/ _frags (frag_limit_mem s) = ∅)
  /\ table_wf (frag_limit_mem s).
Proof.
  intros Hwf.
  assert (Hhigh : _frag_high_thresh < _frag_mem s ->
      exists n,
        (n <= length (_frags_age s))%nat
        /\ frag_limit_mem s
           = set_reassembly (without (_frags s) (take n (_frags_age s)))
               (drop n (_frags_age s))
               (_frag_mem s - released (_frags s) (take n (_frags_age s)))
               (_frag_timer s) s
        /\ (n = length (_frags_age s)
            \/ _frag_mem s - _frag_low_thresh
               <= released (_frags s) (take n (_frags_age s)))
        /\ (forall m, (m < n)%nat ->
              released (_frags s) (take m (_frags_age s))
              < _frag_mem s - _frag_low_thresh)).
  { intros Hgt. pose proof Hwf as (Hnd & Hdom & Hsz & Hm & Hfit & _).
    unfold frag_limit_mem.
    destruct (Z.leb_spec (_frag_mem s) _frag_high_thresh); [lia|].
    unfold _frag_high_thresh, _frag_low_thresh in *.
    rewrite (u32_small (_frag_mem s - 3 * 1024 * 1024)) by lia.
    destruct (frag_limit_loop_spec (_frags_age s)
                (_frag_mem s - 3 * 1024 * 1024) (_frags s) (_frag_mem s))
      as (n & Hn & Hloop & Hstop & Hmin); try done; try lia.
    { intros k Hk. by apply wf_age_lookup. }
    exists n. rewrite Hloop. done. }
  split; [|split; [|split]].
  - intros Hle. unfold frag_limit_mem.
    by destruct (Z.leb_spec (_frag_mem s) _frag_high_thresh); [|lia].
  - intros Hgt. destruct (Hhigh Hgt) as (n & Hn & -> & Hstop & Hmin).
    exists n. simpl. repeat split; try done.
    destruct Hstop as [->|Hstop]; [right|left; lia].
    rewrite firstn_all. apply without_all.
    destruct Hwf as (_ & -> & _). done.
  - destruct (Z.le_gt_cases (_frag_mem s) _frag_high_thresh) as [Hle|Hgt].
    + unfold frag_limit_mem.
      destruct (Z.leb_spec (_frag_mem s) _frag_high_thresh); [|lia]. by left.
    + destruct (Hhigh ltac:(lia)) as (n & Hn & -> & Hstop & Hmin). simpl.
      destruct Hstop as [->|Hstop].
      * right. rewrite firstn_all. apply without_all.
        destruct Hwf as (_ & -> & _). done.
      * left. unfold _frag_high_thresh, _frag_low_thresh in *. lia.
  - destruct (Z.le_gt_cases (_frag_mem s) _frag_high_thresh) as [Hle|Hgt].
    + unfold frag_limit_mem.
      by destruct (Z.leb_spec (_frag_mem s) _frag_high_thresh); [|lia].
    + destruct (Hhigh ltac:(lia)) as (n & Hn & -> & Hstop & Hmin).
      by apply table_wf_cut.
Qed.

End table_sweep_theorems.

Section table_sweep_vectors.

Import ipv4 reasm vectors.

Implicit Types (fs : gmap (Z * Z * Z * Z) frag) (k : Z * Z * Z * Z)
  (age ks : list (Z * Z * Z * Z)).

(** Seventy flows hold 4300800 bytes, above the high threshold: the
    pass drops the nineteen oldest and ends below the low one. *)
Lemma frag_limit_mem_hysteresis_witness :
  table_wf (vstate 70)
  /\ (_frag_mem (frag_limit_mem (vstate 70)) <= _frag_high_thresh
      \/ _frags (frag_limit_mem (vstate 70)) = ∅).
Proof.
  assert (Hwf : table_wf (vstate 70))
    by (apply (bool_decide_unpack _); vm_compute; reflexivity).
  split; [exact Hwf|].
  exact (proj1 (proj2 (proj2 (frag_limit_mem_hysteresis (vstate 70) Hwf)))).
Defined.

(** C3, as stated, fails between the thresholds: sixty flows hold
    3686400 bytes, more than the low threshold and no more than the
    high one; the call changes nothing, so afterwards [_frag_mem] is
    above the low threshold and the table is not empty. *)
Lemma frag_limit_mem_keeps_above_low :
  table_wf (vstate 60)
  /\ frag_limit_mem (vstate 60) = vstate 60
  /\ ~ (_frag_mem (frag_limit_mem (vstate 60)) <= _frag_low_thresh
        \/ _frags (frag_limit_mem (vstate 60)) = ∅).
Proof.
  split; [apply (bool_decide_unpack _); vm_compute; reflexivity|].
  split; [reflexivity|].
  intros [Hle|Hempty].
  - vm_compute in Hle. by apply Hle.
  - apply (f_equal (fun m => m !! vkey 0)) in Hempty.
    vm_compute in Hempty. discriminate.
Qed.

(** C5.  In a state that satisfies the data-model invariants, a pass of
    [frag_timeout] at time [now] cuts off the age list its longest
    prefix of entries with [rx_time + 30 < now] and removes these from
    the table, the scan ending at the first entry that survives; every
    entry with [rx_time + 30 < now] is thereby gone from the table and
    from the age list, every other entry is kept in both, so that no
    survivor has [rx_time + 30 < now]; with a non-empty table left the
    timer is armed for [now + 30], with an empty one it is left alone
    and [_frag_mem] is 0; and the invariants hold again. *)
Theorem frag_timeout_sweep (now : Z) (s : t) :
  table_wf s ->
  (exists n,
     (n <= length (_frags_age s))%nat
     /\ _frags_age (frag_timeout now s) = drop n (_frags_age s)
     /\ _frags (frag_timeout now s) = without (_frags s) (take n (_frags_age s))
     /\ (forall k, k ∈ take n (_frags_age s) ->
                   entry_time (_frags s) k + _frag_timeout < now)
     /\ (forall k, head (drop n (_frags_age s)) = Some k ->
                   ~ entry_time (_frags s) k + _frag_timeout < now))
  /\ (forall k fr,
        _frags s !! k = Some fr -> expired now fr ->
        _frags (frag_timeout now s) !! k = None
        /\ k ∉ _frags_age (frag_timeout now s))
  /\ (forall k fr,
        _frags s !! k = Some fr -> ~ expired now fr ->
        _frags (frag_timeout now s) !! k = Some fr
        /\ k ∈ _frags_age (frag_timeout now s))
  /\ (forall k fr,
        _frags (frag_timeout now s) !! k = Some fr -> ~ expired now fr)
  /\ (_frags (frag_timeout now s) <> ∅ ->
      _frag_timer (frag_timeout now s) = Some (now + _frag_timeout))
  /\ (_frags (frag_timeout now s) = ∅ ->
      _frag_timer (frag_timeout now s) = _frag_timer s
      /\ _frag_mem (frag_timeout now s) = 0)
  /\ table_wf (frag_timeout now s).
Proof.
  intros Hwf. pose proof Hwf as (Hnd & Hdom & Hsz & Hm & Hfit & Hsort).
  (* the shape of the state after the pass *)
  assert (Hshape : exists n timer mem,
      (n <= length (_frags_age s))%nat
      /\ frag_timeout now s
         = set_reassembly (without (_frags s) (take n (_frags_age s)))
             (drop n (_frags_age s)) mem timer s
      /\ mem = table_mem (without (_frags s) (take n (_frags_age s)))
      /\ (forall k, k ∈ take n (_frags_age s) ->
                    entry_time (_frags s) k + _frag_timeout < now)
      /\ (forall k, head (drop n (_frags_age s)) = Some k ->
                    ~ entry_time (_frags s) k + _frag_timeout < now)
      /\ (without (_frags s) (take n (_frags_age s)) <> ∅ ->
          timer = Some (now + _frag_timeout))
      /\ (without (_frags s) (take n (_frags_age s)) = ∅ ->
          timer = _frag_timer s)).
  { unfold frag_timeout. destruct (decide (_frags s = ∅)) as [He|Hne].
    - exists 0%nat, (_frag_timer s), (_frag_mem s). simpl.
      assert (_frags_age s = []) as Hage.
      { rewrite He, dom_empty_L in Hdom.
        destruct (_frags_age s) as [|k ?]; [done|]. set_solver. }
      rewrite Hage in *. simpl. repeat split; try done; try lia.
      + rewrite <- Hage. by rewrite set_reassembly_id.
      + intros k Hk. by apply elem_of_nil in Hk.
    - destruct (frag_timeout_loop_spec now (_frags_age s) (_frags s)
                  (_frag_mem s)) as (n & Hn & Hloop & Hpre & Hhd);
        try done; try lia.
      { intros k Hk. by apply wf_age_lookup. }
      rewrite Hloop.
      assert (Htm : _frag_mem s - released (_frags s) (take n (_frags_age s))
                    = table_mem (without (_frags s) (take n (_frags_age s)))).
      { rewrite table_mem_without; [lia|].
        rewrite <- (take_drop n (_frags_age s)) in Hnd.
        by apply NoDup_app in Hnd as (? & _). }
      destruct (Z.eqb_spec (Z.of_nat (size (without (_frags s)
                                             (take n (_frags_age s))))) 0)
        as [Hz|Hnz]; simpl.
      + assert (Hemp : without (_frags s) (take n (_frags_age s)) = ∅)
          by (apply map_size_empty_inv; lia).
        exists n, (_frag_timer s), 0. repeat split; try done.
        by rewrite Hemp, table_mem_empty.
      + exists n, (Some (now + _frag_timeout)),
               (_frag_mem s - released (_frags s) (take n (_frags_age s))).
        repeat split; try done.
        intros Hemp. rewrite Hemp in Hnz. by rewrite map_size_empty in Hnz. }
  destruct Hshape as (n & timer & mem & Hn & -> & Hmem & Hpre & Hhd & Harm & Hidle).
  simpl.
  assert (Hsplit : NoDup (take n (_frags_age s) ++ drop n (_frags_age s)))
    by by rewrite take_drop.
  apply NoDup_app in Hsplit as (Hnd1 & Hdisj & Hnd2).
  assert (Hlate : forall k, k ∈ drop n (_frags_age s) ->
                            ~ entry_time (_frags s) k + _frag_timeout < now).
  { intros k Hk.
    destruct (head (drop n (_frags_age s))) as [k0|] eqn:Hk0.
    - pose proof (Hhd k0 eq_refl).
      assert (entry_time (_frags s) k0 <= entry_time (_frags s) k); [|lia].
      apply (sorted_head_min (entry_time (_frags s)) (drop n (_frags_age s)));
        [|done|done].
      rewrite <- (take_drop n (_frags_age s)), map_app in Hsort.
      by apply StronglySorted_app_1_r in Hsort.
    - apply head_None in Hk0. rewrite Hk0 in Hk. by apply elem_of_nil in Hk. }
  assert (Hwhere : forall k, is_Some (_frags s !! k) ->
                             k ∈ take n (_frags_age s) \/ k ∈ drop n (_frags_age s)).
  { intros k Hk. apply (wf_age_lookup s k Hwf) in Hk.
    rewrite <- (take_drop n (_frags_age s)) in Hk. by apply elem_of_app in Hk. }
  split; [by exists n|]. split; [|split; [|split; [|split; [|split]]]].
  - intros k fr Hk Hexp. unfold expired in Hexp.
    assert (Htime : entry_time (_frags s) k = rx_time fr)
      by (unfold entry_time; by rewrite Hk).
    destruct (Hwhere k ltac:(by eexists)) as [Hin|Hin].
    + split; [by rewrite lookup_without, decide_True|]. by apply Hdisj.
    + apply Hlate in Hin. lia.
  - intros k fr Hk Hlive. unfold expired in Hlive.
    assert (Htime : entry_time (_frags s) k = rx_time fr)
      by (unfold entry_time; by rewrite Hk).
    destruct (Hwhere k ltac:(by eexists)) as [Hin|Hin].
    + apply Hpre in Hin. lia.
    + split; [|done]. rewrite lookup_without, decide_False; [done|].
      intros Hin'. by apply (Hdisj k).
  - intros k fr Hk. rewrite lookup_without in Hk.
    destruct (decide (k ∈ take n (_frags_age s))) as [|Hout]; [done|].
    assert (Htime : entry_time (_frags s) k = rx_time fr)
      by (unfold entry_time; by rewrite Hk).
    destruct (Hwhere k ltac:(by eexists)) as [Hin|Hin]; [done|].
    apply Hlate in Hin. unfold expired. lia.
  - done.
  - intros Hemp. split; [by apply Hidle|]. by rewrite Hmem, Hemp, table_mem_empty.
  - pose proof (table_wf_cut s n timer Hwf) as Hcut.
    rewrite table_mem_without in Hmem by done. rewrite <- Hm in Hmem.
    by rewrite Hmem.
Qed.

(** Three flows that arrived at times 0, 1 and 2, swept at time 32:
    the first two are older than 30 s and go, the third stays and the
    timer is armed again. *)
Lemma frag_timeout_sweep_witness :
  table_wf (vstate 3)
  /\ _frags_age (frag_timeout 32 (vstate 3)) = [vkey 2]
  /\ _frag_timer (frag_timeout 32 (vstate 3)) = Some 62
  /\ table_wf (frag_timeout 32 (vstate 3)).
Proof.
  assert (Hwf : table_wf (vstate 3))
    by (apply (bool_decide_unpack _); vm_compute; reflexivity).
  split; [exact Hwf|]. split; [reflexivity|]. split; [reflexivity|].
  exact (proj2 (proj2 (proj2 (proj2 (proj2 (proj2
           (frag_timeout_sweep 32 (vstate 3) Hwf))))))).
Defined.

End table_sweep_vectors.

(** ** Receive: unknown protocols and the header checksum *)

Section receive.

Import ipv4 reasm vectors.

Variable memory : packet -> Z.
Variable data_merge : list (Z * packet) -> Z -> packet -> list (Z * packet).

(** The non-fragment branch drops a datagram of an unregistered
    protocol and leaves the reassembly state alone. *)
Lemma unknown_protocol_dropped_when_atomic now cpu s p from iph :
  get_header 0 ip_hdr.size p = Some iph ->
  ip_hdr.mf (ip_hdr.ntoh iph) = false ->
  ip_hdr.offset (ip_hdr.ntoh iph) = 0 ->
  _l4 s !! ip_hdr.ip_proto (ip_hdr.ntoh iph) = None ->
  (handle_received_packet memory data_merge now cpu s p from).1 = rx_drop
  \/ (handle_received_packet memory data_merge now cpu s p from).1 = rx_filtered.
Proof.
  intros Hh Hmf Hoff Hl4. unfold handle_received_packet. rewrite Hh.
  destruct (_ && _ && _); [by left|].
  destruct (_ <? _); [by left|].
  destruct (ip_packet_len_max <? _); [by left|].
  set (s' := if _ && _ then arp_learn _ _ s else s).
  assert (Hl4' : _l4 s' = _l4 s) by (unfold s'; by destruct (_ && _)).
  clearbody s'.
  destruct (match _packet_filter s' with Some _ => _ | None => _ end); [by right|].
  destruct (negb (_ =? _host_address s')); [by left|].
  rewrite Hmf, Hoff, Hl4', Hl4. by left.
Qed.

End receive.

Section receive_vectors.

Import ipv4 reasm vectors.

(** C6.  [handle_received_packet] does not sum the [ihl * 4] bytes of
    the header: line 87 sums [sizeof(ip_hdr)], the first 20 bytes.
    This ICMP datagram has a header of [ihl * 4 = 24] bytes whose
    one's-complement sum is right, so that its checksum is 0; the
    checksum of its first 20 bytes is 514.  With RX checksum offload
    off the engine drops it and changes nothing; with the offload on,
    where the NIC has checked the header, the same datagram is
    delivered. *)
Theorem rx_checksum_drops_valid_options :
  rx_csum_offload (_hw_features (host hw_sw_csum)) = false
  /\ reassembled (oi icmp_options_valid) = false
  /\ ip_hdr.ihl (ip_hdr.ntoh (take 20 (pbytes icmp_options_valid))) * 4 = 24
  /\ checksum (take 24 (pbytes icmp_options_valid)) = 0
  /\ checksum (take 20 (pbytes icmp_options_valid)) = 514
  /\ handle_received_packet vmemory merger_merge 0 0 (host hw_sw_csum)
       icmp_options_valid peer_mac
     = (rx_drop, host hw_sw_csum)
  /\ (handle_received_packet vmemory merger_merge 0 0 (host hw_rx_offload)
        icmp_options_valid peer_mac).1
     = rx_received ip_protocol_num_icmp
         (mk_packet [[x08; x00; xf7; xff]] no_offload) peer_ip host_ip.
Proof.
  split; [reflexivity|]. split; [reflexivity|]. split; [reflexivity|].
  split; [vm_compute; reflexivity|]. split; [vm_compute; reflexivity|].
  split; [|vm_compute; reflexivity].
  unfold handle_received_packet.
  assert (Hh : get_header 0 ip_hdr.size icmp_options_valid
               = Some (take 20 (pbytes icmp_options_valid)))
    by (vm_compute; reflexivity).
  rewrite Hh.
  assert (Hc : (checksum (take 20 (pbytes icmp_options_valid)) =? 0) = false)
    by (vm_compute; reflexivity).
  rewrite Hc. reflexivity.
Qed.

(** The other way round, a header with options whose sum is wrong is
    accepted when its first 20 bytes happen to sum up: the sum over the
    [ihl * 4 = 24] header bytes of this datagram is not zero, the sum
    over its first 20 bytes is, and the datagram is delivered. *)
Lemma rx_checksum_ignores_options :
  rx_csum_offload (_hw_features (host hw_sw_csum)) = false
  /\ reassembled (oi icmp_with_options) = false
  /\ ip_hdr.ihl (ip_hdr.ntoh (take 20 (pbytes icmp_with_options))) * 4 = 24
  /\ checksum (take 24 (pbytes icmp_with_options)) <> 0
  /\ checksum (take 20 (pbytes icmp_with_options)) = 0
  /\ (handle_received_packet vmemory merger_merge 0 0 (host hw_sw_csum)
        icmp_with_options peer_mac).1
     = rx_received ip_protocol_num_icmp
         (mk_packet [[x08; x00; xf7; xff]] no_offload) peer_ip host_ip.
Proof.
  split; [reflexivity|]. split; [reflexivity|]. split; [reflexivity|].
  split; [vm_compute; discriminate|]. split; vm_compute; reflexivity.
Qed.

(** C2 fails in the reassembly branch.  UDP has no handler in the
    table; the first fragment of a UDP datagram is stored, and the
    second, which completes the entry, makes the engine call
    [received] through the null handler pointer. *)
Theorem reassembled_unknown_protocol_null_deref :
  let s := host hw_sw_csum in
  let r1 := handle_received_packet vmemory merger_merge 0 0 s udp_frag_a
              peer_mac in
  let r2 := handle_received_packet vmemory merger_merge 1 0 r1.2 udp_frag_b
              peer_mac in
  _l4 s !! ip_protocol_num_udp = None
  /\ r1.1 = rx_stored
  /\ r2.1 = rx_null_deref.
Proof. vm_compute. repeat split; reflexivity. Qed.

(** One received fragment: the state is reachable, and the counter
    holds the 20 header bytes and the 8 payload bytes with the
    overhead of their two packets. *)
Lemma frag_mem_is_table_sum_witness :
  let s1 := (handle_received_packet vmemory merger_merge 0 0
               (host hw_sw_csum) udp_frag_a peer_mac).2 in
  _frag_mem s1 = 156
  /\ _frag_mem s1 = u32 (table_mem (_frags s1))
  /\ (table_mem (_frags s1) < 4294967296 -> _frag_mem s1 = table_mem (_frags s1)).
Proof.
  intros s1. split; [reflexivity|].
  apply (frag_mem_is_table_sum vmemory merger_merge s1).
  apply (reach_step _ _ (host hw_sw_csum)).
  - by apply reach_init.
  - apply step_receive.
Defined.

End receive_vectors.

(** ** Transmit: fragmentation in [ipv4::send] *)

Section transmit.

Import ipv4.

Lemma bval_range b : 0 <= bval b < 256.
Proof.
  unfold bval. pose proof (Byte.to_N_bounded b). lia.
Qed.

Lemma bval_byte_of x : bval (byte_of x) = x mod 256.
Proof.
  unfold byte_of, bval, u8.
  pose proof (Z.mod_pos_bound x 256 ltac:(lia)) as Hr.
  destruct (Byte.of_N (Z.to_N (x mod 256))) as [b|] eqn:E.
  - apply Byte.to_of_N in E. rewrite E. lia.
  - apply Byte.of_N_None_iff in E. lia.
Qed.

Lemma be16_put_be16 x :
  be16 (byte_of (Z.shiftr x 8)) (byte_of x) = u16 x.
Proof.
  unfold be16, u16. rewrite !bval_byte_of, Z.shiftr_div_pow2 by lia.
  change (2 ^ 8) with 256. Z.div_mod_to_equations. lia.
Qed.

Lemma u16_small x : 0 <= x < 65536 -> u16 x = x.
Proof. intros. unfold u16. by apply Z.mod_small. Qed.

Lemma length_hton h : length (ip_hdr.hton h) = 20%nat.
Proof. reflexivity. Qed.

(** The flags/offset word written by [hton] is read back by [ntoh]. *)
Lemma ntoh_hton_frag h rest :
  ip_hdr.frag (ip_hdr.ntoh (take 20 (ip_hdr.hton h ++ rest))) = u16 (ip_hdr.frag h).
Proof.
  rewrite (take_app_length' (ip_hdr.hton h) rest 20) by done.
  unfold ip_hdr.ntoh, ip_hdr.hton. simpl. apply be16_put_be16.
Qed.

(** The word [(mf << 13) | off] keeps both of its parts. *)
Lemma frag_word (mf : bool) (off : Z) :
  0 <= off < 8192 ->
  let w := u16 (Z.lor (Z.shiftl (if mf then 1 else 0) ip_hdr.mf_shift) off) in
  u16 w = w /\ Z.testbit w ip_hdr.mf_shift = mf /\ Z.land w 8191 = off.
Proof.
  intros Hoff. unfold ip_hdr.mf_shift.
  assert (Hlor : Z.lor (Z.shiftl (if mf then 1 else 0) 13) off
                 = (if mf then 8192 else 0) + off).
  { destruct mf.
    - change (Z.shiftl 1 13) with 8192.
      rewrite <- Z.add_nocarry_lor; [lia|].
      apply Z.bits_inj'. intros n Hn.
      rewrite Z.land_spec, Z.bits_0.
      destruct (Z.eq_dec n 13) as [->|Hne].
      + assert (Z.testbit off 13 = false) as ->.
        { apply Z.testbit_false; [lia|]. by rewrite Z.div_small by lia. }
        by rewrite andb_false_r.
      + change 8192 with (2 ^ 13). rewrite Z.pow2_bits_false by lia. done.
    - change (Z.shiftl 0 13) with 0. by rewrite Z.lor_0_l. }
  rewrite Hlor. cbv zeta.
  assert (Hsmall : u16 ((if mf then 8192 else 0) + off)
                   = (if mf then 8192 else 0) + off).
  { unfold u16. apply Z.mod_small. destruct mf; lia. }
  rewrite !Hsmall. split; [done|]. split.
  - destruct mf.
    + apply Z.testbit_true; [lia|]. change (2 ^ 13) with 8192.
      Z.div_mod_to_equations. lia.
    + apply Z.testbit_false; [lia|]. change (2 ^ 13) with 8192.
      Z.div_mod_to_equations. lia.
  - change 8191 with (Z.ones 13). rewrite Z.land_ones by lia.
    change (2 ^ 13) with 8192. destruct mf; Z.div_mod_to_equations; lia.
Qed.

Lemma pbytes_send_pkt s to dst proto nf pkt remaining offset :
  exists h,
    pbytes (tx_pkt (send_pkt s to dst proto nf pkt remaining offset))
    = ip_hdr.hton h ++ pbytes pkt
    /\ ip_hdr.frag h
       = (if nf
          then u16 (Z.lor (Z.shiftl (if 0 <? remaining then 1 else 0)
                                    ip_hdr.mf_shift) (offset / 8))
          else 0).
Proof.
  unfold send_pkt. destruct (tx_csum_ip_offload (_hw_features s)).
  - eexists. split; [reflexivity|]. simpl. reflexivity.
  - eexists. split; [reflexivity|]. simpl. reflexivity.
Qed.

Lemma wire_send_pkt_nofrag s to dst proto pkt remaining offset :
  wire_mf (send_pkt s to dst proto false pkt remaining offset) = false
  /\ wire_offset_field (send_pkt s to dst proto false pkt remaining offset) = 0.
Proof.
  unfold wire_mf, wire_offset_field, wire_hdr, ip_hdr.mf.
  destruct (pbytes_send_pkt s to dst proto false pkt remaining offset)
    as (h & -> & Hf).
  rewrite ntoh_hton_frag, Hf. done.
Qed.

Lemma wire_send_pkt_frag s to dst proto pkt remaining offset :
  0 <= offset < 65536 ->
  wire_mf (send_pkt s to dst proto true pkt remaining offset) = (0 <? remaining)
  /\ wire_offset_field (send_pkt s to dst proto true pkt remaining offset)
     = offset / 8.
Proof.
  intros Hoff.
  unfold wire_mf, wire_offset_field, wire_hdr, ip_hdr.mf.
  destruct (pbytes_send_pkt s to dst proto true pkt remaining offset)
    as (h & -> & Hf).
  rewrite ntoh_hton_frag, Hf.
  assert (Hoff8 : 0 <= offset / 8 < 8192) by (Z.div_mod_to_equations; lia).
  destruct (frag_word (0 <? remaining) (offset / 8) Hoff8) as (-> & Hmf & Hlo).
  done.
Qed.

(** The fragmentation loop, from a state with [remaining] bytes left at
    [offset]: it ends, sends [ceil(remaining / (mtu - 20))] frames, the
    [i]-th with offset field [(offset + i * (mtu - 20)) / 8] and with
    MF set unless it is the last. *)
Lemma send_frags_spec s to dst proto p fuel :
  forall remaining offset,
    28 <= mtu (_hw_features s) < 65536 ->
    0 <= remaining -> 0 <= offset -> offset + remaining < 65536 ->
    (Z.to_nat remaining <= fuel)%nat ->
    exists frames,
      send_frags fuel s to dst proto p remaining offset = Some frames
      /\ Z.of_nat (length frames)
         = (remaining + (mtu (_hw_features s) - 20) - 1)
             / (mtu (_hw_features s) - 20)
      /\ forall (i : nat) f,
           frames !! i = Some f ->
           wire_offset_field f
           = (offset + Z.of_nat i * (mtu (_hw_features s) - 20)) / 8
           /\ wire_mf f = bool_decide (S i < length frames)%nat.
Proof.
  set (c := mtu (_hw_features s) - 20).
  induction fuel as [|fuel IH]; intros remaining offset Hmtu Hr Ho Hsum Hfuel.
  - assert (remaining = 0) as -> by lia. exists []. simpl.
    split; [done|]. split; [|done].
    symmetry. apply Z.div_small. lia.
  - simpl. destruct (Z.eqb_spec remaining 0) as [->|Hne].
    { exists []. split; [done|]. split; [|done].
      simpl. symmetry. apply Z.div_small. lia. }
    unfold ipv4_hdr_len_min. fold c.
    rewrite (u16_small c) by lia.
    set (can_send := Z.min c remaining).
    assert (Hcs : 0 < can_send <= remaining) by lia.
    rewrite (u16_small (remaining - can_send)) by lia.
    rewrite (u16_small (offset + can_send)) by lia.
    destruct (IH (remaining - can_send) (offset + can_send))
      as (frames & -> & Hlen & Hfr); [done|lia|lia|lia|lia|].
    eexists. split; [reflexivity|]. simpl length.
    assert (Hdiv : (remaining + c - 1) / c
                   = 1 + (remaining - can_send + c - 1) / c).
    { subst can_send. destruct (Z.min_spec c remaining) as [[? ->]|[? ->]].
      - replace (remaining + c - 1) with (remaining - c + c - 1 + 1 * c) by lia.
        rewrite Z.div_add by lia. lia.
      - replace (remaining - remaining + c - 1) with (c - 1) by lia.
        rewrite (Z.div_small (c - 1)) by lia.
        assert (1 <= (remaining + c - 1) / c < 2); [|lia].
        split.
        + apply Z.div_le_lower_bound; lia.
        + apply Z.div_lt_upper_bound; lia. }
    split; [lia|].
    intros [|i] f Hf; simpl in Hf.
    + injection Hf as <-.
      destruct (wire_send_pkt_frag s to dst proto (share offset can_send p)
                  (remaining - can_send) offset ltac:(lia)) as [-> ->].
      split; [f_equal; lia|].
      destruct (Z.ltb_spec 0 (remaining - can_send)) as [Hmore|Hlast].
      * symmetry. apply bool_decide_eq_true.
        assert (1 <= (remaining - can_send + c - 1) / c)
          by (apply Z.div_le_lower_bound; lia).
        lia.
      * symmetry. apply bool_decide_eq_false.
        assert (remaining - can_send = 0) as Hz by lia. rewrite Hz in Hlen.
        rewrite (Z.div_small (0 + c - 1)) in Hlen by lia. lia.
    + destruct (Hfr i f Hf) as [Hoff Hmf]. split.
      * rewrite Hoff. f_equal.
        assert (can_send = c); [|lia].
        (* a later frame exists, so this one was full *)
        apply lookup_lt_Some in Hf.
        destruct (Z.min_spec c remaining) as [[? E]|[? E]]; [done|].
        fold can_send in E. rewrite E in Hlen.
        replace (remaining - remaining + c - 1) with (c - 1) in Hlen by lia.
        rewrite (Z.div_small (c - 1)) in Hlen by lia. lia.
      * rewrite Hmf. apply bool_decide_ext. lia.
Qed.

(** The number of frames and their flags.  [needs_frag] is false
    exactly when [len + 20 <= MTU] or the segmentation offload of the
    protocol is on, and then [send] produces one frame with MF clear
    and offset field 0.  Otherwise,
    for an MTU of at least 28 that fits 16 bits and a body length below
    [2^16], [send] produces [ceil(len / (MTU - 20))] frames; the offset
    field of the first is 0, the offset fields strictly increase, and
    MF is set on every frame but the last. *)
Theorem send_fragments (fuel : nat) (s : t) (to proto : Z) (p : packet) :
  (needs_frag p proto (_hw_features s) = false
   <-> plen p + 20 <= mtu (_hw_features s)
       \/ (proto = ip_protocol_num_tcp /\ tx_tso (_hw_features s) = true)
       \/ (proto = ip_protocol_num_udp /\ tx_ufo (_hw_features s) = true))
  /\ (needs_frag p proto (_hw_features s) = false ->
      exists f,
        send fuel s to proto p = Some [f]
        /\ wire_mf f = false /\ wire_offset_field f = 0)
  /\ (needs_frag p proto (_hw_features s) = true ->
      28 <= mtu (_hw_features s) < 65536 ->
      plen p < 65536 ->
      (Z.to_nat (plen p) <= fuel)%nat ->
      exists frames,
        send fuel s to proto p = Some frames
        /\ Z.of_nat (length frames)
           = (plen p + (mtu (_hw_features s) - 20) - 1)
               / (mtu (_hw_features s) - 20)
        /\ (forall f, head frames = Some f -> wire_offset_field f = 0)
        /\ (forall (i j : nat) fi fj,
              (i < j)%nat -> frames !! i = Some fi -> frames !! j = Some fj ->
              wire_offset_field fi < wire_offset_field fj)
        /\ (forall (i : nat) f,
              frames !! i = Some f ->
              wire_mf f = bool_decide (S i < length frames)%nat)).
Proof.
  split; [|split].
  - unfold needs_frag, ipv4_hdr_len_min.
    destruct (Z.leb_spec (plen p + 20) (mtu (_hw_features s))); [by intuition|].
    unfold ip_protocol_num_tcp, ip_protocol_num_udp.
    destruct (Z.eqb_spec proto 6) as [Htcp|Htcp];
      destruct (Z.eqb_spec proto 17) as [Hudp|Hudp];
      destruct (tx_tso (_hw_features s)), (tx_ufo (_hw_features s)); simpl;
      (split; [intros; try done; intuition lia
              |intros [?|[[? ?]|[? ?]]]; try done; try lia]).
  - intros Hnf. unfold send. rewrite Hnf.
    eexists. split; [reflexivity|]. apply wire_send_pkt_nofrag.
  - intros Hnf Hmtu Hlen Hfuel. unfold send. rewrite Hnf.
    assert (Hpl : 0 <= plen p) by (unfold plen; lia).
    rewrite (u16_small (plen p)) by lia.
    destruct (send_frags_spec s to
                (if in_my_netmask s to then to else _gw_address s) proto p fuel
                (plen p) 0) as (frames & -> & Hcount & Hfr); try done; try lia.
    exists frames. split; [done|]. split; [done|].
    set (c := mtu (_hw_features s) - 20) in *.
    assert (Hfield : forall (i : nat) f,
               frames !! i = Some f -> wire_offset_field f = Z.of_nat i * c / 8).
    { intros i f Hf. destruct (Hfr i f Hf) as [-> _]. f_equal. }
    split; [|split].
    + intros f Hf. rewrite head_lookup in Hf. by rewrite (Hfield 0%nat f Hf).
    + intros i j fi fj Hij Hi Hj.
      rewrite (Hfield i fi Hi), (Hfield j fj Hj).
      assert (Z.of_nat i * c + 1 * 8 <= Z.of_nat j * c) by nia.
      assert ((Z.of_nat i * c + 1 * 8) / 8 <= Z.of_nat j * c / 8)
        by (apply Z.div_le_mono; lia).
      rewrite Z.div_add in * by lia. lia.
    + intros i f Hf. by destruct (Hfr i f Hf) as [_ ->].
Qed.

End transmit.

Section transmit_vectors.

Import ipv4 vectors.

(** C7.  The offset fields are not the positions of the payloads in
    units of 8 bytes.  Over an MTU of 1400 a frame carries
    [1400 - 20 = 1380] bytes, and [send] cuts the body at bytes 1380
    and 2760 (line 251 does not round [can_send] down to a multiple of
    8) while line 213 writes [offset / 8] into the header: the second
    frame carries the bytes from 1380 on under the offset field 172,
    which stands for byte [172 * 8 = 1376]. *)
Theorem send_offset_fields_miss_payloads :
  let body := pbytes udp_counting_3000 in
  needs_frag udp_counting_3000 ip_protocol_num_udp (_hw_features host_mtu_1400)
  = true
  /\ option_map
       (map (fun f => (wire_mf f, wire_offset_field f,
                       drop 20 (pbytes (tx_pkt f)))))
       (send 3000 host_mtu_1400 peer_ip ip_protocol_num_udp udp_counting_3000)
     = Some [(true, 0, take 1380 body);
             (true, 172, take 1380 (drop 1380 body));
             (false, 345, drop 2760 body)]
  /\ take 1380 (drop 1380 body) <> take 1380 (drop (172 * 8) body).
Proof.
  split; [reflexivity|]. split; [vm_compute; reflexivity|].
  vm_compute. discriminate.
Qed.

(** 3000 bytes of UDP over an MTU of 1500 without UFO: three frames. *)
Lemma send_fragments_witness :
  exists frames,
    send 3000 (host hw_sw_csum) peer_ip ip_protocol_num_udp udp_3000
    = Some frames
    /\ Z.of_nat (length frames) = (3000 + (1500 - 20) - 1) / (1500 - 20)
    /\ (forall f, head frames = Some f -> wire_offset_field f = 0)
    /\ (forall (i j : nat) fi fj,
          (i < j)%nat -> frames !! i = Some fi -> frames !! j = Some fj ->
          wire_offset_field fi < wire_offset_field fj)
    /\ (forall (i : nat) f,
          frames !! i = Some f ->
          wire_mf f = bool_decide (S i < length frames)%nat).
Proof.
  apply (proj2 (proj2 (send_fragments 3000 (host hw_sw_csum) peer_ip
                         ip_protocol_num_udp udp_3000))).
  - reflexivity.
  - simpl. lia.
  - vm_compute. reflexivity.
  - vm_compute. lia.
Defined.

(** Below an MTU of 28 the offset fields do not even grow: over an MTU
    of 24 a body of 8 bytes goes out in two frames of 4 bytes, at byte
    offsets 0 and 4, and both carry the offset field 0. *)
Lemma send_offsets_not_increasing :
  needs_frag udp_8 ip_protocol_num_udp (_hw_features host_mtu_24) = true
  /\ option_map (map (fun f => (wire_mf f, wire_offset_field f)))
       (send 8 host_mtu_24 peer_ip ip_protocol_num_udp udp_8)
     = Some [(true, 0); (false, 0)].
Proof. split; vm_compute; reflexivity. Qed.

(** A body of [2^16] bytes is not sent at all: the 16-bit counter
    [remaining] starts at 0 and no frame is sent. *)
Lemma send_length_wraps :
  needs_frag udp_65536 ip_protocol_num_udp (_hw_features (host hw_sw_csum)) = true
  /\ send (Z.to_nat 65536) (host hw_sw_csum) peer_ip ip_protocol_num_udp
          udp_65536
     = Some [].
Proof. split; vm_compute; reflexivity. Qed.

(** With an MTU of 20 each turn of the loop sends an empty fragment
    and [remaining] stays put: the loop has no end. *)
Lemma send_mtu_20_never_stops (fuel : nat) :
  send fuel host_mtu_20 peer_ip ip_protocol_num_udp udp_8 = None.
Proof.
  unfold send.
  change (needs_frag udp_8 ip_protocol_num_udp (_hw_features host_mtu_20))
    with true.
  cbv iota zeta.
  change (u16 (plen udp_8)) with 8.
  generalize (if in_my_netmask host_mtu_20 peer_ip then peer_ip
              else _gw_address host_mtu_20).
  intros dst. induction fuel as [|fuel IH]; [done|].
  simpl. change (Z.min (u16 (20 - ipv4_hdr_len_min)) 8) with 0.
  change (u16 (8 - 0)) with 8. change (u16 (0 + 0)) with 0.
  by rewrite IH.
Qed.

End transmit_vectors.

(** ** Flow steering: [ipv4::handle_on_cpu] *)

Section steering.

Import ipv4 flows.

Variable frag_id_hash : Z * Z * Z * Z -> Z.
Variable smp_count : Z.

Lemma handle_on_cpu_unfold cpu s p off h :
  header_at p off = Some h ->
  handle_on_cpu frag_id_hash smp_count cpu s p off
  = match _l4 s !! ip_hdr.ip_proto h with
    | None => Some cpu
    | Some l4 =>
        if atomic h
        then Some (forward l4 p (off + ip_hdr.size) (ip_hdr.src_ip h)
                           (ip_hdr.dst_ip h))
        else Some (frag_id_hash (frag_key h) mod smp_count)
    end.
Proof.
  unfold header_at, handle_on_cpu.
  destruct (get_header off ip_hdr.size p) as [bs|]; [|done].
  by intros [= <-].
Qed.

(** C8, amended.  The owning core is a function of the fields of the
    flow: whichever cores [cpu1] and [cpu2] receive them and whatever
    their other header fields and payload, two fragments with the same
    fragment key go to the core [hash(key) mod smp::count], and two
    intact datagrams without IP options ([ihl = 5]) that have the same
    addresses, protocol and ports go to one core, the one that the
    handler of the protocol, steering by the ports, picks at their L4
    header.  A datagram of a protocol without handler stays on the core
    that received it.  (The core of the fragments and the core of the
    intact datagrams of a flow are not related.) *)
Theorem handle_on_cpu_by_flow (cpu1 cpu2 : Z) (s : t) (p1 p2 : packet)
    (off : Z) (h1 h2 : ip_hdr.t) :
  header_at p1 off = Some h1 ->
  header_at p2 off = Some h2 ->
  (_l4 s !! ip_hdr.ip_proto h1 = None ->
   handle_on_cpu frag_id_hash smp_count cpu1 s p1 off = Some cpu1)
  /\ (is_Some (_l4 s !! ip_hdr.ip_proto h1) ->
      atomic h1 = false -> atomic h2 = false ->
      frag_key h1 = frag_key h2 ->
      handle_on_cpu frag_id_hash smp_count cpu1 s p1 off
      = Some (frag_id_hash (frag_key h1) mod smp_count)
      /\ handle_on_cpu frag_id_hash smp_count cpu2 s p2 off
         = handle_on_cpu frag_id_hash smp_count cpu1 s p1 off)
  /\ (forall l4 : ip_protocol,
        _l4 s !! ip_hdr.ip_proto h1 = Some l4 ->
        steers_by_ports l4 ->
        atomic h1 = true -> atomic h2 = true ->
        ip_hdr.ihl h1 = 5 -> ip_hdr.ihl h2 = 5 ->
        flow_of p1 off = flow_of p2 off ->
        handle_on_cpu frag_id_hash smp_count cpu1 s p1 off
        = Some (forward l4 p1 (off + ip_hdr.ihl h1 * 4) (ip_hdr.src_ip h1)
                        (ip_hdr.dst_ip h1))
        /\ handle_on_cpu frag_id_hash smp_count cpu2 s p2 off
           = handle_on_cpu frag_id_hash smp_count cpu1 s p1 off).
Proof.
  intros Hh1 Hh2.
  rewrite (handle_on_cpu_unfold cpu1 s p1 off h1 Hh1).
  rewrite (handle_on_cpu_unfold cpu2 s p2 off h2 Hh2).
  split; [|split].
  - by intros ->.
  - intros [l4 Hl4] Ha1 Ha2 Hkey.
    assert (Hproto : ip_hdr.ip_proto h2 = ip_hdr.ip_proto h1)
      by (unfold frag_key in Hkey; congruence).
    rewrite Hproto, Hl4, Ha1, Ha2, Hkey. done.
  - intros l4 Hl4 Hsteer Ha1 Ha2 Hihl1 Hihl2 Hflow.
    unfold flow_of, l4_ports in Hflow. rewrite Hh1, Hh2 in Hflow.
    injection Hflow as Hsrc Hdst Hproto Hports.
    rewrite Hihl1, Hihl2 in Hports.
    rewrite <- Hproto, Hl4, Ha1, Ha2, Hihl1, <- Hsrc, <- Hdst.
    split; [done|]. f_equal. symmetry. by apply Hsteer.
Qed.

(** The handler of section 4.C steers by the ports. *)
Lemma l4_forward_steers_by_ports n : steers_by_ports (l4_forward n).
Proof. intros p q offp offq src dst Hports. simpl. by rewrite Hports. Qed.

(** A completed datagram goes where [forward] sends its L4 bytes: it
    is delivered on this core if that is the owner, forwarded to the
    owner otherwise. *)
Lemma assembled_goes_to_flow_core cpu s h fr from l4 q rest :
  _l4 s !! ip_hdr.ip_proto h = Some l4 ->
  data fr = q :: rest ->
  let owner := forward l4 q.2 0 (ip_hdr.src_ip h) (ip_hdr.dst_ip h) in
  (owner = cpu ->
   deliver_assembled cpu s h fr from
   = rx_received (ip_hdr.ip_proto h) q.2 (ip_hdr.src_ip h) (ip_hdr.dst_ip h))
  /\ (owner <> cpu ->
      deliver_assembled cpu s h fr from
      = match get_assembled_packet fr from (_hw_address s) with
        | Some pkt => rx_forwarded owner pkt
        | None => rx_null_deref
        end).
Proof.
  intros Hl4 Hdata owner. unfold deliver_assembled.
  rewrite Hl4, Hdata. destruct q as [o q]. simpl in *. fold owner.
  split; intros Hc.
  - by rewrite (proj2 (Z.eqb_eq owner cpu) Hc).
  - by rewrite (proj2 (Z.eqb_neq owner cpu) Hc).
Qed.

End steering.

Section steering_vectors.

Import ipv4 flows vectors.

(** Two first fragments of the first TCP flow, received on cores 0
    and 3: both are sent to the core of their fragment key.  And the
    intact segment of that flow, received on cores 0 and 3: both times
    it is sent to the core of its ports. *)
Lemma handle_on_cpu_by_flow_witness :
  (handle_on_cpu vhash cores 0 (host hw_sw_csum) tcp_first_frag_1 0
   = Some (vhash (frag_key (tcp_hdr 8192)) mod cores)
   /\ handle_on_cpu vhash cores 3 (host hw_sw_csum) tcp_first_frag_1 0
      = handle_on_cpu vhash cores 0 (host hw_sw_csum) tcp_first_frag_1 0)
  /\ (handle_on_cpu vhash cores 0 (host hw_sw_csum) tcp_atomic_1 0
      = Some (forward (l4_forward cores) tcp_atomic_1
                      (0 + ip_hdr.ihl (tcp_hdr 0) * 4) peer_ip host_ip)
      /\ handle_on_cpu vhash cores 3 (host hw_sw_csum) tcp_atomic_1 0
         = handle_on_cpu vhash cores 0 (host hw_sw_csum) tcp_atomic_1 0).
Proof.
  split.
  - refine (proj1 (proj2 (handle_on_cpu_by_flow vhash cores 0 3
                            (host hw_sw_csum) tcp_first_frag_1 tcp_first_frag_1
                            0 (tcp_hdr 8192) (tcp_hdr 8192) _ _)) _ _ _ _).
    + vm_compute. reflexivity.
    + vm_compute. reflexivity.
    + exists (l4_forward cores). reflexivity.
    + vm_compute. reflexivity.
    + vm_compute. reflexivity.
    + reflexivity.
  - refine (proj2 (proj2 (handle_on_cpu_by_flow vhash cores 0 3
                            (host hw_sw_csum) tcp_atomic_1 tcp_atomic_1
                            0 (tcp_hdr 0) (tcp_hdr 0) _ _))
                  (l4_forward cores) _ _ _ _ _ _ _).
    + vm_compute. reflexivity.
    + vm_compute. reflexivity.
    + reflexivity.
    + apply l4_forward_steers_by_ports.
    + vm_compute. reflexivity.
    + vm_compute. reflexivity.
    + reflexivity.
    + reflexivity.
    + reflexivity.
Defined.

(** What the amended statement leaves out: [handle_on_cpu] hands the
    handler the offset [off + sizeof(ip_hdr)] (line 52), not
    [off + ihl * 4], so that for a datagram with IP options the handler
    reads option bytes for ports.  The intact segment of the first flow
    goes to core 2 without options and to core 1 with them. *)
Lemma options_move_flow_to_other_core :
  flow_of tcp_atomic_1 0 = flow_of tcp_atomic_1_options 0
  /\ l4_ports tcp_atomic_1_options 0 = tcp_ports_1
  /\ handle_on_cpu vhash cores 0 (host hw_sw_csum) tcp_atomic_1 0 = Some 2
  /\ handle_on_cpu vhash cores 0 (host hw_sw_csum) tcp_atomic_1_options 0
     = Some 1.
Proof. repeat split; vm_compute; reflexivity. Qed.

(** With the fragment-key hash of the vectors the intact segment of
    the first flow is owned by core 2 and its first fragment by
    core 3. *)
Lemma atomic_and_fragment_cores :
  flow_of tcp_atomic_1 0 = flow_of tcp_first_frag_1 0
  /\ handle_on_cpu vhash cores 0 (host hw_sw_csum) tcp_atomic_1 0 = Some 2
  /\ handle_on_cpu vhash cores 0 (host hw_sw_csum) tcp_first_frag_1 0 = Some 3.
Proof. repeat split; vm_compute; reflexivity. Qed.

(** C8, as stated, fails whatever the fragment-key hash: no hash
    makes every packet of a flow, intact or fragment, go to one core.
    The two flows of the vectors differ in a port only, so their first
    fragments share the fragment key and the core, while their intact
    segments go to cores 2 and 1. *)
Lemma no_hash_unites_flow_cores :
  ~ exists frag_id_hash : Z * Z * Z * Z -> Z,
      forall p q : packet,
        is_Some (flow_of p 0) -> flow_of p 0 = flow_of q 0 ->
        handle_on_cpu frag_id_hash cores 0 (host hw_sw_csum) p 0
        = handle_on_cpu frag_id_hash cores 0 (host hw_sw_csum) q 0.
Proof.
  intros [fh Hall].
  pose proof (Hall tcp_atomic_1 tcp_first_frag_1
                ltac:(vm_compute; eauto) ltac:(vm_compute; reflexivity)) as H1.
  pose proof (Hall tcp_atomic_2 tcp_first_frag_2
                ltac:(vm_compute; eauto) ltac:(vm_compute; reflexivity)) as H2.
  assert (Hf : handle_on_cpu fh cores 0 (host hw_sw_csum) tcp_first_frag_1 0
               = handle_on_cpu fh cores 0 (host hw_sw_csum) tcp_first_frag_2 0)
    by (vm_compute; reflexivity).
  rewrite <- H1, <- H2 in Hf. vm_compute in Hf. discriminate.
Qed.

End steering_vectors.

(** ** Reassembly: split, then merge *)

Section packet_bytes.

Lemma concat_frags_drop fs : forall n, concat (frags_drop n fs) = drop n (concat fs).
Proof.
  induction fs as [|f fs IH]; intros [|n]; try done.
  simpl frags_drop. simpl concat.
  destruct (Nat.leb_spec (length f) (S n)) as [Hle|Hgt].
  - by rewrite IH, drop_app_ge.
  - by rewrite drop_app_le by lia.
Qed.

Lemma concat_frags_take fs : forall n, concat (frags_take n fs) = take n (concat fs).
Proof.
  induction fs as [|f fs IH]; intros [|n]; try done.
  simpl frags_take. simpl concat.
  destruct (Nat.leb_spec (length f) (S n)) as [Hle|Hgt].
  - simpl concat. by rewrite IH, take_app_ge.
  - simpl concat. by rewrite app_nil_r, take_app_le by lia.
Qed.

Lemma pbytes_trim_front n p :
  pbytes (trim_front n p) = drop (Z.to_nat n) (pbytes p).
Proof. apply concat_frags_drop. Qed.

Lemma pbytes_share offset len p :
  pbytes (share offset len p)
  = take (Z.to_nat len) (drop (Z.to_nat offset) (pbytes p)).
Proof.
  unfold share, pbytes. simpl. by rewrite concat_frags_take, concat_frags_drop.
Qed.

Lemma pbytes_append p q : pbytes (append p q) = pbytes p ++ pbytes q.
Proof. unfold append, pbytes. simpl. apply concat_app. Qed.

Lemma pbytes_prepend_header hdr p :
  pbytes (prepend_header hdr p) = hdr ++ pbytes p.
Proof. reflexivity. Qed.

Lemma plen_nonneg p : 0 <= plen p.
Proof. unfold plen. lia. Qed.

Lemma plen_append p q : plen (append p q) = plen p + plen q.
Proof. unfold plen. rewrite pbytes_append, length_app. lia. Qed.

Lemma plen_trim_front n p :
  0 <= n <= plen p -> plen (trim_front n p) = plen p - n.
Proof.
  intros Hn. unfold plen in *. rewrite pbytes_trim_front, length_drop. lia.
Qed.

Lemma length_bytes_mapi g bs : forall i, length (bytes_mapi g i bs) = length bs.
Proof. induction bs as [|b bs IH]; intros i; simpl; [done|]. by rewrite IH. Qed.

Lemma bytes_mapi_app g bs1 bs2 i :
  bytes_mapi g i (bs1 ++ bs2)
  = bytes_mapi g i bs1 ++ bytes_mapi g (i + length bs1) bs2.
Proof.
  revert i. induction bs1 as [|b bs1 IH]; intros i; simpl.
  - by rewrite Nat.add_0_r.
  - rewrite IH. do 3 f_equal. lia.
Qed.

Lemma concat_frags_mapi g fs :
  forall i, concat (frags_mapi g i fs) = bytes_mapi g i (concat fs).
Proof.
  induction fs as [|f fs IH]; intros i; simpl; [done|].
  by rewrite IH, bytes_mapi_app.
Qed.

Lemma pbytes_mapi g fs o :
  pbytes (mk_packet (frags_mapi g 0 fs) o) = bytes_mapi g 0 (concat fs).
Proof. apply concat_frags_mapi. Qed.

(** A write that touches no byte from index [n] on leaves the bytes
    from [n] on as they were. *)
Lemma bytes_mapi_id g bs :
  forall i, (forall j b, (i <= j)%nat -> g j b = b) -> bytes_mapi g i bs = bs.
Proof.
  induction bs as [|b bs IH]; intros i Hg; simpl; [done|].
  rewrite Hg by lia. f_equal. apply IH. intros j b' Hj. apply Hg. lia.
Qed.

Lemma drop_bytes_mapi g n bs :
  (forall j b, (n <= j)%nat -> g j b = b) ->
  drop n (bytes_mapi g 0 bs) = drop n bs.
Proof.
  intros Hg. rewrite <- (take_drop n bs) at 1. rewrite bytes_mapi_app.
  rewrite drop_app_ge by (rewrite length_bytes_mapi, length_take; lia).
  rewrite length_bytes_mapi, length_take. simpl.
  destruct (le_lt_dec n (length bs)) as [Hle|Hgt].
  - rewrite Nat.min_l by lia. rewrite Nat.sub_diag. simpl.
    apply bytes_mapi_id. intros j b Hj. apply Hg. lia.
  - rewrite (drop_ge bs n) by lia. simpl. apply drop_nil.
Qed.

End packet_bytes.

Section merger_invariants.

Import ipv4 reassembly.

Variable D : list byte.

(** Two stretches of [D] that touch or overlap join into one. *)
Lemma seg_join (a la b lb : nat) :
  (a <= b)%nat -> (b <= a + la)%nat -> (a + la <= b + lb)%nat ->
  take la (drop a D) ++ drop (a + la - b) (take lb (drop b D))
  = take (b + lb - a) (drop a D).
Proof.
  intros Hab Hb Hend.
  replace lb with ((a + la - b) + (b + lb - (a + la)))%nat at 1 by lia.
  rewrite <- take_drop_commute, drop_drop.
  replace (b + (a + la - b))%nat with (a + la)%nat by lia.
  rewrite <- (drop_drop D la a), take_take_drop.
  f_equal. lia.
Qed.

Lemma agrees_length (r : Z * packet) :
  agrees D r ->
  (Z.to_nat r.1 + length (pbytes r.2) <= length D)%nat.
Proof. intros (H0 & Hend & _). unfold plen in Hend. lia. Qed.

(** The join of two ranges that touch or overlap, the first starting
    no later than the second. *)
Lemma join_agrees a pa b pb :
  agrees D (a, pa) -> agrees D (b, pb) ->
  a <= b -> b <= a + plen pa ->
  let q := if b + plen pb <=? a + plen pa then pa
           else append pa (trim_front (a + plen pa - b) pb) in
  agrees D (a, q) /\ a + plen q = Z.max (a + plen pa) (b + plen pb).
Proof.
  intros Ha Hb Hab Htouch q. subst q.
  pose proof (agrees_length _ Ha) as Hla. pose proof (agrees_length _ Hb) as Hlb.
  destruct Ha as (Ha0 & Haend & Habytes). destruct Hb as (Hb0 & Hbend & Hbbytes).
  simpl in *.
  destruct (Z.leb_spec (b + plen pb) (a + plen pa)) as [Hin|Hout].
  - split; [done|lia].
  - unfold plen in *.
    assert (Hbytes : pbytes (append pa (trim_front
                       (a + Z.of_nat (length (pbytes pa)) - b) pb))
                     = take (Z.to_nat b + length (pbytes pb) - Z.to_nat a)
                            (drop (Z.to_nat a) D)).
    { rewrite pbytes_append, pbytes_trim_front, Habytes, Hbbytes.
      rewrite !length_take, !length_drop.
      rewrite !Nat.min_l by lia.
      replace (Z.to_nat (a + Z.of_nat (length (pbytes pa)) - b))
        with (Z.to_nat a + length (pbytes pa) - Z.to_nat b)%nat by lia.
      apply seg_join; lia. }
    assert (Hlen : length (pbytes (append pa (trim_front
                     (a + Z.of_nat (length (pbytes pa)) - b) pb)))
                   = (Z.to_nat b + length (pbytes pb) - Z.to_nat a)%nat).
    { rewrite Hbytes, length_take, length_drop. lia. }
    split; [|rewrite Hlen; lia].
    unfold agrees, plen. simpl. rewrite Hlen. repeat split; [done|lia|done].
Qed.

Lemma coalesce_agrees a pa b pb :
  agrees D (a, pa) -> agrees D (b, pb) ->
  ~ a + plen pa < b -> ~ b + plen pb < a ->
  agrees D (coalesce a pa b pb)
  /\ (coalesce a pa b pb).1 = Z.min a b
  /\ (coalesce a pa b pb).1 + plen (coalesce a pa b pb).2
     = Z.max (a + plen pa) (b + plen pb).
Proof.
  intros Ha Hb Hab Hba. unfold coalesce.
  destruct (Z.leb_spec a b) as [Hle|Hgt]; simpl.
  - destruct (join_agrees a pa b pb) as [Hag Hend]; try done; try lia.
    repeat split; [apply Hag..|lia|lia].
  - destruct (join_agrees b pb a pa) as [Hag Hend]; try done; try lia.
    repeat split; [apply Hag..|lia|lia].
Qed.

Lemma merger_merge_nonempty m off p : merger_merge m off p <> [].
Proof.
  revert off p. induction m as [|[o1 q] rest IH]; intros off p; simpl; [done|].
  destruct (_ <? _); [done|]. destruct (_ <? _); [done|].
  destruct (coalesce off p o1 q). apply IH.
Qed.

Lemma covered_cons r m z :
  covered (r :: m) z <-> (r.1 <= z < r.1 + plen r.2) \/ covered m z.
Proof. unfold covered. apply Exists_cons. Qed.

Lemma covered_nil z : ~ covered [] z.
Proof. unfold covered. intros H. by apply Exists_nil in H. Qed.

Lemma touched_cons r m z :
  touched (r :: m) z <-> (r.1 <= z <= r.1 + plen r.2) \/ touched m z.
Proof. unfold touched. apply Exists_cons. Qed.

Lemma touched_nil z : ~ touched [] z.
Proof. unfold touched. intros H. by apply Exists_nil in H. Qed.

(** One merge keeps the ranges in agreement with [D] and apart, keeps
    every lower bound on the offsets that the new range respects, and
    adds to the covered bytes exactly those of the new range. *)
Lemma merger_merge_inv m :
  forall off p,
    Forall (agrees D) m -> separated m -> agrees D (off, p) ->
    Forall (agrees D) (merger_merge m off p)
    /\ separated (merger_merge m off p)
    /\ (forall bnd, bnd < off -> Forall (fun r => bnd < r.1) m ->
                    Forall (fun r => bnd < r.1) (merger_merge m off p))
    /\ (forall z, covered (merger_merge m off p) z
                  <-> covered m z \/ off <= z < off + plen p)
    /\ (forall z, touched (merger_merge m off p) z
                  <-> touched m z \/ off <= z <= off + plen p)
    /\ (forall r, r ∈ merger_merge m off p ->
                  r.1 = off \/ exists r', r' ∈ m /\ r'.1 = r.1).
Proof.
  induction m as [|[o1 q] rest IH]; intros off p Hag Hsep Hp; simpl.
  - split; [by apply Forall_singleton|]. split; [done|].
    split; [|split; [|split]].
    + intros bnd Hb _. by apply Forall_singleton.
    + intros z. split.
      * intros Hc. apply covered_cons in Hc as [Hc|Hc]; [by right|].
        by apply covered_nil in Hc.
      * intros [Hc|Hc]; [by apply covered_nil in Hc|].
        apply covered_cons. by left.
    + intros z. split.
      * intros Hc. apply touched_cons in Hc as [Hc|Hc]; [by right|].
        by apply touched_nil in Hc.
      * intros [Hc|Hc]; [by apply touched_nil in Hc|].
        apply touched_cons. by left.
    + intros r Hr. apply list_elem_of_singleton in Hr as ->. by left.
  - apply Forall_cons in Hag as [Hq Hag]. destruct Hsep as [Hgap Hsep].
    simpl in Hgap.
    pose proof (plen_nonneg p) as Hpl. pose proof (plen_nonneg q) as Hql.
    destruct (Z.ltb_spec (off + plen p) o1) as [Hbefore|Hnb].
    { split; [|split; [|split; [|split; [|split]]]].
      - by repeat apply Forall_cons_2.
      - simpl. split; [|done].
        apply Forall_cons_2; [simpl; lia|].
        eapply Forall_impl; [exact Hgap|]. simpl. intros r Hr. lia.
      - intros bnd Hb Hall. by apply Forall_cons_2.
      - intros z. split.
        + intros Hc. apply covered_cons in Hc as [Hc|Hc]; [by right|by left].
        + intros [Hc|Hc]; apply covered_cons; [by right|by left].
      - intros z. split.
        + intros Hc. apply touched_cons in Hc as [Hc|Hc]; [by right|by left].
        + intros [Hc|Hc]; apply touched_cons; [by right|by left].
      - intros r Hr. apply elem_of_cons in Hr as [->|Hr]; [by left|].
        right. by exists r. }
    destruct (Z.ltb_spec (o1 + plen q) off) as [Hafter|Hna].
    { destruct (IH off p Hag Hsep Hp)
        as (Hag' & Hsep' & Hbnd' & Hcov' & Htou' & Hst').
      split; [|split; [|split; [|split; [|split]]]].
      - by apply Forall_cons_2.
      - simpl. split; [|done]. by apply Hbnd'.
      - intros bnd Hb Hall. apply Forall_cons in Hall as [Hb1 Hall].
        apply Forall_cons_2; [done|]. by apply Hbnd'.
      - intros z. split.
        + intros Hc. apply covered_cons in Hc as [Hc|Hc].
          * left. apply covered_cons. by left.
          * apply Hcov' in Hc as [Hc|Hc]; [|by right].
            left. apply covered_cons. by right.
        + intros [Hc|Hc]; apply covered_cons.
          * apply covered_cons in Hc as [Hc|Hc]; [by left|].
            right. apply Hcov'. by left.
          * right. apply Hcov'. by right.
      - intros z. split.
        + intros Hc. apply touched_cons in Hc as [Hc|Hc].
          * left. apply touched_cons. by left.
          * apply Htou' in Hc as [Hc|Hc]; [|by right].
            left. apply touched_cons. by right.
        + intros [Hc|Hc]; apply touched_cons.
          * apply touched_cons in Hc as [Hc|Hc]; [by left|].
            right. apply Htou'. by left.
          * right. apply Htou'. by right.
      - intros r Hr. apply elem_of_cons in Hr as [->|Hr].
        + right. exists (o1, q). split; [by left|done].
        + destruct (Hst' r Hr) as [Hs|(r' & Hr' & Hs)]; [by left|].
          right. exists r'. split; [by right|done]. }
    destruct (coalesce_agrees off p o1 q Hp Hq ltac:(lia) ltac:(lia))
      as (Hj & Hstart & Hend).
    destruct (coalesce off p o1 q) as [o' p'] eqn:Hco. simpl in *.
    destruct (IH o' p' Hag Hsep Hj)
      as (Hag' & Hsep' & Hbnd' & Hcov' & Htou' & Hst').
    split; [done|]. split; [done|]. split; [|split; [|split]].
    + intros bnd Hb Hall. apply Forall_cons in Hall as [Hb1 Hall].
      apply Hbnd'; [simpl in Hb1; lia|done].
    + intros z. split.
      * intros Hc. apply Hcov' in Hc as [Hc|Hc].
        -- left. apply covered_cons. by right.
        -- destruct (Z.lt_ge_cases z off) as [Hlt|Hge].
           ++ left. apply covered_cons. left. simpl. lia.
           ++ destruct (Z.lt_ge_cases z (off + plen p)) as [Hin|Hout];
                [by right|].
              left. apply covered_cons. left. simpl. lia.
      * intros [Hc|Hc]; apply Hcov'.
        -- apply covered_cons in Hc as [Hc|Hc]; [|by left].
           right. simpl in Hc. lia.
        -- right. lia.
    + intros z. split.
      * intros Hc. apply Htou' in Hc as [Hc|Hc].
        -- left. apply touched_cons. by right.
        -- destruct (Z.lt_ge_cases z off) as [Hlt|Hge].
           ++ left. apply touched_cons. left. simpl. lia.
           ++ destruct (Z.le_gt_cases z (off + plen p)) as [Hin|Hout];
                [by right|].
              left. apply touched_cons. left. simpl. lia.
      * intros [Hc|Hc]; apply Htou'.
        -- apply touched_cons in Hc as [Hc|Hc]; [|by left].
           right. simpl in Hc. lia.
        -- right. lia.
    + intros r Hr. destruct (Hst' r Hr) as [Hs|(r' & Hr' & Hs)].
      * destruct (Z.min_spec off o1) as [[_ Hm]|[_ Hm]].
        -- left. lia.
        -- right. exists (o1, q). split; [by left|]. simpl. lia.
      * right. exists r'. split; [by right|done].
Qed.

(** Ranges that agree with [D], lie apart and cover all of [D] are a
    single range at offset 0 holding [D]. *)
Lemma covering_is_single m :
  m <> [] -> Forall (agrees D) m -> separated m ->
  (forall z, 0 <= z < Z.of_nat (length D) -> covered m z) ->
  exists q, m = [(0, q)] /\ pbytes q = D.
Proof.
  intros Hne Hag Hsep Hcov.
  destruct m as [|[o q] rest]; [done|].
  apply Forall_cons in Hag as [Hq Hag]. destruct Hsep as [Hgap _].
  simpl in Hgap.
  pose proof (agrees_length _ Hq) as Hlen.
  destruct Hq as (Ho & Hend & Hbytes). simpl in *. unfold plen in *.
  assert (Hrest : rest = []).
  { destruct rest as [|[o2 q2] rest']; [done|]. exfalso.
    apply Forall_cons in Hgap as [Hg2 Hgap].
    apply Forall_cons in Hag as [(H20 & H2end & _) _]. simpl in *.
    unfold plen in *.
    assert (Hz : 0 <= o + Z.of_nat (length (pbytes q)) < Z.of_nat (length D))
      by lia.
    apply Hcov, covered_cons in Hz as [Hz|Hz]; [simpl in Hz; unfold plen in Hz; lia|].
    apply covered_cons in Hz as [Hz|Hz]; [simpl in Hz; lia|].
    apply Exists_exists in Hz as (r & Hr & Hz).
    rewrite Forall_forall in Hgap. specialize (Hgap r Hr). simpl in Hgap. lia. }
  subst rest.
  destruct (decide (length D = 0%nat)) as [Hz|Hnz].
  - assert (o = 0) as -> by lia. exists q. split; [done|].
    apply nil_length_inv in Hz. rewrite Hz in *.
    apply nil_length_inv. simpl in *. lia.
  - assert (Hfirst : covered [(o, q)] 0) by (apply Hcov; lia).
    assert (Hlast : covered [(o, q)] (Z.of_nat (length D) - 1))
      by (apply Hcov; lia).
    apply covered_cons in Hfirst as [Hfirst|Hfirst];
      [|by apply covered_nil in Hfirst].
    apply covered_cons in Hlast as [Hlast|Hlast];
      [|by apply covered_nil in Hlast].
    simpl in *. unfold plen in *.
    assert (o = 0) as -> by lia. exists q. split; [done|].
    rewrite Hbytes. simpl. apply take_ge. lia.
Qed.

End merger_invariants.

(** ** Reassembly: split, then merge *)

Section reassembly_roundtrip.

Import ipv4 reassembly.

Variable memory : packet -> Z.

Let well_headed (hp : ip_hdr.t * packet) : Prop :=
  hp.1 = ip_hdr.ntoh (take 20 (pbytes hp.2))
  /\ 5 <= ip_hdr.ihl hp.1
  /\ ip_hdr.ihl hp.1 * 4 <= plen hp.2.

Lemma pbytes_range_of hp : pbytes (range_of hp).2 = payload hp.
Proof. unfold range_of, payload. simpl. by rewrite pbytes_trim_front. Qed.

Lemma plen_range_of hp :
  plen (range_of hp).2 = Z.of_nat (length (payload hp)).
Proof. unfold plen. by rewrite pbytes_range_of. Qed.

(** The pieces of a split agree with the payload they were cut from
    and hold every byte of it. *)
Lemma split_from_agrees pieces :
  forall (D0 : list byte),
    split_from (Z.of_nat (length D0)) pieces ->
    forall D1,
      let D := D0 ++ concat (map payload pieces) ++ D1 in
      Forall well_headed pieces
      /\ Forall (fun hp => agrees D (range_of hp)) pieces
      /\ (forall z,
            Z.of_nat (length D0) <= z
            < Z.of_nat (length D0 + length (concat (map payload pieces))) ->
            Exists (fun hp => holds hp z) pieces).
Proof.
  induction pieces as [|hp rest IH]; intros D0 Hsplit D1 D.
  - split; [done|]. split; [done|]. simpl. intros z Hz. lia.
  - destruct Hsplit as (Htie & Hhl & Hlen & Hoff & _ & Hrest).
    assert (Hwh : well_headed hp) by done.
    pose proof (pbytes_range_of hp) as Hpl.
    specialize (IH (D0 ++ payload hp)).
    rewrite length_app, Nat2Z.inj_add in IH.
    specialize (IH Hrest D1). simpl in IH.
    destruct IH as (Hwhs & Hags & Hcov).
    assert (HD : D = (D0 ++ payload hp)
                       ++ concat (map payload rest) ++ D1).
    { unfold D. simpl. by rewrite <- !app_assoc. }
    split; [by apply Forall_cons_2|]. split.
    + apply Forall_cons_2; [|by rewrite HD].
      unfold agrees, plen. rewrite Hpl. simpl. rewrite Hoff.
      repeat split.
      * lia.
      * unfold D. simpl. rewrite !length_app. lia.
      * rewrite Nat2Z.id. unfold D. simpl.
        rewrite drop_app_length, <- app_assoc. by rewrite take_app_length.
    + intros z Hz. simpl in Hz. rewrite length_app in Hz.
      destruct (Z.lt_ge_cases z (Z.of_nat (length D0)
                                 + Z.of_nat (length (payload hp))))
        as [Hin|Hout].
      * apply Exists_cons_hd. unfold holds, plen. rewrite Hpl. simpl. lia.
      * apply Exists_cons_tl, Hcov. lia.
Qed.

(** The fragment with MF clear is the last one: it ends where the
    datagram ends. *)
Lemma split_from_last pieces :
  forall off hp,
    split_from off pieces -> hp ∈ pieces -> ip_hdr.mf hp.1 = false ->
    (range_of hp).1 + plen (range_of hp).2
    = off + Z.of_nat (length (concat (map payload pieces))).
Proof.
  induction pieces as [|hp0 rest IH]; intros off hp Hsplit Hin Hmf.
  - by apply elem_of_nil in Hin.
  - destruct Hsplit as (Htie & Hhl & Hlen & Hoff & Hmf0 & Hrest).
    cbn [map concat]. rewrite length_app.
    apply elem_of_cons in Hin as [->|Hin].
    + rewrite Hmf in Hmf0. destruct rest; [|done].
      rewrite plen_range_of. simpl. lia.
    + rewrite (IH _ hp Hrest Hin Hmf). lia.
Qed.

Lemma split_from_starts pieces :
  forall off,
    split_from off pieces ->
    Forall (fun hp => off <= (range_of hp).1) pieces.
Proof.
  induction pieces as [|hp0 rest IH]; intros off Hsplit; [done|].
  destruct Hsplit as (Htie & Hhl & Hlen & Hoff & Hmf0 & Hrest).
  apply Forall_cons_2; [simpl; lia|].
  eapply Forall_impl; [by apply IH|]. simpl. intros hp Hhp. lia.
Qed.

(** Fragments of a split that together hold every byte of the datagram
    have, in offset order, the payloads of all fragments: the others
    are empty. *)
Lemma sublist_holding_all sub pieces :
  sub `sublist_of` pieces ->
  forall off,
    split_from off pieces ->
    (forall z,
       off <= z < off + Z.of_nat (length (concat (map payload pieces))) ->
       Exists (fun hp => holds hp z) sub) ->
    concat (map payload sub) = concat (map payload pieces).
Proof.
  induction 1 as [|hp sub pieces Hsub IH|hp sub pieces Hsub IH];
    intros off Hsplit Hcov; [done| |].
  - destruct Hsplit as (Htie & Hhl & Hlen & Hoff & Hmf0 & Hrest). simpl.
    f_equal. apply (IH _ Hrest). intros z Hz.
    assert (Hz' : off <= z < off + Z.of_nat (length (concat
                    (map payload (hp :: pieces)))))
      by (simpl; rewrite length_app; lia).
    apply Hcov, Exists_cons in Hz' as [Hh|Hh]; [|done].
    unfold holds in Hh. rewrite plen_range_of in Hh.
    simpl in Hh. lia.
  - destruct Hsplit as (Htie & Hhl & Hlen & Hoff & Hmf0 & Hrest). simpl.
    pose proof (split_from_starts pieces _ Hrest) as Hstarts.
    assert (Hempty : payload hp = []).
    { destruct (payload hp) as [|b pl] eqn:Hpl; [done|]. exfalso.
      assert (Hz : off <= off < off + Z.of_nat (length (concat
                     (map payload (hp :: pieces)))))
        by (simpl; rewrite length_app, Hpl; simpl; lia).
      apply Hcov, Exists_exists in Hz as (hp' & Hin & Hh).
      apply (elem_of_sublist _ _ _ Hin) in Hsub.
      rewrite Forall_forall in Hstarts. specialize (Hstarts hp' Hsub).
      simpl in Hstarts. unfold holds in Hh. simpl in Hh, Hstarts. lia. }
    cbn [map concat] in Hcov. rewrite Hempty. rewrite Hempty in Hrest, Hcov.
    simpl in Hrest, Hcov. rewrite Z.add_0_r in Hrest.
    by apply (IH off).
Qed.

Lemma data_receive_fragment now fr hp :
  data (receive_fragment memory merger_merge now fr hp)
  = merger_merge (data fr) (range_of hp).1 (range_of hp).2.
Proof.
  unfold receive_fragment, frag_merge, frag_touch, range_of. simpl.
  destruct (ip_hdr.mf hp.1); simpl; by destruct (_ =? 0).
Qed.

Lemma last_receive_fragment now fr hp :
  last_frag_received (receive_fragment memory merger_merge now fr hp)
  = last_frag_received fr || negb (ip_hdr.mf hp.1).
Proof.
  unfold receive_fragment, frag_merge, frag_touch. simpl.
  destruct (ip_hdr.mf hp.1); simpl; destruct (_ =? 0); simpl;
    by rewrite ?orb_false_r, ?orb_true_r.
Qed.

Lemma header_receive_fragment now fr hp :
  header (receive_fragment memory merger_merge now fr hp)
  = if ip_hdr.offset hp.1 =? 0 then share 0 (ip_hdr.ihl hp.1 * 4) hp.2
    else header fr.
Proof.
  unfold receive_fragment, frag_merge, frag_touch. simpl.
  destruct (ip_hdr.offset hp.1 =? 0); [done|].
  destruct (ip_hdr.mf hp.1); simpl; by destruct (_ =? 0).
Qed.

(** The entry stored by [frag_insert] is the old entry after
    [receive_fragment]. *)
Lemma frag_insert_receives data_merge now h p s :
  (frag_insert memory data_merge now h (ip_hdr.offset h) p s).2
  = receive_fragment memory data_merge now
      (frags_at (_frags s) (ip_hdr.src_ip h, ip_hdr.dst_ip h, ip_hdr.id h,
                            ip_hdr.ip_proto h)).2 (h, p).
Proof.
  unfold frag_insert, receive_fragment.
  by destruct (frags_at (_frags s) _) as [fs fr0].
Qed.

(** An entry with a range at offset 0 keeps the header of a fragment
    of [pool] that came in at offset 0. *)
Let headed (pool : list (ip_hdr.t * packet)) (fr : frag) : Prop :=
  Exists (fun r => r.1 = 0) (data fr) ->
  exists hp0, hp0 ∈ pool /\ ip_hdr.offset hp0.1 = 0
              /\ header fr = share 0 (ip_hdr.ihl hp0.1 * 4) hp0.2.

(** The entry after the fragments of [received] have come in. *)
Lemma foldl_receive_inv (D : list byte) now pool received :
  forall fr,
    (forall hp, hp ∈ received -> hp ∈ pool) ->
    Forall (fun hp => agrees D (range_of hp)) received ->
    Forall (agrees D) (data fr) -> separated (data fr) ->
    headed pool fr ->
    let fr' := foldl (receive_fragment memory merger_merge now) fr received in
    Forall (agrees D) (data fr') /\ separated (data fr')
    /\ (forall z, covered (data fr') z
                  <-> covered (data fr) z \/ Exists (fun hp => holds hp z) received)
    /\ (forall z, touched (data fr') z
                  <-> touched (data fr) z
                      \/ Exists (fun hp => (range_of hp).1 <= z
                                   <= (range_of hp).1 + plen (range_of hp).2)
                                received)
    /\ (received <> [] -> data fr' <> [])
    /\ last_frag_received fr'
       = last_frag_received fr
         || existsb (fun hp => negb (ip_hdr.mf hp.1)) received
    /\ headed pool fr'.
Proof.
  induction received as [|hp received IH];
    intros fr Hpool Hag Hdata Hsep Hhdr; simpl.
  - split; [done|]. split; [done|].
    split; [|split; [|split; [done|split; [|done]]]].
    + intros z. split; [by left|]. intros [Hc|Hc]; [done|].
      by apply Exists_nil in Hc.
    + intros z. split; [by left|]. intros [Hc|Hc]; [done|].
      by apply Exists_nil in Hc.
    + by rewrite orb_false_r.
  - apply Forall_cons in Hag as [Hr Hag].
    set (fr1 := receive_fragment memory merger_merge now fr hp).
    destruct (merger_merge_inv D (data fr) (range_of hp).1 (range_of hp).2
                Hdata Hsep) as (Hag1 & Hsep1 & _ & Hcov1 & Htou1 & Hst1).
    { by destruct (range_of hp). }
    rewrite <- (data_receive_fragment now) in Hag1, Hsep1, Hcov1, Htou1, Hst1.
    fold fr1 in Hag1, Hsep1, Hcov1, Htou1, Hst1.
    assert (Hhdr1 : headed pool fr1).
    { intros Hex. unfold fr1. rewrite header_receive_fragment.
      destruct (Z.eqb_spec (ip_hdr.offset hp.1) 0) as [Hz|Hnz].
      - exists hp. split; [apply Hpool; by left|done].
      - apply Hhdr. apply Exists_exists in Hex as (r & Hr' & Hr0).
        destruct (Hst1 r Hr') as [Hs|(r' & Hin & Hs)].
        + simpl in Hs. lia.
        + apply Exists_exists. exists r'. split; [done|lia]. }
    destruct (IH fr1 (fun hp' Hin => Hpool hp' (proj2 (elem_of_cons _ _ _) (or_intror Hin)))
                 Hag Hag1 Hsep1 Hhdr1)
      as (Hag' & Hsep' & Hcov' & Htou' & Hne' & Hlast' & Hhdr').
    split; [done|]. split; [done|].
    split; [|split; [|split; [|split; [|done]]]].
    + intros z. rewrite Hcov', Hcov1, Exists_cons. unfold holds. tauto.
    + intros z. rewrite Htou', Htou1, Exists_cons. tauto.
    + intros _. destruct received as [|hp' received']; [|by apply Hne'].
      change (data fr1 <> []). unfold fr1. rewrite data_receive_fragment.
      apply merger_merge_nonempty.
    + rewrite Hlast'. unfold fr1. rewrite last_receive_fragment.
      by rewrite orb_assoc.
Qed.

Lemma take_bytes_mapi g bs :
  forall n i, take n (bytes_mapi g i bs) = bytes_mapi g i (take n bs).
Proof.
  induction bs as [|b bs IH]; intros [|n] i; simpl; try done.
  by rewrite IH.
Qed.

Lemma bytes_mapi_untouched g bs :
  forall i,
    (forall j b, (i <= j < i + length bs)%nat -> g j b = b) ->
    bytes_mapi g i bs = bs.
Proof.
  induction bs as [|b bs IH]; intros i Hg; simpl; [done|].
  rewrite Hg by (simpl; lia). f_equal. apply IH.
  intros j b' Hj. apply Hg. simpl. lia.
Qed.

(** The two stores of [get_assembled_packet], seen on the 20 header
    bytes that stand behind the 14 bytes of the Ethernet header. *)
Lemma ntoh_patched (len : Z) (bs : list byte) :
  length bs = 20%nat -> 0 <= len < 65536 ->
  ip_hdr.ntoh (bytes_mapi (patch_len_frag len) 14 bs)
  = assembled_hdr (ip_hdr.ntoh bs)
                  (len - ip_hdr.ihl (ip_hdr.ntoh bs) * 4).
Proof.
  intros Hlen Hrange.
  do 21 (destruct bs as [|? bs]; try done).
  unfold ip_hdr.ntoh, assembled_hdr.
  cbn [bytes_mapi nth patch_len_frag Nat.eqb ip_hdr.ihl ip_hdr.ver ip_hdr.dscp
       ip_hdr.ecn ip_hdr.len ip_hdr.id ip_hdr.frag ip_hdr.ttl ip_hdr.ip_proto
       ip_hdr.csum ip_hdr.src_ip ip_hdr.dst_ip].
  rewrite be16_put_be16, u16_small by done.
  f_equal. lia.
Qed.

(** The frame that [get_assembled_packet] builds from an entry whose
    single range [q] stands at offset 0 and whose header was taken
    from the fragment [hp0]. *)
Lemma assembled_frame fr q hp0 from to :
  data fr = [(0, q)] ->
  well_headed hp0 ->
  header fr = share 0 (ip_hdr.ihl hp0.1 * 4) hp0.2 ->
  ip_hdr.ihl hp0.1 * 4 + plen q <= ip_packet_len_max ->
  exists pkt,
    get_assembled_packet fr from to = Some pkt
    /\ take 14 (pbytes pkt) = eth_hdr_hton from to 2048
    /\ frame_header pkt = assembled_hdr hp0.1 (plen q)
    /\ ip_payload pkt = pbytes q
    /\ plen pkt = eth_hdr_size + ip_hdr.ihl hp0.1 * 4 + plen q
    /\ reassembled (oi pkt) = true.
Proof.
  intros Hq (Htie & Hmin & Hlen) Hhdr Hfits.
  destruct hp0 as [h0 p0]. simpl in *.
  set (n := Z.to_nat (ip_hdr.ihl h0 * 4)).
  assert (Hn : (20 <= n <= length (pbytes p0))%nat)
    by (unfold n, plen in *; lia).
  assert (Hhb : pbytes (header fr) = take n (pbytes p0))
    by (by rewrite Hhdr, pbytes_share, drop_0).
  assert (Hhlen : length (pbytes (header fr)) = n)
    by (rewrite Hhb, length_take; lia).
  assert (Heth : length (eth_hdr_hton from to 2048) = 14%nat).
  { unfold eth_hdr_hton. rewrite !length_app.
    rewrite !length_take_le by (rewrite length_app, length_replicate; lia).
    reflexivity. }
  unfold get_assembled_packet. rewrite Hq.
  set (pkt0 := append (prepend_header (eth_hdr_hton from to 2048) (header fr)) q).
  assert (Hpkt0 : pbytes pkt0
                  = eth_hdr_hton from to 2048 ++ pbytes (header fr) ++ pbytes q).
  { unfold pkt0. rewrite pbytes_append, pbytes_prepend_header.
    by rewrite <- app_assoc. }
  assert (Hplen0 : plen pkt0 = eth_hdr_size + ip_hdr.ihl h0 * 4 + plen q).
  { unfold plen, eth_hdr_size.
    rewrite Hpkt0, !length_app, Heth, Hhlen. unfold n. lia. }
  pose proof (plen_nonneg q) as Hqn.
  unfold get_header. rewrite Hplen0.
  destruct (Z.leb_spec (eth_hdr_size + ip_hdr.size)
              (eth_hdr_size + ip_hdr.ihl h0 * 4 + plen q)) as [_|Hshort];
    [|unfold ip_hdr.size in Hshort; lia].
  replace (eth_hdr_size + ip_hdr.ihl h0 * 4 + plen q - eth_hdr_size)
    with (ip_hdr.ihl h0 * 4 + plen q) by lia.
  unfold ip_packet_len_max in Hfits.
  rewrite u16_small by lia.
  set (len := ip_hdr.ihl h0 * 4 + plen q).
  eexists. split; [reflexivity|].
  assert (Hbytes : pbytes (mk_packet (frags_mapi (patch_len_frag len) 0 (frags pkt0))
                             (mk_offload_info false 0 20 false 0 true))
                   = bytes_mapi (patch_len_frag len) 0 (pbytes pkt0))
    by apply pbytes_mapi.
  assert (Hfh : frame_header
                  (mk_packet (frags_mapi (patch_len_frag len) 0 (frags pkt0))
                     (mk_offload_info false 0 20 false 0 true))
                = assembled_hdr h0 (plen q)).
  { unfold frame_header. rewrite Hbytes, Hpkt0, bytes_mapi_app, Heth.
    unfold eth_hdr_size. change (Z.to_nat 14) with 14%nat.
    rewrite drop_app_length' by (by rewrite length_bytes_mapi).
    rewrite take_bytes_mapi. simpl Nat.add.
    rewrite take_app_le by lia. rewrite Hhb, take_take, Nat.min_l by lia.
    rewrite ntoh_patched.
    - rewrite <- Htie. f_equal. unfold len. lia.
    - rewrite length_take. unfold plen in *. lia.
    - unfold len. lia. }
  split; [|split; [done|split; [|split; [|done]]]].
  - rewrite Hbytes, Hpkt0, bytes_mapi_app, take_app_length'
      by (by rewrite length_bytes_mapi).
    apply bytes_mapi_untouched. intros j b Hj. rewrite Heth in Hj.
    unfold patch_len_frag.
    destruct (Nat.eqb_spec j 16); [lia|].
    destruct (Nat.eqb_spec j 17); [lia|].
    destruct (Nat.eqb_spec j 20); [lia|].
    destruct (Nat.eqb_spec j 21); [lia|]. done.
  - unfold ip_payload. rewrite Hfh. unfold assembled_hdr.
    cbn [ip_hdr.len ip_hdr.ihl]. rewrite Hbytes, drop_bytes_mapi.
    + rewrite Hpkt0, app_assoc, drop_app_length'.
      * unfold plen. replace (_ + _ - _) with (Z.of_nat (length (pbytes q))) by lia.
        by rewrite Nat2Z.id, firstn_all.
      * rewrite length_app, Heth, Hhlen. unfold n, eth_hdr_size. lia.
    + intros j b Hj. unfold patch_len_frag, eth_hdr_size in *.
      destruct (Nat.eqb_spec j 16); [lia|].
      destruct (Nat.eqb_spec j 17); [lia|].
      destruct (Nat.eqb_spec j 20); [lia|].
      destruct (Nat.eqb_spec j 21); [lia|]. done.
  - unfold plen. rewrite Hbytes, length_bytes_mapi. apply Hplen0.
Qed.

(** What [handle_received_packet] does with a frame that is marked
    reassembled, once the Ethernet header is off: it tests no checksum,
    and when the IP header says that this is an intact datagram for
    this host whose total length is the length of the packet, the
    handler of its protocol receives the IP payload. *)
Lemma reassembled_frame_received data_merge now cpu s pkt from l4 :
  let h := frame_header pkt in
  reassembled (oi pkt) = true ->
  ip_hdr.frag h = 0 ->
  5 <= ip_hdr.ihl h ->
  ip_hdr.ihl h * 4 <= ip_hdr.len h <= ip_packet_len_max ->
  plen pkt = eth_hdr_size + ip_hdr.len h ->
  _packet_filter s = None ->
  ip_hdr.dst_ip h = _host_address s ->
  _l4 s !! ip_hdr.ip_proto h = Some l4 ->
  exists q,
    (handle_received_packet memory data_merge now cpu s
       (trim_front eth_hdr_size pkt) from).1
    = rx_received (ip_hdr.ip_proto h) q (ip_hdr.src_ip h) (ip_hdr.dst_ip h)
    /\ pbytes q = ip_payload pkt.
Proof.
  intros h Hre Hfrag Hmin [Hlo Hhi] Hplen Hfilter Hdst Hl4.
  assert (Hh : frame_header pkt = h) by done. clearbody h.
  set (p := trim_front eth_hdr_size pkt).
  assert (Hpb : pbytes p = drop (Z.to_nat eth_hdr_size) (pbytes pkt))
    by apply pbytes_trim_front.
  assert (Hpl : plen p = ip_hdr.len h).
  { unfold p. rewrite plen_trim_front; unfold eth_hdr_size in *; lia. }
  assert (Hgh : get_header 0 ip_hdr.size p
                = Some (take 20 (drop (Z.to_nat eth_hdr_size) (pbytes pkt)))).
  { unfold get_header. rewrite Hpl.
    destruct (Z.leb_spec (0 + ip_hdr.size) (ip_hdr.len h)) as [_|Hshort];
      [|unfold ip_hdr.size in Hshort; lia].
    by rewrite Hpb. }
  assert (Hoff : ip_hdr.offset h = 0) by (unfold ip_hdr.offset; by rewrite Hfrag).
  assert (Hmf : ip_hdr.mf h = false) by (unfold ip_hdr.mf; by rewrite Hfrag).
  unfold handle_received_packet. rewrite Hgh.
  change (ip_hdr.ntoh (take 20 (drop (Z.to_nat eth_hdr_size) (pbytes pkt))))
    with (frame_header pkt).
  rewrite Hh. change (oi p) with (oi pkt).
  rewrite Hre, andb_false_r, andb_false_l, Hpl, Z.ltb_irrefl, Hoff, Hpl.
  destruct (Z.ltb_spec ip_packet_len_max (0 + ip_hdr.len h)) as [Hbig|_]; [lia|].
  set (s' := if _ && _ then arp_learn _ _ s else s).
  assert (Hs' : _packet_filter s' = _packet_filter s
                /\ _host_address s' = _host_address s /\ _l4 s' = _l4 s)
    by (unfold s'; by destruct (_ && _)).
  destruct Hs' as (Hf' & Hh' & Hl').
  rewrite Hf', Hfilter, Hh', Hdst, Z.eqb_refl, Hmf, Hl', Hl4.
  cbn [negb orb fst]. rewrite Z.eqb_refl. cbn [negb fst].
  eexists. split; [reflexivity|].
  rewrite pbytes_trim_front, Hpb, drop_drop. unfold ip_payload. rewrite Hh.
  rewrite <- Z2Nat.inj_add by (unfold eth_hdr_size; lia).
  symmetry. apply take_ge. rewrite length_drop. unfold plen in Hplen.
  unfold eth_hdr_size in *. lia.
Qed.

(** C1.  Let [pieces] be the fragments of one datagram in offset order
    (each with the header read from it, of at least five words;
    contiguous offsets from 0; MF set on all but the last), the
    datagram being no longer than 65535 bytes with the header of any of
    them.  Let [received], in any order, be those of them that have
    come in, [sub] being the same fragments in offset order.  Once the
    entry is complete, its single range at offset 0 holds the
    concatenation in offset order of the payloads of the received
    fragments, which is the payload of the whole datagram.  The frame
    built by [get_assembled_packet] starts with the Ethernet header;
    its IP header is the header of a received fragment of offset 0
    with the total length of the whole datagram and a cleared
    flags/offset word; the IP payload that this header cuts out of the
    frame is exactly that concatenation; and the frame is marked
    reassembled.  And the entry is complete when all the fragments
    have come in. *)
Theorem reassembly_restores_payload (now : Z)
    (pieces sub received : list (ip_hdr.t * packet)) (from to : list byte) :
  let D := concat (map payload pieces) in
  split_from 0 pieces ->
  Forall (fun hp => ip_hdr.ihl hp.1 * 4 + Z.of_nat (length D)
                    <= ip_packet_len_max) pieces ->
  sub `sublist_of` pieces ->
  Permutation received sub ->
  let fr := foldl (receive_fragment memory merger_merge now) new_frag received in
  (is_complete fr = true ->
   concat (map payload sub) = D
   /\ exists q pkt hp0,
        data fr = [(0, q)]
        /\ pbytes q = concat (map payload sub)
        /\ hp0 ∈ sub /\ ip_hdr.offset hp0.1 = 0
        /\ get_assembled_packet fr from to = Some pkt
        /\ take 14 (pbytes pkt) = eth_hdr_hton from to 2048
        /\ frame_header pkt
           = assembled_hdr hp0.1
               (Z.of_nat (length (concat (map payload sub))))
        /\ ip_payload pkt = concat (map payload sub)
        /\ reassembled (oi pkt) = true)
  /\ (sub = pieces -> pieces <> [] -> is_complete fr = true).
Proof.
  intros D Hsplit Hfits Hsub Hperm fr.
  destruct (split_from_agrees pieces [] Hsplit []) as (Hwh & Hag & Hcov).
  simpl in Hag, Hcov. rewrite app_nil_r in Hag. fold D in Hag, Hcov.
  assert (Hin : forall hp, hp ∈ received -> hp ∈ pieces).
  { intros hp Hhp. rewrite Hperm in Hhp. by eapply elem_of_sublist. }
  assert (Hag' : Forall (fun hp => agrees D (range_of hp)) received).
  { apply Forall_forall. intros hp Hhp.
    rewrite Forall_forall in Hag. by apply Hag, Hin. }
  destruct (foldl_receive_inv D now received received new_frag)
    as (Hdag & Hdsep & Hdcov & Hdtou & Hdne & Hlast & Hhdr);
    [done|done|done|done| |].
  { intros Hex. by apply Exists_nil in Hex. }
  fold fr in Hdag, Hdsep, Hdcov, Hdtou, Hdne, Hlast, Hhdr.
  simpl in Hlast.
  split.
  - (* complete: one range at 0, and the last fragment is in *)
    intros Hcomplete. unfold is_complete in Hcomplete.
    destruct (data fr) as [|[o q] rest] eqn:Hdata; [done|].
    apply andb_prop in Hcomplete as [Hcomplete Ho].
    apply andb_prop in Hcomplete as [Hlf Hone].
    apply Z.eqb_eq in Ho. subst o.
    assert (rest = []) as ->.
    { apply Z.eqb_eq in Hone. simpl in Hone. destruct rest; [done|].
      simpl in Hone. lia. }
    rewrite Hlf in Hlast. symmetry in Hlast.
    apply existsb_exists in Hlast as (hp & Hhp & Hmf).
    apply negb_true_iff in Hmf. apply list_elem_of_In in Hhp.
    pose proof (split_from_last pieces 0 hp Hsplit (Hin hp Hhp) Hmf) as Hend.
    fold D in Hend.
    assert (Hq : agrees D (0, q)) by (by apply Forall_cons in Hdag as [? _]).
    pose proof (agrees_length D _ Hq) as Hqlen.
    destruct Hq as (_ & _ & Hqbytes). simpl in Hqlen, Hqbytes.
    (* the end of the datagram is touched by the range *)
    assert (Htouch : touched [(0, q)] (Z.of_nat (length D))).
    { apply Hdtou. right. apply Exists_exists. exists hp. split; [done|].
      pose proof (plen_nonneg (range_of hp).2) as Hnn. lia. }
    apply touched_cons in Htouch as [Htouch|Htouch];
      [|by apply touched_nil in Htouch].
    simpl in Htouch. unfold plen in Htouch.
    assert (Hbytes : pbytes q = D).
    { rewrite Hqbytes. simpl. apply take_ge. lia. }
    assert (Hall : concat (map payload sub) = D).
    { apply (sublist_holding_all sub pieces Hsub 0 Hsplit).
      intros z Hz. fold D in Hz.
      assert (Hc : covered [(0, q)] z).
      { apply covered_cons. left. simpl. unfold plen. rewrite Hbytes. lia. }
      apply Hdcov in Hc as [Hc|Hc]; [by apply covered_nil in Hc|].
      by rewrite <- Hperm. }
    split; [done|]. rewrite Hall.
    destruct Hhdr as (hp0 & Hhp0 & Hoff0 & Hheader).
    { rewrite Hdata. by apply Exists_cons_hd. }
    assert (Hwh0 : well_headed hp0).
    { rewrite Forall_forall in Hwh. by apply Hwh, Hin. }
    assert (Hfit0 : ip_hdr.ihl hp0.1 * 4 + plen q <= ip_packet_len_max).
    { rewrite Forall_forall in Hfits. unfold plen. rewrite Hbytes.
      by apply Hfits, Hin. }
    destruct (assembled_frame fr q hp0 from to Hdata Hwh0 Hheader Hfit0)
      as (pkt & Hpkt & Heth & Hfh & Hpay & _ & Hre).
    exists q, pkt, hp0. unfold plen in Hfh. rewrite Hbytes in Hfh, Hpay.
    rewrite Hperm in Hhp0. done.
  - (* all fragments in: every byte is held, so one range is left *)
    intros -> Hne.
    assert (Harr : received <> []).
    { intros ->. apply Permutation_nil in Hperm. done. }
    destruct (covering_is_single D (data fr) (Hdne Harr) Hdag Hdsep)
      as (q & Hq & Hbytes).
    { intros z Hz. apply Hdcov. right. rewrite Hperm. apply Hcov. simpl. lia. }
    assert (Hmf : existsb (fun hp => negb (ip_hdr.mf hp.1)) received = true).
    { apply existsb_exists.
      assert (exists hp, hp ∈ pieces /\ ip_hdr.mf hp.1 = false) as (hp & Hhp & Hf).
      { clear -Hne Hsplit. revert Hsplit. generalize 0.
        induction pieces as [|hp rest IH]; [done|]. intros off Hs.
        destruct Hs as (_ & _ & _ & _ & Hmf & Hrest).
        destruct rest as [|hp' rest'].
        - exists hp. split; [by left|done].
        - destruct (IH ltac:(done) _ Hrest) as (hp0 & Hin0 & Hf).
          exists hp0. split; [by right|done]. }
      exists hp. split; [|by rewrite Hf].
      apply list_elem_of_In. by rewrite Hperm. }
    unfold is_complete. rewrite Hq, Hlast, Hmf. done.
Qed.

End reassembly_roundtrip.

Section reassembly_vectors.

Import ipv4 reassembly vectors.

(** The two fragments of the UDP datagram, the second one first: the
    entry is complete, and the frame carries the header of the first
    fragment with total length 36 and the 16 bytes in offset order. *)
Lemma reassembly_restores_payload_witness :
  let pieces := [with_header udp_frag_a; with_header udp_frag_b] in
  let fr := foldl (receive_fragment vmemory merger_merge 7) new_frag
                  [with_header udp_frag_b; with_header udp_frag_a] in
  is_complete fr = true
  /\ exists q pkt hp0,
       data fr = [(0, q)]
       /\ pbytes q = concat (map payload pieces)
       /\ hp0 ∈ pieces /\ ip_hdr.offset hp0.1 = 0
       /\ get_assembled_packet fr peer_mac host_mac = Some pkt
       /\ take 14 (pbytes pkt) = eth_hdr_hton peer_mac host_mac 2048
       /\ frame_header pkt
          = assembled_hdr hp0.1 (Z.of_nat (length (concat (map payload pieces))))
       /\ ip_payload pkt = concat (map payload pieces)
       /\ reassembled (oi pkt) = true.
Proof.
  intros pieces fr.
  destruct (reassembly_restores_payload vmemory 7 pieces pieces
              [with_header udp_frag_b; with_header udp_frag_a]
              peer_mac host_mac) as [Hdone Hcomplete].
  - vm_compute. repeat split; discriminate.
  - repeat apply Forall_cons_2; [vm_compute; discriminate..|apply Forall_nil_2].
  - reflexivity.
  - apply perm_swap.
  - split.
    + by apply Hcomplete.
    + apply Hdone. by apply Hcomplete.
Defined.

(** That frame: its header and its payload. *)
Lemma reassembled_udp_frame :
  let fr := foldl (receive_fragment vmemory merger_merge 7) new_frag
                  [with_header udp_frag_b; with_header udp_frag_a] in
  option_map (fun pkt => (ip_hdr.len (frame_header pkt),
                          ip_hdr.frag (frame_header pkt),
                          ip_payload pkt))
             (get_assembled_packet fr peer_mac host_mac)
  = Some (36, 0, [x00; x35; x00; x35; x00; x18; x00; x00;
                  x61; x62; x63; x64; x65; x66; x67; x68]).
Proof. vm_compute. reflexivity. Qed.

End reassembly_vectors.

Section reassembly_end_to_end.

Import ipv4 reassembly vectors.

(** The whole way on a host that has a UDP handler.  The two fragments
    come in on core 0, the second one first; the datagram they
    complete belongs to core 3 and is forwarded there as a frame.  On
    core 3 the frame, its Ethernet header off, passes
    [handle_received_packet] as an intact datagram, and the handler
    receives the 16 bytes. *)
Lemma reassembled_frame_reenters :
  let s := register_l4 ip_protocol_num_udp (l4_forward cores)
                       (host hw_sw_csum) in
  let r1 := handle_received_packet vmemory merger_merge 0 0 s udp_frag_b
              peer_mac in
  let r2 := handle_received_packet vmemory merger_merge 1 0 r1.2 udp_frag_a
              peer_mac in
  r1.1 = rx_stored
  /\ match r2.1 with
     | rx_forwarded cpu pkt =>
         Some (cpu,
               (handle_received_packet vmemory merger_merge 2 cpu s
                  (trim_front eth_hdr_size pkt) peer_mac).1)
     | _ => None
     end
     = Some (3,
             rx_received ip_protocol_num_udp
               (mk_packet [[x00; x35; x00; x35; x00; x18; x00; x00];
                           [x61; x62; x63; x64; x65; x66; x67; x68]]
                          (mk_offload_info false 0 20 false 0 true))
               peer_ip host_ip).
Proof. split; vm_compute; reflexivity. Qed.

End reassembly_end_to_end.

(** * Further properties of the code *)

(** ** [packet::linearize] *)

Section linearize_props.

Lemma linearize_count_least fs :
  forall accum desired n a,
    linearize_count fs accum desired = Some (n, a) ->
    (n <= length fs)%nat
    /\ forall m : nat,
         (m < n)%nat ->
         accum + Z.of_nat (length (concat (take m fs))) < desired.
Proof.
  induction fs as [|f fs IH]; intros accum desired n a; simpl.
  - destruct (accum <? desired); [done|]. intros [= <- <-].
    split; [done|]. intros m Hm. lia.
  - destruct (Z.ltb_spec accum desired) as [Hlt|].
    + destruct (linearize_count fs (accum + fsize f) desired) as [[n' a']|] eqn:E;
        [|done].
      intros [= <- <-]. apply IH in E as [Hn E]. split; [lia|].
      intros [|m] Hm; simpl; [lia|].
      rewrite length_app. specialize (E m ltac:(lia)). unfold fsize in E. lia.
    + intros [= <- <-]. split; [lia|]. intros m Hm. lia.
Qed.

Lemma linearize_count_none fs :
  forall accum desired,
    linearize_count fs accum desired = None ->
    accum + Z.of_nat (length (concat fs)) < desired.
Proof.
  induction fs as [|f fs IH]; intros accum desired; simpl.
  - destruct (Z.ltb_spec accum desired); [lia|done].
  - destruct (Z.ltb_spec accum desired); [|done].
    destruct (linearize_count fs (accum + fsize f) desired) as [[n' a']|] eqn:E;
      [done|].
    intros _. apply IH in E. rewrite length_app. unfold fsize in E. lia.
Qed.

(** [linearize(at_frag, desired_size)] stays inside the fragment array
    exactly when [at_frag] is no index behind its end and the fragments
    from [at_frag] on hold [desired_size] bytes.  It then keeps the
    bytes of the packet and its offload record, leaves the fragments
    before [at_frag] alone, and puts one fragment in the place of the
    [n] fragments from [at_frag] on, holding their bytes, where [n] is
    the least number of fragments that reach [desired_size]; the
    fragments behind them follow.  For [desired_size = 0] that is an
    empty fragment in front of the others. *)
Theorem linearize_at_collapses (at_frag : nat) (desired_size : Z) (p : packet) :
  (is_Some (linearize_at at_frag desired_size p)
   <-> (at_frag <= length (frags p))%nat
       /\ desired_size
          <= Z.of_nat (length (concat (drop at_frag (frags p)))))
  /\ (forall p',
        linearize_at at_frag desired_size p = Some p' ->
        exists n : nat,
          let sel := take n (drop at_frag (frags p)) in
          frags p' = take at_frag (frags p) ++ [concat sel]
                       ++ drop (at_frag + n) (frags p)
          /\ (at_frag + n <= length (frags p))%nat
          /\ desired_size <= Z.of_nat (length (concat sel))
          /\ (forall m : nat,
                (m < n)%nat ->
                Z.of_nat (length (concat (take m (drop at_frag (frags p)))))
                < desired_size)
          /\ (length (frags p') + n = S (length (frags p)))%nat
          /\ pbytes p' = pbytes p
          /\ oi p' = oi p).
Proof.
  unfold linearize_at.
  destruct (Nat.ltb_spec (length (frags p)) at_frag) as [Hbehind|Hin].
  { split; [|done]. split; [by intros [? ?]|]. intros [? _]. lia. }
  set (fs := drop at_frag (frags p)).
  destruct (linearize_count fs 0 desired_size) as [[n a]|] eqn:E.
  - pose proof (linearize_count_covers _ _ _ _ _ E) as [Ha Hd].
    pose proof (linearize_count_least _ _ _ _ _ E) as [Hn Hleast].
    assert (Hfs : (at_frag + n <= length (frags p))%nat).
    { unfold fs in Hn. rewrite length_drop in Hn. lia. }
    split.
    + split; [intros _|by eauto]. split; [done|].
      rewrite <- (take_drop n fs), concat_app, length_app. lia.
    + intros p' [= <-]. exists n. cbn [frags oi].
      split; [done|]. split; [done|]. split; [lia|].
      split; [|split; [|split; [|done]]].
      * intros m Hm. specialize (Hleast m Hm). lia.
      * rewrite length_app, length_take. cbn [length app].
        rewrite length_drop. lia.
      * unfold pbytes. cbn [frags]. rewrite concat_app. cbn [concat app].
        rewrite <- (take_drop at_frag (frags p)) at 3. rewrite concat_app.
        f_equal. fold fs. rewrite <- (take_drop n fs) at 2.
        rewrite concat_app. f_equal. unfold fs. by rewrite drop_drop.
  - apply linearize_count_none in E. split; [|done].
    split; [by intros [? ?]|]. intros [_ Hle]. lia.
Qed.

(** Three fragments of 2, 1 and 3 bytes: four bytes from fragment 1 on
    take fragments 1 and 2 together; no byte puts an empty fragment in
    front of fragment 1. *)
Lemma linearize_at_collapses_witness :
  (exists n : nat,
     let p := dpdk_vectors.pkt_three_frags in
     let sel := take n (drop 1 (frags p)) in
     [[x01; x02]; [x03; x04; x05; x06]]
     = take 1 (frags p) ++ [concat sel] ++ drop (1 + n) (frags p)
     /\ (1 + n <= length (frags p))%nat
     /\ 4 <= Z.of_nat (length (concat sel))
     /\ (forall m : nat,
           (m < n)%nat ->
           Z.of_nat (length (concat (take m (drop 1 (frags p))))) < 4)
     /\ (2 + n = S (length (frags p)))%nat
     /\ [x01; x02; x03; x04; x05; x06] = pbytes p
     /\ no_offload = oi p)
  /\ linearize_at 1 0 dpdk_vectors.pkt_three_frags
     = Some (mk_packet [[x01; x02]; []; [x03]; [x04; x05; x06]] no_offload).
Proof.
  split; [|reflexivity].
  apply (proj2 (linearize_at_collapses 1 4 dpdk_vectors.pkt_three_frags)
               (mk_packet [[x01; x02]; [x03; x04; x05; x06]] no_offload)).
  reflexivity.
Defined.

End linearize_props.

(** ** The Toeplitz hash *)

Section toeplitz_props.

Implicit Types (key data : list byte) (bits : list bool).

Lemma bits_value_snoc bits (b : bool) :
  bits_value (bits ++ [b]) = 2 * bits_value bits + (if b then 1 else 0).
Proof. unfold bits_value. by rewrite fold_left_app. Qed.

Lemma bits_value_range bits :
  0 <= bits_value bits < 2 ^ Z.of_nat (length bits).
Proof.
  induction bits as [|b bits IH] using rev_ind; [done|].
  rewrite bits_value_snoc, length_app, Nat2Z.inj_add. simpl length.
  rewrite Z.pow_add_r by lia. change (2 ^ Z.of_nat 1) with 2.
  destruct b; lia.
Qed.

Lemma bits_value_cons (b : bool) bits :
  bits_value (b :: bits)
  = (if b then 1 else 0) * 2 ^ Z.of_nat (length bits) + bits_value bits.
Proof.
  induction bits as [|c bits IH] using rev_ind.
  - unfold bits_value. simpl. destruct b; lia.
  - rewrite app_comm_cons, !bits_value_snoc, IH, length_app, Nat2Z.inj_add.
    simpl length. rewrite Z.pow_add_r by lia. change (2 ^ Z.of_nat 1) with 2.
    lia.
Qed.

Lemma key_window_range key g : 0 <= key_window key g < 4294967296.
Proof.
  unfold key_window.
  pose proof (bits_value_range (map (bit_at key) (seq g 32))) as H.
  rewrite length_map, length_seq in H. exact H.
Qed.

Lemma bits_value_shift (f : nat -> bool) (g n : nat) :
  bits_value (map f (seq (S g) (S n)))
  = (2 * bits_value (map f (seq g (S n)))) mod 2 ^ Z.of_nat (S n)
    + (if f (g + S n)%nat then 1 else 0).
Proof.
  rewrite seq_S, map_app. simpl map at 2. rewrite bits_value_snoc.
  f_equal; [|by rewrite Nat.add_succ_r].
  rewrite <- cons_seq. simpl map. rewrite bits_value_cons.
  pose proof (bits_value_range (map f (seq (S g) n))) as H.
  rewrite length_map, length_seq in *.
  set (X := bits_value _) in *.
  rewrite Nat2Z.inj_succ, Z.pow_succ_r by lia.
  set (P := 2 ^ Z.of_nat n) in *.
  assert (0 < P) by (apply Z.pow_pos_nonneg; lia).
  destruct (f g).
  - apply (Z.mod_unique_pos _ _ 1); lia.
  - apply (Z.mod_unique_pos _ _ 0); lia.
Qed.

(** The window moves on by one bit: the top bit leaves, the key bit 32
    places on comes in at the bottom. *)
Lemma key_window_succ key g :
  key_window key (S g)
  = u32 (2 * key_window key g) + (if bit_at key (g + 32) then 1 else 0).
Proof. apply (bits_value_shift (bit_at key) g 31). Qed.

Lemma lor_one_even x : Z.lor (u32 (Z.shiftl x 1)) 1 = u32 (2 * x) + 1.
Proof.
  rewrite Z.shiftl_mul_pow2 by lia. change (2 ^ 1) with 2.
  rewrite (Z.mul_comm x 2).
  assert (Hev : exists y, u32 (2 * x) = 2 * y).
  { exists (u32 (2 * x) / 2). unfold u32. Z.div_mod_to_equations. lia. }
  destruct Hev as [y ->].
  rewrite <- Z.lxor_lor, <- Z.add_nocarry_lxor; [done| |];
    change 1 with (Z.ones 1); rewrite Z.land_ones by lia;
    change (2 ^ 1) with 2; Z.div_mod_to_equations; lia.
Qed.

Lemma bit_at_byte data (i b : nat) :
  (b < 8)%nat ->
  bit_at data (b + 8 * i) = Z.testbit (bval (nth i data x00)) (7 - Z.of_nat b).
Proof.
  intros Hb. unfold bit_at.
  replace ((b + 8 * i) / 8)%nat with i
    by (apply (Nat.div_unique _ 8 i b); lia).
  replace ((b + 8 * i) mod 8)%nat with b; [done|].
  apply (Nat.mod_unique _ 8 i b); lia.
Qed.

(** One turn of the inner loop at bit [b] of byte [i], started with the
    window of that bit. *)
Lemma toeplitz_bit_window key (i : nat) (d : byte) (h : Z) (b : nat) :
  (b < 8)%nat ->
  toeplitz_bit key i d (h, key_window key (b + 8 * i)) (Z.of_nat b)
  = (if Z.testbit (bval d) (7 - Z.of_nat b)
     then Z.lxor h (key_window key (b + 8 * i)) else h,
     key_window key (S b + 8 * i)).
Proof.
  intros Hb. unfold toeplitz_bit. f_equal.
  change (S b + 8 * i)%nat with (S (b + 8 * i)).
  rewrite key_window_succ.
  replace (b + 8 * i + 32)%nat with (b + 8 * (i + 4))%nat by lia.
  rewrite bit_at_byte by done.
  destruct (Nat.ltb_spec (i + 4) (length key)) as [Hin|Hout]; simpl.
  - destruct (Z.testbit _ _).
    + apply lor_one_even.
    + rewrite Z.shiftl_mul_pow2 by lia. change (2 ^ 1) with 2.
      rewrite (Z.mul_comm _ 2). lia.
  - rewrite nth_overflow by lia. simpl. rewrite Z.testbit_0_l.
    rewrite Z.shiftl_mul_pow2 by lia. change (2 ^ 1) with 2.
    rewrite (Z.mul_comm _ 2). lia.
Qed.

(** The eight turns of the inner loop for byte [i]. *)
Lemma toeplitz_byte_window key data (i : nat) (d : byte) (h : Z) :
  nth i data x00 = d ->
  fold_left (toeplitz_bit key i d) [0; 1; 2; 3; 4; 5; 6; 7]
            (h, key_window key (8 * i))
  = (fold_left (toeplitz_mix key data) (seq (8 * i) 8) h, key_window key (8 * S i)).
Proof.
  intros <-.
  change (seq (8 * i) 8) with (map (fun b => (b + 8 * i)%nat) (seq 0 8)).
  change (key_window key (8 * i)) with (key_window key (0 + 8 * i)).
  cbn [fold_left seq map]. unfold toeplitz_mix.
  rewrite (bit_at_byte data i 0), (bit_at_byte data i 1),
    (bit_at_byte data i 2), (bit_at_byte data i 3), (bit_at_byte data i 4),
    (bit_at_byte data i 5), (bit_at_byte data i 6), (bit_at_byte data i 7)
    by lia.
  rewrite (toeplitz_bit_window key i _ _ 0) by lia.
  rewrite (toeplitz_bit_window key i _ _ 1) by lia.
  rewrite (toeplitz_bit_window key i _ _ 2) by lia.
  rewrite (toeplitz_bit_window key i _ _ 3) by lia.
  rewrite (toeplitz_bit_window key i _ _ 4) by lia.
  rewrite (toeplitz_bit_window key i _ _ 5) by lia.
  rewrite (toeplitz_bit_window key i _ _ 6) by lia.
  rewrite (toeplitz_bit_window key i _ _ 7) by lia.
  f_equal. f_equal. lia.
Qed.

Lemma toeplitz_loop_cons key (i : nat) (d : byte) data (st : Z * Z) :
  toeplitz_loop key i (d :: data) st
  = toeplitz_loop key (S i) data
      (fold_left (toeplitz_bit key i d) [0; 1; 2; 3; 4; 5; 6; 7] st).
Proof. reflexivity. Qed.

Lemma toeplitz_loop_nil key (i : nat) (st : Z * Z) :
  toeplitz_loop key i [] st = st.
Proof. reflexivity. Qed.

(** The outer loop from byte [length prefix] on, started with the
    window of its first bit. *)
Lemma toeplitz_loop_window key (suffix : list byte) :
  forall (prefix : list byte) (h : Z),
    toeplitz_loop key (length prefix) suffix
                  (h, key_window key (8 * length prefix))
    = (fold_left (toeplitz_mix key (prefix ++ suffix))
                 (seq (8 * length prefix) (8 * length suffix)) h,
       key_window key (8 * length (prefix ++ suffix))).
Proof.
  induction suffix as [|d rest IH]; intros prefix h.
  - rewrite toeplitz_loop_nil, app_nil_r. reflexivity.
  - rewrite toeplitz_loop_cons.
    rewrite (toeplitz_byte_window key (prefix ++ d :: rest) (length prefix) d h)
      by apply nth_middle.
    pose proof (IH (prefix ++ [d])) as IH'.
    rewrite <- app_assoc in IH'. change ([d] ++ rest) with (d :: rest) in IH'.
    assert (Hl : length (prefix ++ [d]) = S (length prefix))
      by (rewrite length_app; simpl; lia).
    rewrite Hl in IH'. rewrite IH'. f_equal.
    replace (8 * length (d :: rest))%nat with (8 + 8 * length rest)%nat
      by (simpl length; lia).
    rewrite seq_app, fold_left_app. do 2 f_equal. lia.
Qed.

Lemma bits_value_app bits1 bits2 :
  bits_value (bits1 ++ bits2)
  = bits_value bits1 * 2 ^ Z.of_nat (length bits2) + bits_value bits2.
Proof.
  induction bits1 as [|b bits1 IH]; [unfold bits_value at 2; simpl; lia|].
  simpl app. rewrite !bits_value_cons, IH, length_app, Nat2Z.inj_add.
  rewrite Z.pow_add_r by lia. lia.
Qed.

Lemma bits_value_byte (d : byte) :
  bits_value (map (fun b => Z.testbit (bval d) (7 - b)) [0; 1; 2; 3; 4; 5; 6; 7])
  = bval d.
Proof. by destruct d. Qed.

(** The first window is the word that [toeplitz_hash] loads from the
    first four key bytes. *)
Lemma key_window_0 key :
  key_window key 0
  = u32 (Z.shiftl (bval (nth 0 key x00)) 24
         + Z.shiftl (bval (nth 1 key x00)) 16
         + Z.shiftl (bval (nth 2 key x00)) 8
         + bval (nth 3 key x00)).
Proof.
  pose proof (bval_range (nth 0 key x00)).
  pose proof (bval_range (nth 1 key x00)).
  pose proof (bval_range (nth 2 key x00)).
  pose proof (bval_range (nth 3 key x00)).
  change (key_window key 0)
    with (bits_value
            (map (fun b => Z.testbit (bval (nth 0 key x00)) (7 - b))
                 [0; 1; 2; 3; 4; 5; 6; 7]
             ++ map (fun b => Z.testbit (bval (nth 1 key x00)) (7 - b))
                    [0; 1; 2; 3; 4; 5; 6; 7]
             ++ map (fun b => Z.testbit (bval (nth 2 key x00)) (7 - b))
                    [0; 1; 2; 3; 4; 5; 6; 7]
             ++ map (fun b => Z.testbit (bval (nth 3 key x00)) (7 - b))
                    [0; 1; 2; 3; 4; 5; 6; 7])).
  rewrite !bits_value_app, !bits_value_byte, !length_app, !length_map.
  rewrite !Z.shiftl_mul_pow2 by lia. simpl length.
  change (2 ^ Z.of_nat (8 + (8 + 8))) with 16777216.
  change (2 ^ Z.of_nat (8 + 8)) with 65536.
  change (2 ^ Z.of_nat 8) with 256.
  change (2 ^ 24) with 16777216. change (2 ^ 16) with 65536.
  change (2 ^ 8) with 256.
  unfold u32. rewrite Z.mod_small by lia. lia.
Qed.

(** The loop computes the matrix product. *)
Lemma toeplitz_hash_loop_matrix key data :
  toeplitz_hash key data = toeplitz_matrix_hash key data.
Proof.
  unfold toeplitz_hash, toeplitz_matrix_hash.
  rewrite <- key_window_0.
  change (toeplitz_loop key 0 data (0, key_window key 0))
    with (toeplitz_loop key (length (@nil byte)) data
            (0, key_window key (8 * length (@nil byte)))).
  by rewrite toeplitz_loop_window.
Qed.

Lemma lxor_range (a b n : Z) :
  0 <= n -> 0 <= a < 2 ^ n -> 0 <= b < 2 ^ n -> 0 <= Z.lxor a b < 2 ^ n.
Proof.
  intros Hn Ha Hb.
  assert (Hnn : 0 <= Z.lxor a b) by (apply Z.lxor_nonneg; lia).
  split; [done|].
  destruct (Z.eq_dec (Z.lxor a b) 0) as [->|Hnz];
    [apply Z.pow_pos_nonneg; lia|].
  apply Z.log2_lt_pow2; [lia|].
  pose proof (Z.log2_lxor a b ltac:(lia) ltac:(lia)) as Hl.
  assert (Hpos : 0 < n).
  { destruct (Z.eq_dec n 0) as [->|]; [|lia]. exfalso. apply Hnz.
    change (2 ^ 0) with 1 in *.
    assert (a = 0) as -> by lia. assert (b = 0) as -> by lia. done. }
  assert (Z.log2 a < n).
  { destruct (Z.eq_dec a 0) as [->|]; [simpl; lia|].
    apply Z.log2_lt_pow2; lia. }
  assert (Z.log2 b < n).
  { destruct (Z.eq_dec b 0) as [->|]; [simpl; lia|].
    apply Z.log2_lt_pow2; lia. }
  lia.
Qed.

Lemma fold_mix_range key data l :
  forall h, 0 <= h < 4294967296 ->
            0 <= fold_left (toeplitz_mix key data) l h < 4294967296.
Proof.
  induction l as [|g l IH]; intros h Hh; [done|]. simpl. apply IH.
  unfold toeplitz_mix. destruct (bit_at data g); [|done].
  apply (lxor_range _ _ 32); [lia|done|apply key_window_range].
Qed.

Lemma fold_mix_ext key d1 d2 l :
  (forall g, g ∈ l -> bit_at d1 g = bit_at d2 g) ->
  forall h, fold_left (toeplitz_mix key d1) l h
            = fold_left (toeplitz_mix key d2) l h.
Proof.
  induction l as [|g l IH]; intros Hl h; [done|]. simpl.
  unfold toeplitz_mix at 2 4. rewrite (Hl g) by by left.
  apply IH. intros g' Hg'. apply Hl. by right.
Qed.

Lemma fold_mix_idle key data l :
  (forall g, g ∈ l -> key_window key g = 0) ->
  forall h, fold_left (toeplitz_mix key data) l h = h.
Proof.
  induction l as [|g l IH]; intros Hl h; [done|]. simpl.
  unfold toeplitz_mix at 2. rewrite (Hl g) by by left.
  rewrite Z.lxor_0_r. destruct (bit_at data g); apply IH;
    intros g' Hg'; apply Hl; by right.
Qed.

Lemma fold_mix_xor key a b c l :
  (forall g, g ∈ l -> bit_at c g = xorb (bit_at a g) (bit_at b g)) ->
  forall ha hb,
    fold_left (toeplitz_mix key c) l (Z.lxor ha hb)
    = Z.lxor (fold_left (toeplitz_mix key a) l ha)
             (fold_left (toeplitz_mix key b) l hb).
Proof.
  induction l as [|g l IH]; intros Hl ha hb; [done|]. simpl.
  rewrite <- IH by (intros g' Hg'; apply Hl; by right).
  f_equal. unfold toeplitz_mix. rewrite (Hl g) by by left.
  set (w := key_window key g).
  destruct (bit_at a g), (bit_at b g); simpl; try done.
  - rewrite (Z.lxor_comm hb w), Z.lxor_assoc, <- (Z.lxor_assoc w w hb).
    by rewrite Z.lxor_nilpotent, Z.lxor_0_l.
  - rewrite !Z.lxor_assoc. f_equal. apply Z.lxor_comm.
  - by rewrite Z.lxor_assoc.
Qed.

Lemma bit_at_overflow bs (j : nat) :
  (8 * length bs <= j)%nat -> bit_at bs j = false.
Proof.
  intros Hj. unfold bit_at. rewrite nth_overflow; [by rewrite Z.testbit_0_l|].
  apply Nat.div_le_lower_bound; lia.
Qed.

Lemma bit_at_app_l bs1 bs2 (j : nat) :
  (j < 8 * length bs1)%nat -> bit_at (bs1 ++ bs2) j = bit_at bs1 j.
Proof.
  intros Hj. unfold bit_at. rewrite app_nth1; [done|].
  apply Nat.Div0.div_lt_upper_bound. lia.
Qed.

Lemma bits_value_false bits :
  Forall (fun b => b = false) bits -> bits_value bits = 0.
Proof.
  induction bits as [|b bits IH] using rev_ind; [done|].
  intros [Hb Hl]%Forall_app. apply Forall_cons in Hl as [-> _].
  rewrite bits_value_snoc, IH; done.
Qed.

Lemma key_window_overflow key (g : nat) :
  (8 * length key <= g)%nat -> key_window key g = 0.
Proof.
  intros Hg. unfold key_window. apply bits_value_false.
  apply Forall_forall. intros b Hb. apply list_elem_of_In in Hb.
  apply in_map_iff in Hb as (j & <- & Hj). apply in_seq in Hj.
  apply bit_at_overflow. lia.
Qed.

Lemma bit_at_xor a b (j : nat) :
  length a = length b ->
  bit_at (zip_with byte_xor a b) j = xorb (bit_at a j) (bit_at b j).
Proof.
  intros Hlen. unfold bit_at.
  set (n := (j / 8)%nat). set (k := 7 - Z.of_nat (j mod 8)).
  assert (Hn : nth n (zip_with byte_xor a b) x00
               = byte_xor (nth n a x00) (nth n b x00)).
  { clearbody n. clear k. revert b n Hlen.
    induction a as [|x a IH]; intros [|y b] n Hlen; try done.
    - by destruct n.
    - destruct n as [|n]; [done|]. simpl. apply IH. by injection Hlen. }
  rewrite Hn. unfold byte_xor. rewrite bval_byte_of.
  pose proof (bval_range (nth n a x00)). pose proof (bval_range (nth n b x00)).
  rewrite Z.mod_small by (apply (lxor_range _ _ 8); lia).
  apply Z.lxor_spec.
Qed.

(** [toeplitz_hash] is the Toeplitz hash: the exclusive or of the key
    windows at the bits that are set in the data, a 32-bit value. *)
Theorem toeplitz_hash_is_matrix_hash (key data : list byte) :
  toeplitz_hash key data = toeplitz_matrix_hash key data
  /\ 0 <= toeplitz_hash key data < 4294967296.
Proof.
  rewrite toeplitz_hash_loop_matrix. split; [done|].
  by apply fold_mix_range.
Qed.

(** The hash is linear over the exclusive or of two inputs of one
    length. *)
Theorem toeplitz_hash_xor (key a b : list byte) :
  length a = length b ->
  toeplitz_hash key (zip_with byte_xor a b)
  = Z.lxor (toeplitz_hash key a) (toeplitz_hash key b).
Proof.
  intros Hlen. rewrite !toeplitz_hash_loop_matrix. unfold toeplitz_matrix_hash.
  assert (Hc : length (zip_with byte_xor a b) = length a)
    by (rewrite length_zip_with; lia).
  rewrite Hc, <- Hlen.
  change 0 with (Z.lxor 0 0) at 1. apply fold_mix_xor.
  intros g _. by apply bit_at_xor.
Qed.

(** Data bytes behind the length of the key do not enter the hash. *)
Theorem toeplitz_hash_ignores_beyond_key (key data more : list byte) :
  (length key <= length data)%nat ->
  toeplitz_hash key (data ++ more) = toeplitz_hash key data.
Proof.
  intros Hlen. rewrite !toeplitz_hash_loop_matrix. unfold toeplitz_matrix_hash.
  rewrite length_app, Nat.mul_add_distr_l, seq_app, fold_left_app. simpl.
  rewrite fold_mix_idle.
  - apply fold_mix_ext. intros g Hg. apply list_elem_of_In, in_seq in Hg.
    apply bit_at_app_l. lia.
  - intros g Hg. apply list_elem_of_In, in_seq in Hg.
    apply key_window_overflow. lia.
Qed.

(** Two inputs of twelve bytes, the size of the TCP/IPv4 input. *)
Lemma toeplitz_hash_xor_witness :
  toeplitz_hash rsskey
    (zip_with byte_xor (replicate 12 x5a) [x0a; x00; x00; x05; x0a; x00; x00;
                                           x01; x04; xd2; x00; x50])
  = Z.lxor (toeplitz_hash rsskey (replicate 12 x5a))
           (toeplitz_hash rsskey [x0a; x00; x00; x05; x0a; x00; x00; x01;
                                  x04; xd2; x00; x50]).
Proof. apply (toeplitz_hash_xor rsskey). reflexivity. Defined.

(** Forty bytes of data under the key of forty bytes: a byte more does
    not change the hash. *)
Lemma toeplitz_hash_ignores_beyond_key_witness :
  toeplitz_hash rsskey (replicate 40 x5a ++ [xff])
  = toeplitz_hash rsskey (replicate 40 x5a).
Proof.
  apply (toeplitz_hash_ignores_beyond_key rsskey (replicate 40 x5a) [xff]).
  simpl. lia.
Defined.

End toeplitz_props.

(** ** [ipv4::send]: the frames on the wire *)

Section transmit_wire.

Import ipv4 wire.

Lemma be32_put_be32 x :
  be32 (byte_of (Z.shiftr x 24)) (byte_of (Z.shiftr x 16))
       (byte_of (Z.shiftr x 8)) (byte_of x) = u32 x.
Proof.
  unfold be32, u32. rewrite !bval_byte_of, !Z.shiftr_div_pow2 by lia.
  change (2 ^ 24) with 16777216. change (2 ^ 16) with 65536.
  change (2 ^ 8) with 256. Z.div_mod_to_equations. lia.
Qed.

Lemma be16_range b1 b0 : 0 <= be16 b1 b0 < 65536.
Proof.
  unfold be16. pose proof (bval_range b1). pose proof (bval_range b0). lia.
Qed.

(** [csum_reduce] folds a sum below [2^32] into 16 bits, keeping its
    residue modulo 65535; only the sum 0 folds to 0. *)
Lemma csum_reduce_spec x :
  0 <= x < 4294967296 ->
  exists k, x = 65535 * k + csum_reduce x
            /\ 0 <= csum_reduce x <= 65535 /\ 0 <= k
            /\ (csum_reduce x = 0 -> x = 0).
Proof.
  intros Hx. unfold csum_reduce.
  exists (x / 65536 + (x mod 65536 + x / 65536) / 65536).
  Z.div_mod_to_equations. lia.
Qed.

Lemma checksum_range bs :
  0 <= csum_words bs < 4294967296 -> 0 <= checksum bs <= 65535.
Proof.
  intros Hx. unfold checksum.
  destruct (csum_reduce_spec _ Hx) as (k & _ & Hr & _). lia.
Qed.

(** A sum that is completed by its own checksum has checksum 0. *)
Lemma checksum_completes x :
  0 <= x < 4294967296 - 65536 ->
  65535 - csum_reduce (x + (65535 - csum_reduce x)) = 0.
Proof.
  intros Hx.
  destruct (csum_reduce_spec x ltac:(lia)) as (k & Hk & Hr & Hk0 & Hz).
  destruct (csum_reduce_spec (x + (65535 - csum_reduce x)) ltac:(lia))
    as (k' & Hk' & Hr' & Hk0' & Hz').
  set (r := csum_reduce x) in *.
  set (r' := csum_reduce (x + (65535 - r))) in *.
  assert (r' <> 0) by (intros E; specialize (Hz' E); lia).
  assert (65535 * (k + 1 - k') = r') by lia.
  assert (k + 1 - k' = 1) by nia. lia.
Qed.

Lemma send_pkt_bytes s to dst proto nf pkt remaining offset :
  let h0 := sent_hdr s to proto nf pkt remaining offset in
  let f := send_pkt s to dst proto nf pkt remaining offset in
  arp_dst f = dst
  /\ pbytes (tx_pkt f)
     = ip_hdr.hton (if tx_csum_ip_offload (_hw_features s) then h0
                    else ip_hdr.set_csum (checksum (ip_hdr.hton h0)) h0)
       ++ pbytes pkt
  /\ (tx_csum_ip_offload (_hw_features s) = true ->
      needs_ip_csum (oi (tx_pkt f)) = true).
Proof.
  unfold send_pkt, sent_hdr.
  destruct (tx_csum_ip_offload (_hw_features s)); done.
Qed.

Lemma csum_words_hton_range h :
  0 <= csum_words (ip_hdr.hton h) <= 655350.
Proof.
  unfold ip_hdr.hton, put_be16, put_be32. cbn [app csum_words].
  repeat match goal with
         | |- context [be16 ?a ?b] =>
             pose proof (be16_range a b); generalize dependent (be16 a b); intros
         end.
  lia.
Qed.

Lemma csum_words_set_csum c h :
  ip_hdr.csum h = 0 ->
  csum_words (ip_hdr.hton (ip_hdr.set_csum c h))
  = csum_words (ip_hdr.hton h) + u16 c.
Proof.
  intros Hc. unfold ip_hdr.hton, ip_hdr.set_csum, put_be16, put_be32.
  cbn [app csum_words ip_hdr.ihl ip_hdr.ver ip_hdr.dscp ip_hdr.ecn ip_hdr.len
       ip_hdr.id ip_hdr.frag ip_hdr.ttl ip_hdr.ip_proto ip_hdr.csum
       ip_hdr.src_ip ip_hdr.dst_ip].
  rewrite Hc, (be16_put_be16 c). change (be16 (byte_of (Z.shiftr 0 8)) (byte_of 0)) with 0.
  lia.
Qed.

(** The header that [send_pkt] has completed by its checksum passes
    the test of the receiver. *)
Lemma checksum_hton_completed h :
  ip_hdr.csum h = 0 ->
  checksum (ip_hdr.hton (ip_hdr.set_csum (checksum (ip_hdr.hton h)) h)) = 0.
Proof.
  intros Hc. pose proof (csum_words_hton_range h) as Hr.
  unfold checksum at 1. rewrite csum_words_set_csum by done.
  assert (Hck : 0 <= checksum (ip_hdr.hton h) <= 65535)
    by (apply checksum_range; lia).
  rewrite u16_small by lia. unfold checksum.
  apply checksum_completes. lia.
Qed.

(** A header of the kind that [send_pkt] writes is read back from the
    wire as it was written. *)
Lemma ntoh_hton_sent (len frag proto c src dst : Z) (rest : list byte) :
  0 <= len < 65536 -> 0 <= frag < 65536 -> 0 <= proto < 256 ->
  0 <= c < 65536 -> 0 <= src < 4294967296 -> 0 <= dst < 4294967296 ->
  ip_hdr.ntoh (take 20 (ip_hdr.hton (ip_hdr.mk 5 4 0 0 len 0 frag 64 proto c
                                               src dst) ++ rest))
  = ip_hdr.mk 5 4 0 0 len 0 frag 64 proto c src dst.
Proof.
  intros Hlen Hfrag Hproto Hc Hsrc Hdst.
  rewrite take_app_length' by (by rewrite length_hton).
  unfold ip_hdr.ntoh, ip_hdr.hton, put_be16, put_be32.
  cbn [app nth ip_hdr.ihl ip_hdr.ver ip_hdr.dscp ip_hdr.ecn ip_hdr.len
       ip_hdr.id ip_hdr.frag ip_hdr.ttl ip_hdr.ip_proto ip_hdr.csum
       ip_hdr.src_ip ip_hdr.dst_ip].
  rewrite !be16_put_be16, !be32_put_be32, !bval_byte_of.
  rewrite !u16_small, !u32_small by lia.
  rewrite (Z.mod_small proto) by lia.
  reflexivity.
Qed.

Lemma take_take_drop_app {A : Type} (l : list A) (a b : nat) :
  take a l ++ take b (drop a l) = take (a + b) l.
Proof.
  revert l. induction a as [|a IH]; intros [|x l]; simpl; try done.
  - by rewrite take_nil.
  - by rewrite IH.
Qed.

(** One frame of [send_pkt]. *)
Lemma send_pkt_frame s to proto nf pkt remaining offset :
  0 <= _host_address s < 4294967296 -> 0 <= to < 4294967296 ->
  plen pkt + 20 < 65536 ->
  let f := send_pkt s to (if in_my_netmask s to then to else _gw_address s)
                    proto nf pkt remaining offset in
  body f = pbytes pkt
  /\ plen (tx_pkt f) = plen pkt + 20
  /\ addressed s to proto f
  /\ summed s f.
Proof.
  intros Hhost Hto Hlen f.
  destruct (send_pkt_bytes s to (if in_my_netmask s to then to else _gw_address s)
              proto nf pkt remaining offset) as (Hdst & Hbytes & Hoi).
  fold f in Hdst, Hbytes, Hoi.
  pose proof (plen_nonneg pkt) as Hnn.
  set (h0 := sent_hdr s to proto nf pkt remaining offset) in *.
  assert (Hck : 0 <= checksum (ip_hdr.hton h0) <= 65535).
  { apply checksum_range. pose proof (csum_words_hton_range h0). lia. }
  assert (Hfrag : 0 <= ip_hdr.frag h0 < 65536).
  { unfold h0, sent_hdr. cbn [ip_hdr.frag].
    destruct nf; [apply Z.mod_pos_bound|]; lia. }
  assert (Hplen : plen (tx_pkt f) = plen pkt + 20).
  { unfold plen. rewrite Hbytes, length_app, length_hton. lia. }
  assert (Hwire : wire_hdr f
                  = if tx_csum_ip_offload (_hw_features s) then h0
                    else ip_hdr.set_csum (checksum (ip_hdr.hton h0)) h0).
  { unfold wire_hdr. rewrite Hbytes.
    destruct (tx_csum_ip_offload (_hw_features s));
      unfold h0, sent_hdr, ip_hdr.set_csum in *;
      cbn [ip_hdr.ihl ip_hdr.ver ip_hdr.dscp ip_hdr.ecn ip_hdr.len ip_hdr.id
           ip_hdr.frag ip_hdr.ttl ip_hdr.ip_proto ip_hdr.csum ip_hdr.src_ip
           ip_hdr.dst_ip] in *;
      apply ntoh_hton_sent; try lia;
      try (apply Z.mod_pos_bound; lia). }
  split; [|split; [done|split]].
  - unfold body. rewrite Hbytes. apply drop_app_length'. by rewrite length_hton.
  - unfold addressed. rewrite Hwire, Hplen.
    split; [done|].
    destruct (tx_csum_ip_offload (_hw_features s));
      unfold h0, sent_hdr, ip_hdr.set_csum, ip_hdr.size;
      cbn [ip_hdr.ihl ip_hdr.ver ip_hdr.dscp ip_hdr.ecn ip_hdr.len ip_hdr.id
           ip_hdr.frag ip_hdr.ttl ip_hdr.ip_proto ip_hdr.csum ip_hdr.src_ip
           ip_hdr.dst_ip];
      rewrite u16_small by lia; done.
  - unfold summed. rewrite Hwire.
    destruct (tx_csum_ip_offload (_hw_features s)) eqn:Hoff.
    + split; [done|]. by apply Hoi.
    + rewrite Hbytes, take_app_length' by (by rewrite length_hton).
      by apply checksum_hton_completed.
Qed.

(** The fragmentation loop, from a state with [remaining] bytes left at
    [offset]: the frames carry these bytes of the body, in order and
    each once, and every frame fits the MTU. *)
Lemma send_frags_body s to proto p fuel :
  forall remaining offset,
    0 <= _host_address s < 4294967296 -> 0 <= to < 4294967296 ->
    20 < mtu (_hw_features s) < 65536 ->
    0 <= remaining -> 0 <= offset ->
    offset + remaining <= plen p -> offset + remaining < 65536 ->
    (Z.to_nat remaining <= fuel)%nat ->
    exists frames,
      send_frags fuel s to (if in_my_netmask s to then to else _gw_address s)
                 proto p remaining offset = Some frames
      /\ concat (map body frames)
         = take (Z.to_nat remaining) (drop (Z.to_nat offset) (pbytes p))
      /\ Forall (fun f => body f <> []
                          /\ plen (tx_pkt f) <= mtu (_hw_features s)
                          /\ addressed s to proto f /\ summed s f) frames.
Proof.
  set (c := mtu (_hw_features s) - 20).
  induction fuel as [|fuel IH];
    intros remaining offset Hhost Hto Hmtu Hr Ho Hin Hsum Hfuel.
  - assert (remaining = 0) as -> by lia. exists []. simpl.
    split; [done|]. split; [by rewrite take_0|done].
  - simpl. destruct (Z.eqb_spec remaining 0) as [->|Hne].
    { exists []. split; [done|]. split; [by rewrite take_0|done]. }
    unfold ipv4_hdr_len_min. fold c.
    rewrite (u16_small c) by lia.
    set (can_send := Z.min c remaining).
    assert (Hcs : 0 < can_send <= remaining) by lia.
    rewrite (u16_small (remaining - can_send)) by lia.
    rewrite (u16_small (offset + can_send)) by lia.
    destruct (IH (remaining - can_send) (offset + can_send))
      as (frames & -> & Hbody & Hall); [done|done|done|lia|lia|lia|lia|lia|].
    set (pkt := share offset can_send p).
    assert (Hpkt : pbytes pkt
                   = take (Z.to_nat can_send) (drop (Z.to_nat offset) (pbytes p)))
      by apply pbytes_share.
    assert (Hplen : plen pkt = can_send).
    { unfold plen in *. rewrite Hpkt, length_take, length_drop. lia. }
    destruct (send_pkt_frame s to proto true pkt (remaining - can_send) offset)
      as (Hb & Hl & Haddr & Hck); [done|done|lia|].
    eexists. split; [reflexivity|]. split.
    + cbn [map concat]. rewrite Hb, Hbody, Hpkt.
      replace (Z.to_nat (offset + can_send))
        with (Z.to_nat offset + Z.to_nat can_send)%nat by lia.
      rewrite <- drop_drop, take_take_drop_app. f_equal. lia.
    + apply Forall_cons_2; [|done]. split; [|split; [lia|done]].
      rewrite Hb. intros E. apply (f_equal length) in E.
      unfold plen in Hplen. simpl in E. lia.
Qed.

(** [send] puts the whole body on the wire, in order and each byte
    once, behind headers that the receiver reads as well addressed and
    rightly summed; when it fragments, no frame is empty and every
    frame fits the MTU. *)
Theorem send_carries_body (fuel : nat) (s : t) (to proto : Z) (p : packet) :
  0 <= _host_address s < 4294967296 -> 0 <= to < 4294967296 ->
  20 < mtu (_hw_features s) < 65536 ->
  plen p + 20 < 65536 ->
  (Z.to_nat (plen p) <= fuel)%nat ->
  exists frames,
    send fuel s to proto p = Some frames
    /\ concat (map body frames) = pbytes p
    /\ Forall (fun f => addressed s to proto f /\ summed s f) frames
    /\ (needs_frag p proto (_hw_features s) = true ->
        Forall (fun f => body f <> []
                         /\ plen (tx_pkt f) <= mtu (_hw_features s)) frames)
    /\ (needs_frag p proto (_hw_features s) = false -> length frames = 1%nat).
Proof.
  intros Hhost Hto Hmtu Hlen Hfuel. unfold send.
  pose proof (plen_nonneg p) as Hnn.
  destruct (needs_frag p proto (_hw_features s)) eqn:Hnf.
  - rewrite u16_small by lia.
    destruct (send_frags_body s to proto p fuel (plen p) 0)
      as (frames & -> & Hbody & Hall); try done; try lia.
    exists frames. split; [done|]. split.
    + rewrite Hbody. change (Z.to_nat 0) with 0%nat. rewrite drop_0.
      apply take_ge. unfold plen. lia.
    + split; [|split; [|done]].
      * eapply Forall_impl; [exact Hall|]. by intros f (_ & _ & ? & ?).
      * intros _. eapply Forall_impl; [exact Hall|]. by intros f (? & ? & _).
  - destruct (send_pkt_frame s to proto false p 0 0)
      as (Hb & Hl & Haddr & Hck); [done|done|lia|].
    eexists. split; [reflexivity|]. split; [|split; [|split; [done|done]]].
    + cbn [map concat]. by rewrite Hb, app_nil_r.
    + by apply Forall_singleton.
Qed.

(** 3000 bytes of UDP over an MTU of 1500, to a neighbour. *)
Lemma send_carries_body_witness :
  exists frames,
    send 3000 (vectors.host vectors.hw_sw_csum) vectors.peer_ip
         ip_protocol_num_udp vectors.udp_3000 = Some frames
    /\ concat (map body frames) = pbytes vectors.udp_3000
    /\ Forall (fun f => addressed (vectors.host vectors.hw_sw_csum)
                                  vectors.peer_ip ip_protocol_num_udp f
                        /\ summed (vectors.host vectors.hw_sw_csum) f) frames
    /\ (needs_frag vectors.udp_3000 ip_protocol_num_udp
                   (_hw_features (vectors.host vectors.hw_sw_csum)) = true ->
        Forall (fun f => body f <> []
                         /\ plen (tx_pkt f)
                            <= mtu (_hw_features (vectors.host vectors.hw_sw_csum)))
               frames)
    /\ (needs_frag vectors.udp_3000 ip_protocol_num_udp
                   (_hw_features (vectors.host vectors.hw_sw_csum)) = false ->
        length frames = 1%nat).
Proof.
  apply (send_carries_body 3000 (vectors.host vectors.hw_sw_csum)
           vectors.peer_ip ip_protocol_num_udp vectors.udp_3000).
  - vm_compute. split; [discriminate|reflexivity].
  - vm_compute. split; [discriminate|reflexivity].
  - vm_compute. split; reflexivity.
  - vm_compute. reflexivity.
  - apply Nat.leb_le. vm_compute. reflexivity.
Defined.

End transmit_wire.

(** ** [ipv4::in_my_netmask] *)

Section netmask.

Import ipv4.

(** An address is in the netmask of the host exactly when it agrees
    with the address of the host on every bit of the mask; so the host
    itself is, and so is every address when the mask is 0. *)
Theorem in_my_netmask_same_network (s : t) (a : Z) :
  (in_my_netmask s a = true
   <-> Z.land a (_netmask s) = Z.land (_host_address s) (_netmask s))
  /\ in_my_netmask s (_host_address s) = true
  /\ (_netmask s = 0 -> in_my_netmask s a = true).
Proof.
  unfold in_my_netmask. split; [|split].
  - assert (Hd : Z.land (Z.lxor a (_host_address s)) (_netmask s)
                 = Z.lxor (Z.land a (_netmask s))
                          (Z.land (_host_address s) (_netmask s))).
    { apply Z.bits_inj'. intros n Hn.
      rewrite Z.land_spec, !Z.lxor_spec, !Z.land_spec.
      by destruct (Z.testbit a n), (Z.testbit (_host_address s) n),
                  (Z.testbit (_netmask s) n). }
    by rewrite Z.eqb_eq, Hd, Z.lxor_eq_0_iff.
  - by rewrite Z.lxor_nilpotent, Z.land_0_l.
  - intros ->. by rewrite Z.land_0_r.
Qed.

End netmask.

(** ** [ipv4::handle_received_packet]: what is delivered *)

Section receive_path.

Import ipv4 flows checks.

Variable memory : packet -> Z.
Variable data_merge : list (Z * packet) -> Z -> packet -> list (Z * packet).

Lemma pbytes_trim_back n p :
  pbytes (trim_back n p) = take (length (pbytes p) - Z.to_nat n) (pbytes p).
Proof. apply concat_frags_take. Qed.

Lemma deliver_assembled_outcome cpu s h fr from :
  deliver_assembled cpu s h fr from <> rx_drop
  /\ deliver_assembled cpu s h fr from <> rx_filtered.
Proof.
  unfold deliver_assembled.
  destruct (_l4 s !! ip_hdr.ip_proto h); destruct (_ =? cpu);
    try destruct (get_assembled_packet _ _ _); done.
Qed.

(** Nothing reaches a handler, the reassembly table or another core
    without having passed the checks; a call that drops the packet or
    leaves it to the filter keeps the reassembly state; no call
    changes the configuration; and the only ARP entry that a call
    learns is the sender of the packet, when that is a neighbour and
    not this host. *)
Theorem received_only_when_accepted (now cpu : Z) (s : t) (p : packet)
    (from : list byte) :
  let r := handle_received_packet memory data_merge now cpu s p from in
  (r.1 <> rx_drop -> r.1 <> rx_filtered -> exists h, accepted s p h)
  /\ (r.1 = rx_drop \/ r.1 = rx_filtered ->
      _frags r.2 = _frags s /\ _frags_age r.2 = _frags_age s
      /\ _frag_mem r.2 = _frag_mem s /\ _frag_timer r.2 = _frag_timer s)
  /\ (_arp r.2 = _arp s
      \/ exists h, header_at p 0 = Some h
                   /\ _arp r.2 = (from, ip_hdr.src_ip h) :: _arp s
                   /\ in_my_netmask s (ip_hdr.src_ip h) = true
                   /\ ip_hdr.src_ip h <> _host_address s).
Proof.
  intros r. subst r. unfold handle_received_packet, accepted, header_at.
  destruct (get_header 0 ip_hdr.size p) as [iph|] eqn:Hgh;
    [|by (split; [|split; [|by left]])].
  assert (Hiph : iph = take 20 (pbytes p)).
  { unfold get_header in Hgh. destruct (_ <=? _); [|done].
    injection Hgh as <-. by rewrite drop_0. }
  set (h := ip_hdr.ntoh iph).
  destruct (negb (rx_csum_offload (_hw_features s)) && negb (reassembled (oi p))
            && negb (checksum iph =? 0)) eqn:Hck;
    [by (split; [|split; [|by left]])|].
  destruct (Z.ltb_spec (plen p) (ip_hdr.len h)) as [Hshort|Hlong];
    [by (split; [|split; [|by left]])|].
  set (p' := if ip_hdr.len h <? plen p then trim_back (plen p - ip_hdr.len h) p
             else p).
  assert (Hlen0 : 0 <= ip_hdr.len h) by apply be16_range.
  clearbody h.
  assert (Hp' : plen p' = Z.min (ip_hdr.len h) (plen p)).
  { unfold p'. destruct (Z.ltb_spec (ip_hdr.len h) (plen p)); [|lia].
    unfold plen in *. rewrite pbytes_trim_back, length_take. lia. }
  destruct (Z.ltb_spec ip_packet_len_max (ip_hdr.offset h + plen p'))
    as [Hbig|Hfits]; [by (split; [|split; [|by left]])|].
  set (s' := if _ && _ then arp_learn _ _ s else s).
  assert (Hs' : _frags s' = _frags s /\ _frags_age s' = _frags_age s
                /\ _frag_mem s' = _frag_mem s /\ _frag_timer s' = _frag_timer s
                /\ _host_address s' = _host_address s)
    by (unfold s';
        destruct (in_my_netmask s (ip_hdr.src_ip h)
                  && negb (ip_hdr.src_ip h =? _host_address s)); repeat split).
  assert (Harp : _arp s' = _arp s
                 \/ (_arp s' = (from, ip_hdr.src_ip h) :: _arp s
                     /\ in_my_netmask s (ip_hdr.src_ip h) = true
                     /\ ip_hdr.src_ip h <> _host_address s)).
  { unfold s'. destruct (in_my_netmask s (ip_hdr.src_ip h)) eqn:Hnm; [|by left].
    destruct (Z.eqb_spec (ip_hdr.src_ip h) (_host_address s)); [by left|].
    by right. }
  destruct Hs' as (Hf & Ha & Hm & Ht & Hhost).
  assert (Hacc : ip_hdr.dst_ip h = _host_address s ->
                 exists h0, Some h = Some h0
                   /\ (rx_csum_offload (_hw_features s) = false ->
                       reassembled (oi p) = false ->
                       checksum (take 20 (pbytes p)) = 0)
                   /\ ip_hdr.len h0 <= plen p
                   /\ ip_hdr.offset h0 + Z.min (ip_hdr.len h0) (plen p)
                      <= ip_packet_len_max
                   /\ ip_hdr.dst_ip h0 = _host_address s).
  { intros Hdst. exists h. split; [done|]. split; [|split; [done|split; [lia|done]]].
    intros Hoff Hre. rewrite Hoff, Hre in Hck. simpl in Hck.
    rewrite <- Hiph. apply Z.eqb_eq. by destruct (checksum iph =? 0). }
  assert (Harp' : forall s2, _arp s2 = _arp s' ->
            _arp s2 = _arp s
            \/ exists h0, Some h = Some h0
                 /\ _arp s2 = (from, ip_hdr.src_ip h0) :: _arp s
                 /\ in_my_netmask s (ip_hdr.src_ip h0) = true
                 /\ ip_hdr.src_ip h0 <> _host_address s).
  { intros s2 ->. destruct Harp as [?|?]; [by left|right]. by exists h. }
  clearbody s' p'.
  destruct (match _packet_filter s' with Some _ => _ | None => _ end).
  { split; [done|]. split; [done|]. by apply Harp'. }
  rewrite Hhost.
  destruct (Z.eqb_spec (ip_hdr.dst_ip h) (_host_address s)) as [Hdst|Hdst]; simpl.
  2:{ split; [done|]. split; [done|]. by apply Harp'. }
  destruct (ip_hdr.mf h || negb (ip_hdr.offset h =? 0)).
  - split; [intros _ _; by apply Hacc|].
    unfold reassemble.
    destruct (frag_insert _ _ _ _ _ _ _) as [[s1 k] fr] eqn:Hins.
    assert (Harp1 : _arp s1 = _arp s').
    { unfold frag_insert in Hins.
      destruct (frags_at _ _) as [fs fr0]. destruct (frag_merge _ _ _ _ _ _).
      injection Hins as <- _ _. simpl. unfold frag_limit_mem.
      destruct (_ <=? _); [done|]. by destruct (frag_limit_loop _ _ _ _) as [[? ?] ?]. }
    destruct (is_complete fr).
    + destruct (deliver_assembled_outcome cpu s1 h fr from) as [Hd1 Hd2].
      split; [by intros [?|?]|].
      apply Harp'. unfold frag_remove, frag_drop. by simpl.
    + split; [by intros [?|?]|].
      apply Harp'. simpl. by destruct (_frag_timer s1).
  - destruct (_l4 s' !! ip_hdr.ip_proto h).
    + split; [intros _ _; by apply Hacc|]. split; [by intros [?|?]|].
      by apply Harp'.
    + split; [done|]. split; [done|]. by apply Harp'.
Qed.

(** An accepted packet that is an intact datagram (MF clear, offset
    0) of a registered protocol, with no filter in the way, reaches
    the handler as the bytes between the end of its header and its
    total length: what the link has added behind the datagram is cut
    off.  The reassembly state stays as it is. *)
Theorem intact_datagram_delivered (now cpu : Z) (s : t) (p : packet)
    (from : list byte) (h : ip_hdr.t) (l4 : ip_protocol) :
  accepted s p h ->
  atomic h = true ->
  ip_hdr.ihl h * 4 <= ip_hdr.len h ->
  _packet_filter s = None ->
  _l4 s !! ip_hdr.ip_proto h = Some l4 ->
  let r := handle_received_packet memory data_merge now cpu s p from in
  exists q,
    r.1 = rx_received (ip_hdr.ip_proto h) q (ip_hdr.src_ip h) (ip_hdr.dst_ip h)
    /\ pbytes q
       = take (Z.to_nat (ip_hdr.len h - ip_hdr.ihl h * 4))
              (drop (Z.to_nat (ip_hdr.ihl h * 4)) (pbytes p))
    /\ _frags r.2 = _frags s /\ _frags_age r.2 = _frags_age s
    /\ _frag_mem r.2 = _frag_mem s /\ _frag_timer r.2 = _frag_timer s.
Proof.
  intros (Hh & Hck & Hlen & Hfits & Hdst) Hatomic Hhl Hfilter Hl4 r. subst r.
  unfold header_at in Hh.
  destruct (get_header 0 ip_hdr.size p) as [iph|] eqn:Hgh; [|done].
  injection Hh as Hh.
  assert (Hiph : iph = take 20 (pbytes p)).
  { unfold get_header in Hgh. destruct (_ <=? _); [|done].
    injection Hgh as <-. by rewrite drop_0. }
  assert (Hlen0 : 0 <= ip_hdr.len h) by (rewrite <- Hh; apply be16_range).
  assert (Hihl0 : 0 <= ip_hdr.ihl h).
  { rewrite <- Hh. unfold ip_hdr.ntoh. cbn [ip_hdr.ihl]. apply Z.land_nonneg. lia. }
  unfold atomic in Hatomic. apply andb_prop in Hatomic as [Hmf Hoff].
  apply negb_true_iff in Hmf. apply Z.eqb_eq in Hoff.
  unfold handle_received_packet. rewrite Hgh, Hh.
  assert (Hsum : negb (rx_csum_offload (_hw_features s))
                 && negb (reassembled (oi p)) && negb (checksum iph =? 0)
                 = false).
  { destruct (rx_csum_offload (_hw_features s)); [done|].
    destruct (reassembled (oi p)); [done|].
    rewrite Hiph, Hck by done. done. }
  rewrite Hsum.
  destruct (Z.ltb_spec (plen p) (ip_hdr.len h)) as [Hshort|_]; [lia|].
  set (p' := if ip_hdr.len h <? plen p then trim_back (plen p - ip_hdr.len h) p
             else p).
  assert (Hp' : pbytes p' = take (Z.to_nat (ip_hdr.len h)) (pbytes p)).
  { unfold p'. destruct (Z.ltb_spec (ip_hdr.len h) (plen p)).
    - rewrite pbytes_trim_back. f_equal. unfold plen in *. lia.
    - symmetry. apply take_ge. unfold plen in *. lia. }
  assert (Hpl' : plen p' = ip_hdr.len h).
  { unfold plen in *. rewrite Hp', length_take. lia. }
  rewrite Hoff, Hpl'.
  destruct (Z.ltb_spec ip_packet_len_max (0 + ip_hdr.len h)) as [Hbig|_];
    [rewrite Hoff in Hfits; lia|].
  set (s' := if _ && _ then arp_learn _ _ s else s).
  assert (Hs' : _frags s' = _frags s /\ _frags_age s' = _frags_age s
                /\ _frag_mem s' = _frag_mem s /\ _frag_timer s' = _frag_timer s
                /\ _host_address s' = _host_address s
                /\ _packet_filter s' = _packet_filter s /\ _l4 s' = _l4 s)
    by (unfold s';
        destruct (in_my_netmask s (ip_hdr.src_ip h)
                  && negb (ip_hdr.src_ip h =? _host_address s)); repeat split).
  destruct Hs' as (Hf & Ha & Hm & Ht & Hhost & Hfil & Hl').
  clearbody s'.
  rewrite Hfil, Hfilter, Hhost, Hdst, Z.eqb_refl, Hmf, Hl', Hl4.
  cbn [negb orb fst snd]. rewrite Z.eqb_refl. cbn [negb fst snd].
  eexists. split; [reflexivity|]. split; [|done].
  rewrite pbytes_trim_front, Hp', skipn_firstn_comm. f_equal. lia.
Qed.

End receive_path.

Section receive_path_vectors.

Import ipv4 flows checks vectors.

(** The intact TCP segment of the vectors, 28 bytes, with the 18 bytes
    by which Ethernet pads it to its minimal frame: the handler gets
    the 8 bytes of the segment. *)
Lemma intact_datagram_delivered_witness :
  let r := handle_received_packet vmemory merger_merge 0 0 (host hw_sw_csum)
             tcp_atomic_1_padded peer_mac in
  exists q,
    r.1 = rx_received (ip_hdr.ip_proto (tcp_hdr 0)) q
            (ip_hdr.src_ip (tcp_hdr 0)) (ip_hdr.dst_ip (tcp_hdr 0))
    /\ pbytes q
       = take (Z.to_nat (ip_hdr.len (tcp_hdr 0) - ip_hdr.ihl (tcp_hdr 0) * 4))
              (drop (Z.to_nat (ip_hdr.ihl (tcp_hdr 0) * 4))
                    (pbytes tcp_atomic_1_padded))
    /\ _frags r.2 = _frags (host hw_sw_csum)
    /\ _frags_age r.2 = _frags_age (host hw_sw_csum)
    /\ _frag_mem r.2 = _frag_mem (host hw_sw_csum)
    /\ _frag_timer r.2 = _frag_timer (host hw_sw_csum).
Proof.
  apply (intact_datagram_delivered vmemory merger_merge 0 0 (host hw_sw_csum)
           tcp_atomic_1_padded peer_mac (tcp_hdr 0) (l4_forward cores)).
  - split; [vm_compute; reflexivity|].
    split; [intros _ _; vm_compute; reflexivity|].
    vm_compute. repeat split; discriminate.
  - vm_compute. reflexivity.
  - vm_compute. discriminate.
  - reflexivity.
  - reflexivity.
Defined.

End receive_path_vectors.

(** ** [net_device::send]: what goes to the NIC *)

Section dpdk_transmit.

Import dpdk.

(** A driver buffer as [copy_one_data_buf] leaves it: between 1 and
    2048 bytes, counted in its [pkt_len]. *)
Let filled (m : rte_mbuf) : Prop :=
  (0 < length (m_data m) <= 2048)%nat
  /\ m_pkt_len m = Z.of_nat (length (m_data m)).

(** The loop of [copy_one_frag] appends the next [left_to_copy] bytes
    of the fragment to the chain, in buffers of at most 2048 bytes,
    and counts the buffers. *)
Lemma copy_rest_data fuel :
  forall pool left base chain ns pool' chain' ns',
    0 <= left <= Z.of_nat (length base) ->
    copy_rest fuel pool left base chain ns = copy_ok pool' chain' ns' ->
    concat (map m_data chain')
    = concat (map m_data chain) ++ take (Z.to_nat left) base
    /\ ns' - Z.of_nat (length chain') = ns - Z.of_nat (length chain)
    /\ (Forall filled chain -> Forall filled chain').
Proof.
  induction fuel as [|fuel IH];
    intros pool left base chain ns pool' chain' ns' Hleft; simpl.
  - destruct (Z.eqb_spec left 0) as [->|]; [|done].
    intros [= <- <- <-]. by rewrite take_0, app_nil_r.
  - destruct (Z.eqb_spec left 0) as [->|Hne].
    { intros [= <- <- <-]. by rewrite take_0, app_nil_r. }
    destruct pool as [|id pool]; [done|]. cbn [copy_one_data_buf].
    set (len := Z.min left mbuf_data_size).
    assert (Hlen : 0 < len <= left /\ len <= 2048)
      by (unfold len, mbuf_data_size; lia).
    destruct (Z.eqb_spec len 0) as [|_]; [lia|].
    intros Hrest. apply IH in Hrest as (Hdata & Hns & Hfilled).
    2:{ rewrite length_drop. lia. }
    split; [|split].
    + rewrite Hdata, map_app, concat_app. cbn [map concat m_data].
      rewrite app_nil_r, <- app_assoc, take_take_drop_app. do 2 f_equal. lia.
    + rewrite length_app in Hns. simpl in Hns. lia.
    + intros Hc. apply Hfilled. apply Forall_app. split; [done|].
      apply Forall_singleton. unfold filled. cbn [m_data m_pkt_len].
      rewrite length_take. lia.
Qed.

Lemma copy_one_frag_data pool f pool' chain n :
  copy_one_frag pool f = copy_ok pool' chain n ->
  concat (map m_data chain) = f
  /\ n = Z.of_nat (length chain)
  /\ Forall filled chain.
Proof.
  unfold copy_one_frag.
  destruct (Z.eqb_spec (fsize f) 0) as [|Hne]; [done|].
  destruct pool as [|id pool]; [done|]. cbn [copy_one_data_buf].
  set (len := Z.min (fsize f) mbuf_data_size).
  assert (Hlen : 0 < len <= fsize f /\ len <= 2048).
  { unfold len, mbuf_data_size, fsize in *. lia. }
  destruct (Z.eqb_spec len 0) as [|_]; [lia|].
  intros Hrest. apply copy_rest_data in Hrest as (Hdata & Hns & Hfilled).
  2:{ rewrite length_drop. unfold fsize in *. lia. }
  split; [|split].
  - rewrite Hdata. cbn [map concat m_data]. rewrite app_nil_r, take_take_drop_app.
    apply take_ge. unfold fsize in *. lia.
  - simpl in Hns. lia.
  - apply Hfilled. apply Forall_singleton. unfold filled. cbn [m_data m_pkt_len].
    rewrite length_take. unfold fsize in *. lia.
Qed.

Lemma copy_frags_data fs :
  forall pool chain ns pool' chain' ns',
    copy_frags fs pool chain ns = copy_ok pool' chain' ns' ->
    concat (map m_data chain') = concat (map m_data chain) ++ concat fs
    /\ ns' - Z.of_nat (length chain') = ns - Z.of_nat (length chain)
    /\ (exists more, chain' = chain ++ more /\ Forall filled more).
Proof.
  induction fs as [|f fs IH]; intros pool chain ns pool' chain' ns'; simpl.
  - intros [= <- <- <-]. rewrite app_nil_r. split; [done|]. split; [done|].
    exists []. by rewrite app_nil_r.
  - destruct (copy_one_frag pool f) as [pool1 h n| | |] eqn:Hf; try done.
    apply copy_one_frag_data in Hf as (Hd & Hn & Hfil).
    intros Hrest. apply IH in Hrest as (Hdata & Hns & more & -> & Hmore).
    split; [|split].
    + rewrite Hdata, map_app, concat_app, Hd. by rewrite <- app_assoc.
    + rewrite !length_app in *. lia.
    + exists (h ++ more). split; [by rewrite app_assoc|].
      by apply Forall_app.
Qed.

Lemma copy_frags_enough fs :
  forall pool chain ns,
    Forall (fun f => f <> []) fs ->
    (total_bufs fs <= length pool)%nat ->
    exists chain',
      copy_frags fs pool chain ns
      = copy_ok (drop (total_bufs fs) pool) chain'
                (ns + Z.of_nat (total_bufs fs)).
Proof.
  induction fs as [|f fs IH]; intros pool chain ns Hne Hpool; simpl in *.
  - exists chain. by rewrite drop_0, Z.add_0_r.
  - apply Forall_cons in Hne as [Hf Hne].
    destruct (copy_one_frag_enough pool f Hf ltac:(lia)) as [h ->].
    destruct (IH (drop (bufs_needed f) pool) (chain ++ h)
                 (ns + Z.of_nat (bufs_needed f)) Hne) as [chain' ->].
    { rewrite length_drop. lia. }
    exists chain'. rewrite drop_drop. f_equal. lia.
Qed.

(** A packet of at most 32 fragments, none of them empty, for which
    the pool has the buffers, is sent: the call takes the
    [ceil(size / 2048)] buffers of each fragment off the front of the
    pool and queues one cluster.  The buffers of the cluster hold the
    bytes of the packet, in order, at most 2048 in each and none
    empty; its head carries the packet length and the number of
    buffers, and asks for the IP checksum exactly when the packet
    does. *)
Theorem send_transmits_packet (dev : net_device) (p : packet) :
  nr_frags p <= max_frags ->
  frags p <> [] ->
  Forall (fun f => f <> []) (frags p) ->
  (total_bufs (frags p) <= length (_pktmbuf_pool dev))%nat ->
  exists head segs,
    send dev p
    = (tx_sent,
       mk_net_device (drop (total_bufs (frags p)) (_pktmbuf_pool dev))
                     (tx_ring dev ++ [head :: segs]) (dev_hw_features dev))
    /\ map m_id (head :: segs)
       = take (total_bufs (frags p)) (_pktmbuf_pool dev)
    /\ concat (map m_data (head :: segs)) = pbytes p
    /\ Forall (fun m => (0 < length (m_data m) <= 2048)%nat) (head :: segs)
    /\ m_pkt_len head = plen p
    /\ m_nb_segs head = Z.of_nat (length (head :: segs))
    /\ m_tx_ip_cksum head = needs_ip_csum (oi p).
Proof.
  intros Hnr Hne Hall Hpool.
  destruct (frags p) as [|f0 rest] eqn:Hfr; [done|].
  apply Forall_cons in Hall as [Hf0 Hrest].
  assert (Hlen : plen p <> 0).
  { unfold plen, pbytes. rewrite Hfr. simpl. rewrite length_app.
    destruct f0; [done|]. simpl. lia. }
  unfold send. destruct (Z.eqb_spec (plen p) 0); [done|].
  destruct (Z.ltb_spec max_frags (nr_frags p)); [lia|].
  unfold copy_and_transmit. rewrite Hfr. simpl in Hpool.
  destruct (copy_one_frag_enough (_pktmbuf_pool dev) f0 Hf0 ltac:(lia))
    as [chain Hc0].
  rewrite Hc0.
  pose proof (copy_one_frag_conserves (_pktmbuf_pool dev) f0) as Hcons0.
  rewrite Hc0 in Hcons0. destruct Hcons0 as [Hids0 Hne0].
  pose proof (copy_one_frag_data _ _ _ _ _ Hc0) as (Hd0 & Hn0 & Hfil0).
  destruct (copy_frags_enough rest (drop (bufs_needed f0) (_pktmbuf_pool dev))
              chain (Z.of_nat (bufs_needed f0)) Hrest) as [chain' Hc].
  { rewrite length_drop. lia. }
  rewrite Hc.
  pose proof (copy_frags_conserves rest (drop (bufs_needed f0) (_pktmbuf_pool dev))
                chain (Z.of_nat (bufs_needed f0))) as Hcons.
  rewrite Hc in Hcons. destruct Hcons as [Hids Hne'].
  pose proof (copy_frags_data _ _ _ _ _ _ _ Hc) as (Hd & Hn & more & Hmore & Hfil).
  destruct chain' as [|head segs]; [by specialize (Hne' Hne0)|].
  rewrite drop_drop in *.
  exists (finish_head dev p (Z.of_nat (bufs_needed f0) + Z.of_nat (total_bufs rest))
                      head), segs.
  split; [done|].
  assert (Hall : Forall filled (head :: segs)).
  { rewrite Hmore. by apply Forall_app. }
  assert (Hcount : length (head :: segs)
                   = (bufs_needed f0 + total_bufs rest)%nat) by lia.
  assert (Hidsall : map m_id (head :: segs)
                    = take (bufs_needed f0 + total_bufs rest) (_pktmbuf_pool dev)).
  { rewrite Hids0 in Hids.
    apply (f_equal (take (bufs_needed f0 + total_bufs rest))) in Hids.
    rewrite take_app_length' in Hids by (rewrite length_map; lia). done. }
  cbn [total_bufs foldr].
  split; [|split; [|split; [|split; [|split]]]].
  - exact Hidsall.
  - cbn [map concat] in *. unfold finish_head. cbn [m_data].
    rewrite Hd, Hd0. unfold pbytes. by rewrite Hfr.
  - apply Forall_cons in Hall as [[Hh _] Hsegs]. apply Forall_cons_2.
    + unfold finish_head. by cbn [m_data].
    + eapply Forall_impl; [exact Hsegs|]. by intros m [? _].
  - reflexivity.
  - unfold finish_head. cbn [m_nb_segs length] in *. lia.
  - reflexivity.
Qed.

(** Three fragments of 2, 1 and 3 bytes and a pool of ten buffers. *)
Lemma send_transmits_packet_witness :
  exists head segs,
    send dpdk_vectors.dev_ten_bufs dpdk_vectors.pkt_three_frags
    = (tx_sent,
       mk_net_device
         (drop (total_bufs (frags dpdk_vectors.pkt_three_frags))
               (_pktmbuf_pool dpdk_vectors.dev_ten_bufs))
         (tx_ring dpdk_vectors.dev_ten_bufs ++ [head :: segs])
         (dev_hw_features dpdk_vectors.dev_ten_bufs))
    /\ map m_id (head :: segs)
       = take (total_bufs (frags dpdk_vectors.pkt_three_frags))
              (_pktmbuf_pool dpdk_vectors.dev_ten_bufs)
    /\ concat (map m_data (head :: segs)) = pbytes dpdk_vectors.pkt_three_frags
    /\ Forall (fun m => (0 < length (m_data m) <= 2048)%nat) (head :: segs)
    /\ m_pkt_len head = plen dpdk_vectors.pkt_three_frags
    /\ m_nb_segs head = Z.of_nat (length (head :: segs))
    /\ m_tx_ip_cksum head = needs_ip_csum (oi dpdk_vectors.pkt_three_frags).
Proof.
  apply (send_transmits_packet dpdk_vectors.dev_ten_bufs
           dpdk_vectors.pkt_three_frags).
  - vm_compute. discriminate.
  - discriminate.
  - repeat apply Forall_cons_2; try discriminate. apply Forall_nil_2.
  - vm_compute. lia.
Defined.

End dpdk_transmit.
